(** * View-graph pose-resolution engine of multiview_calib

    A shallow embedding of [calibration.py], [utils.py] and
    [point_set_registration.py], followed by the properties of the
    view-tree validator, the pose concatenation work-list, the robust
    pairwise estimator and the scale estimators.

    Part I holds the definitions, Part II the theorems. *)

From Stdlib Require Import String.
From Stdlib Require Import List Arith Bool Lia Relations Permutation Sorted.
From Stdlib Require Import QArith Qround Qabs Reals Lra.
Import ListNotations.

Close Scope Q_scope.
Close Scope R_scope.
Open Scope nat_scope.
Open Scope list_scope.

(** * Part I. Definitions *)

(** ** Python values shared by the whole module *)

(** A view is identified by an integer; timestamps identify landmarks. *)
Definition View := nat.
Definition Timestamp := nat.

(** A directed pair of views, the key of [relative_poses] and
    [triang_points]. *)
Definition Pair := (View * View)%type.

Definition pair_eqb (p q : Pair) : bool :=
  (fst p =? fst q) && (snd p =? snd q).

(** [v in key] for a 2-tuple [key]. *)
Definition in_pair (v : View) (key : Pair) : bool :=
  (v =? fst key) || (v =? snd key).

(** Exceptions the modelled code can raise. [RuntimeError] carries the
    list that line 303 of calibration.py formats into its message;
    [NodeNotFound] is the networkx error for a path query on a node that is
    not in the graph. *)
Inductive exn : Type :=
| IndexError
| KeyError_view (v : View)
| KeyError_pair (p : Pair)
| ValueError (msg : string)
| RuntimeError (unmatched_pairs : list Pair)
| NodeNotFound (v : View)
| AssertionError.

(** A computation that returns or raises. *)
Definition result (A : Type) : Type := (exn + A)%type.

Definition ret {A} (a : A) : result A := inr a.
Definition raise {A} (e : exn) : result A := inl e.

Definition bind {A B} (m : result A) (k : A -> result B) : result B :=
  match m with
  | inl e => inl e
  | inr a => k a
  end.

Notation "x <- m ;; k" := (bind m (fun x => k))
  (at level 61, m at next level, right associativity).
Notation "' pat <- m ;; k" := (bind m (fun x => match x with pat => k end))
  (at level 61, pat pattern, m at next level, right associativity).

(** [d[k]] with a given exception for a missing key. *)
Definition from_option {A} (e : exn) (o : option A) : result A :=
  match o with
  | Some a => inr a
  | None => inl e
  end.

(** Python dictionaries keep insertion order, and assigning to a key that
    is already present keeps the key's position. *)
Section Dict.
Context {K V : Type}.
Variable keq : K -> K -> bool.

Definition dict : Type := list (K * V).

Fixpoint dict_get (d : dict) (k : K) : option V :=
  match d with
  | [] => None
  | (k', v) :: d' => if keq k' k then Some v else dict_get d' k
  end.

Fixpoint dict_set (d : dict) (k : K) (v : V) : dict :=
  match d with
  | [] => [(k, v)]
  | (k', v') :: d' =>
      if keq k' k then (k', v) :: d' else (k', v') :: dict_set d' k v
  end.

Definition dict_keys (d : dict) : list K := map fst d.
End Dict.

Arguments dict : clear implicits.

(** [l.index(x)]: position of the first occurrence. *)
Fixpoint index_of (l : list Timestamp) (x : Timestamp) : option nat :=
  match l with
  | [] => None
  | y :: l' => if y =? x then Some 0
               else match index_of l' x with
                    | Some n => Some (S n)
                    | None => None
                    end
  end.

Definition mem (x : nat) (l : list nat) : bool := existsb (Nat.eqb x) l.

(** [set(a).intersection(b)]: the distinct elements of [a] that occur in
    [b]. Python leaves the iteration order of a set unspecified; the order
    of first occurrence in [a] is taken here and no property below depends
    on it. *)
Fixpoint set_of (l : list nat) : list nat :=
  match l with
  | [] => []
  | x :: l' => x :: filter (fun y => negb (y =? x)) (set_of l')
  end.

Definition intersection (a b : list nat) : list nat :=
  filter (fun x => mem x b) (set_of a).

(** [itertools.combinations(l, 2)]. *)
Fixpoint combinations2 {A} (l : list A) : list (A * A) :=
  match l with
  | [] => []
  | a :: t => map (pair a) t ++ combinations2 t
  end.

(** ** The networkx graphs used by calibration.py

    networkx is a dependency, not part of the repository. Its graphs are
    modelled by their node and edge lists in insertion order, and the three
    algorithms the module calls ([find_cycle], [number_connected_components],
    [all_simple_paths] with cutoff 2) by executable functions that are
    related to the declarative notions of walk and connectivity in Part II. *)

Definition add_node (nodes : list View) (v : View) : list View :=
  if mem v nodes then nodes else nodes ++ [v].

(** [nx.DiGraph]. *)
Record DiGraph : Type := mkDiGraph {
  dg_nodes : list View;
  dg_edges : list Pair
}.

Definition empty_digraph : DiGraph := mkDiGraph [] [].

Definition dg_add_edge (G : DiGraph) (e : Pair) : DiGraph :=
  {| dg_nodes := add_node (add_node (dg_nodes G) (fst e)) (snd e);
     dg_edges := if existsb (pair_eqb e) (dg_edges G)
                 then dg_edges G else dg_edges G ++ [e] |}.

(** [nx.Graph] whose edges carry one attribute ([n_points]); an edge is
    stored once and read in both directions. *)
Record Graph (A : Type) : Type := mkGraph {
  g_nodes : list View;
  g_edges : list (Pair * A)
}.
Arguments mkGraph {A}.
Arguments g_nodes {A}.
Arguments g_edges {A}.

Definition same_edge (e k : Pair) : bool :=
  pair_eqb e k || pair_eqb (snd e, fst e) k.

Fixpoint set_edge {A} (es : list (Pair * A)) (e : Pair) (a : A)
  : list (Pair * A) :=
  match es with
  | [] => [(e, a)]
  | (k, b) :: es' =>
      if same_edge e k then (k, a) :: es' else (k, b) :: set_edge es' e a
  end.

Definition g_add_nodes_from {A} (G : Graph A) (vs : list View) : Graph A :=
  {| g_nodes := fold_left add_node vs (g_nodes G); g_edges := g_edges G |}.

Definition g_add_edge {A} (G : Graph A) (e : Pair) (a : A) : Graph A :=
  {| g_nodes := add_node (add_node (g_nodes G) (fst e)) (snd e);
     g_edges := set_edge (g_edges G) e a |}.

(** [G[u][v]]: the attribute of the edge between [u] and [v], if any. *)
Fixpoint edge_attr {A} (es : list (Pair * A)) (u v : View) : option A :=
  match es with
  | [] => None
  | (k, a) :: es' => if same_edge (u, v) k then Some a else edge_attr es' u v
  end.

Definition has_edge {A} (G : Graph A) (u v : View) : bool :=
  match edge_attr (g_edges G) u v with Some _ => true | None => false end.

(** [G[v]]: the neighbours of [v] in the order their edges were added. *)
Definition neighbors {A} (G : Graph A) (v : View) : list View :=
  flat_map (fun ka : Pair * A =>
              let (k, _) := ka in
              if fst k =? v then [snd k]
              else if snd k =? v then [fst k] else [])
           (g_edges G).

(** [G.to_undirected()]. *)
Definition to_undirected (G : DiGraph) : Graph unit :=
  fold_left (fun H e => g_add_edge H e tt) (dg_edges G)
            {| g_nodes := dg_nodes G; g_edges := [] |}.

(** [reach E x y]: there is a directed walk with at least one edge from [x]
    to [y]. Adding the edge [(u, v)] adds the walks that go from [x] to [u],
    take the edge and go from [v] to [y]. *)
Fixpoint reach (E : list Pair) (x y : View) : bool :=
  match E with
  | [] => false
  | (u, v) :: E' =>
      reach E' x y
      || ((x =? u) || reach E' x u) && ((y =? v) || reach E' v y)
  end.

(** [nx.algorithms.cycles.find_cycle(G)]: [None] stands for the
    [NetworkXNoCycle] exception; the caller only observes whether the call
    raised, so a node of the cycle is returned instead of its edges. *)
Definition find_cycle (G : DiGraph) : option View :=
  find (fun v => reach (dg_edges G) v v) (dg_nodes G).

(** [conn E x y]: [x] and [y] are joined by edges of [E] taken in either
    direction (union-find style, one edge at a time). *)
Fixpoint conn (E : list Pair) (x y : View) : bool :=
  match E with
  | [] => x =? y
  | (u, v) :: E' =>
      conn E' x y
      || conn E' x u && conn E' v y
      || conn E' x v && conn E' u y
  end.

(** Number of classes of [conn E] among [nodes]: a node is counted when no
    later node lies in its class. *)
Fixpoint count_components (E : list Pair) (nodes : list View) : nat :=
  match nodes with
  | [] => 0
  | v :: rest =>
      (if existsb (conn E v) rest then 0 else 1) + count_components E rest
  end.

(** [nx.number_connected_components(G)]. *)
Definition number_connected_components {A} (G : Graph A) : nat :=
  count_components (map fst (g_edges G)) (g_nodes G).

(** [nx.all_simple_paths(G, source, target, 2)] restricted to the paths
    with three nodes: the depth-first search visits the neighbours [w] of
    [source] in adjacency order and yields [source, w, target] when [target]
    is a neighbour of [w]. A simple path repeats no node, so there is none
    when [source] is [target]. Only the middle node is kept. *)
Definition two_hop_paths {A} (G : Graph A) (source target : View)
  : list View :=
  if source =? target then []
  else filter (fun w => negb (w =? source) && negb (w =? target)
                        && mem target (neighbors G w))
              (neighbors G source).

(** The call itself. networkx raises [NodeNotFound] for a source that is
    not a node of the graph. For a target that is not a node it tries
    [set(target)]; view identifiers are integers here ([View] is [nat]), on
    which that raises the [TypeError] that networkx turns into
    [NodeNotFound]. Identifiers that can be iterated, such as strings,
    whose elements networkx would take as the targets, are not covered. *)
Definition all_simple_paths_3 {A} (G : Graph A) (source target : View)
  : result (list View) :=
  if negb (mem source (g_nodes G)) then raise (NodeNotFound source)
  else if negb (mem target (g_nodes G)) then raise (NodeNotFound target)
  else ret (two_hop_paths G source target).

(** ** calibration.py: verify_view_tree (lines 17-32) *)

Definition verify_view_tree (view_tree : list Pair) : bool :=
  let G := fold_left dg_add_edge view_tree empty_digraph in
  let no_cycles_found :=
    match find_cycle G with
    | Some _ => false
    | None => true
    end in
  let is_connected := number_connected_components (to_undirected G) =? 1 in
  no_cycles_found && is_connected.

(** ** calibration.py: build_view_graph (lines 310-325)

    Only the ['timestamp'] field of a landmark entry is read. A view that is
    missing from the landmark store raises [KeyError]. *)

Record landmark_entry (P : Type) : Type := mkLandmarks {
  lm_landmarks : list P;
  lm_timestamp : list Timestamp
}.
Arguments mkLandmarks {P}.
Arguments lm_landmarks {P}.
Arguments lm_timestamp {P}.

Definition landmark_store (P : Type) : Type := dict View (landmark_entry P).

Definition get_landmarks {P} (landmarks : landmark_store P) (v : View)
  : result (landmark_entry P) :=
  from_option (KeyError_view v) (dict_get Nat.eqb landmarks v).

Fixpoint build_view_graph_loop {P} (landmarks : landmark_store P)
  (combos : list Pair) (G : Graph nat) : result (Graph nat) :=
  match combos with
  | [] => ret G
  | (view1, view2) :: combos' =>
      l1 <- get_landmarks landmarks view1 ;;
      l2 <- get_landmarks landmarks view2 ;;
      let t1 := lm_timestamp l1 in
      let t2 := lm_timestamp l2 in
      let inter := intersection t1 t2 in
      if 8 <? length inter
      then build_view_graph_loop landmarks combos'
             (g_add_edge G (view1, view2) (length inter))
      else build_view_graph_loop landmarks combos' G
  end.

Definition build_view_graph {P} (views : list View)
  (landmarks : landmark_store P) : result (Graph nat) :=
  let G := g_add_nodes_from (mkGraph [] []) views in
  build_view_graph_loop landmarks (combinations2 views) G.

(** ** Declarative graph notions the properties are stated with *)

Definition edge_rel (E : list Pair) : relation View :=
  fun a b => In (a, b) E.

(** A directed walk with at least one edge. *)
Definition walk (E : list Pair) : relation View :=
  clos_trans View (edge_rel E).

(** Joined by edges taken in either direction. *)
Definition connected (E : list Pair) : relation View :=
  clos_refl_sym_trans View (edge_rel E).

Definition has_directed_cycle (E : list Pair) : Prop :=
  exists v, walk E v v.

(** [v] occurs in some edge of [E]. *)
Definition endpoint (E : list Pair) (v : View) : Prop :=
  exists e, In e E /\ (v = fst e \/ v = snd e).

(** A view tree as section 3 of the specification describes it: directed
    edges that form a spanning arborescence of [views] rooted at [root].
    Every non-root view is the second element of exactly one edge, the root
    of none, and every edge starts at a view reached from the root. *)
Record spanning_tree (views : list View) (root : View) (T : list Pair)
  : Prop := mkSpanningTree {
  st_nonempty : T <> [];
  st_root : ~ In root (map snd T);
  st_parent : NoDup (map snd T);
  st_reach : forall e, In e T ->
             clos_refl_trans View (edge_rel T) root (fst e);
  st_span : forall v, In v views <-> endpoint T v
}.

(** The timestamps a store holds for a view, and the number of distinct
    timestamps two views share. *)
Definition timestamps_of {P} (landmarks : landmark_store P) (v : View)
  : list Timestamp :=
  match dict_get Nat.eqb landmarks v with
  | Some l => lm_timestamp l
  | None => []
  end.

Definition shared {P} (landmarks : landmark_store P) (u v : View) : nat :=
  length (intersection (timestamps_of landmarks u) (timestamps_of landmarks v)).

(** The test that decides whether the pair [c] of the enumeration puts an
    edge between [u] and [v]. *)
Definition adds_edge {P} (landmarks : landmark_store P) (u v : View)
  (c : Pair) : bool :=
  same_edge (u, v) c && (8 <? shared landmarks (fst c) (snd c)).

(** Edge lists that agree up to the direction of each edge. *)
Definition same_undirected (U D : list Pair) : Prop :=
  (forall k, In k U -> In k D) /\
  (forall e, In e D -> In e U \/ In (snd e, fst e) U).


(** ** Scalars and 3-D linear algebra

    The numeric code runs on NumPy floats. The engine is embedded over an
    arbitrary scalar structure: the operations the code uses and no law
    about them, so that every property of the engine below holds for any
    arithmetic, rounded or exact. [to_float32] is the [np.float32] read of
    lines 245-246, [slt_tenth] the test [x < 0.1] of line 285. *)
Record Scalar : Type := mkScalar {
  carrier :> Type;
  szero : carrier;
  sone : carrier;
  sadd : carrier -> carrier -> carrier;
  smul : carrier -> carrier -> carrier;
  sneg : carrier -> carrier;
  sdiv : carrier -> carrier -> carrier;
  sofnat : nat -> carrier;
  slt_tenth : carrier -> bool;
  to_float32 : carrier -> carrier
}.

Section LinearAlgebra.
Variable S : Scalar.

(** A 3-vector, also a (3,1) column and a row of an (N,3) array. *)
Record vec3 : Type := mkVec3 { vx : S; vy : S; vz : S }.

(** A 3x3 array, by rows. *)
Record mat3 : Type := mkMat3 { row0 : vec3; row1 : vec3; row2 : vec3 }.

Definition vec_map (f : S -> S) (v : vec3) : vec3 :=
  mkVec3 (f (vx v)) (f (vy v)) (f (vz v)).

Definition mat_map (f : S -> S) (M : mat3) : mat3 :=
  mkMat3 (vec_map f (row0 M)) (vec_map f (row1 M)) (vec_map f (row2 M)).

(** [np.eye(3)] and [np.zeros((3,1))]. *)
Definition eye3 : mat3 :=
  mkMat3 (mkVec3 (sone S) (szero S) (szero S))
         (mkVec3 (szero S) (sone S) (szero S))
         (mkVec3 (szero S) (szero S) (sone S)).

Definition zeros3 : vec3 := mkVec3 (szero S) (szero S) (szero S).

Definition dot3 (a b : vec3) : S :=
  sadd S (sadd S (smul S (vx a) (vx b)) (smul S (vy a) (vy b)))
         (smul S (vz a) (vz b)).

Definition col0 (M : mat3) : vec3 :=
  mkVec3 (vx (row0 M)) (vx (row1 M)) (vx (row2 M)).
Definition col1 (M : mat3) : vec3 :=
  mkVec3 (vy (row0 M)) (vy (row1 M)) (vy (row2 M)).
Definition col2 (M : mat3) : vec3 :=
  mkVec3 (vz (row0 M)) (vz (row1 M)) (vz (row2 M)).

(** [M.T] *)
Definition transpose (M : mat3) : mat3 := mkMat3 (col0 M) (col1 M) (col2 M).

(** [np.dot(M, v)] for a column [v]. *)
Definition mat_vec (M : mat3) (v : vec3) : vec3 :=
  mkVec3 (dot3 (row0 M) v) (dot3 (row1 M) v) (dot3 (row2 M) v).

(** [np.dot(A, B)] *)
Definition mat_mul (A B : mat3) : mat3 :=
  let row r := mkVec3 (dot3 r (col0 B)) (dot3 r (col1 B)) (dot3 r (col2 B)) in
  mkMat3 (row (row0 A)) (row (row1 A)) (row (row2 A)).

Definition vec_add (a b : vec3) : vec3 :=
  mkVec3 (sadd S (vx a) (vx b)) (sadd S (vy a) (vy b)) (sadd S (vz a) (vz b)).

(** [s * v] and [v * s] *)
Definition scale_vec (s : S) (v : vec3) : vec3 := vec_map (smul S s) v.
Definition vec_scale (v : vec3) (s : S) : vec3 :=
  vec_map (fun x => smul S x s) v.

(** [-M] *)
Definition mat_neg (M : mat3) : mat3 := mat_map (sneg S) M.

(** utils.py, lines 119-122. *)
Definition invert_Rt (R : mat3) (t : vec3) : mat3 * vec3 :=
  let Ri := transpose R in
  let ti := mat_vec (mat_neg Ri) t in
  (Ri, ti).

(** [np.mean(xs, 0)] of a non-empty list: the sum of the entries divided
    by their number. *)
Definition mean_scalars (xs : list S) : S :=
  match xs with
  | [] => sdiv S (szero S) (sofnat S 0)
  | x :: xs' => sdiv S (fold_left (sadd S) xs' x) (sofnat S (length xs))
  end.

Definition mean_vec3 (vs : list vec3) : vec3 :=
  mkVec3 (mean_scalars (map vx vs)) (mean_scalars (map vy vs))
         (mean_scalars (map vz vs)).

Definition mean_mat3 (Ms : list mat3) : mat3 :=
  mkMat3 (mean_vec3 (map row0 Ms)) (mean_vec3 (map row1 Ms))
         (mean_vec3 (map row2 Ms)).
End LinearAlgebra.

Arguments mkVec3 {S}.
Arguments vx {S}.
Arguments vy {S}.
Arguments vz {S}.
Arguments mkMat3 {S}.
Arguments row0 {S}.
Arguments row1 {S}.
Arguments row2 {S}.
Arguments vec_map {S}.
Arguments mat_map {S}.
Arguments eye3 {S}.
Arguments zeros3 {S}.
Arguments dot3 {S}.
Arguments transpose {S}.
Arguments mat_vec {S}.
Arguments mat_mul {S}.
Arguments vec_add {S}.
Arguments scale_vec {S}.
Arguments vec_scale {S}.
Arguments mat_neg {S}.
Arguments invert_Rt {S}.
Arguments mean_scalars {S}.
Arguments mean_vec3 {S}.
Arguments mean_mat3 {S}.

(** ** calibration.py: concatenate_relative_poses (lines 199-308) *)

(** The outcome of a loop that is run with a bound on its passes. *)
Inductive outcome (A : Type) : Type :=
| Returned (a : A)
| Raised (e : exn)
| OutOfFuel.
Arguments Returned {A}.
Arguments Raised {A}.
Arguments OutOfFuel {A}.

Definition of_result {A} (r : result A) : outcome A :=
  match r with
  | inl e => Raised e
  | inr a => Returned a
  end.

(** What the function prints whatever [verbose] is. The prints that
    [verbose] switches on carry no state and are left out. *)
Inductive notice : Type :=
| LowScaleWarning (pair : Pair)
| NoOtherWay (view1 view2 : View).

Section Concatenate.
Variable S : Scalar.

(** An entry of [relative_poses]. *)
Record relative_pose : Type := mkRelativePose {
  rp_F : mat3 S;
  rp_Rd : mat3 S;
  rp_td : vec3 S;
  rp_triang_points : list (vec3 S);
  rp_timestamps : list Timestamp
}.

(** An entry of [poses]; [relative_scale_std] is [None] for the seed
    pair. *)
Record pose : Type := mkPose {
  pose_R : mat3 S;
  pose_t : vec3 S;
  relative_scale : S;
  relative_scale_std : option S
}.

(** An entry of [triang_points]. *)
Record triang_entry : Type := mkTriang {
  te_triang_points : list (vec3 S);
  te_timestamps : list Timestamp
}.

(** The two dictionaries the loop grows. *)
Record state : Type := mkState {
  poses : dict View pose;
  triang_points : dict Pair triang_entry
}.

(** The scale estimators of point_set_registration.py, which the engine
    treats as collaborators; they are embedded over the reals further
    down. *)
Variable estimate_scale_point_sets :
  list (vec3 S) -> list (vec3 S) -> result (S * S).
Variable procrustes_registration :
  list (vec3 S) -> list (vec3 S) -> result (S * mat3 S * vec3 S * S).

(** Lines 212-222. The loop keeps going after a key that holds
    [pair[0]] and stops at the first key that holds [pair[1]] only. *)
Fixpoint find_adjacent_pair_loop (keys : list Pair) (pair : Pair)
  (adj_pair : option Pair) : option Pair * bool :=
  match keys with
  | [] => (adj_pair, false)
  | key :: keys' =>
      if in_pair (fst pair) key
      then find_adjacent_pair_loop keys' pair (Some key)
      else if in_pair (snd pair) key
           then (Some key, true)
           else find_adjacent_pair_loop keys' pair adj_pair
  end.

Definition find_adjacent_pair (tp : dict Pair triang_entry) (pair : Pair)
  : option Pair * bool :=
  find_adjacent_pair_loop (dict_keys tp) pair None.

(** [np.array([p3d[idx.index(i)] for i in idx_common])] *)
Fixpoint gather (p3d : list (vec3 S)) (idx : list Timestamp)
  (idx_common : list Timestamp) : result (list (vec3 S)) :=
  match idx_common with
  | [] => ret []
  | i :: rest =>
      n <- from_option (ValueError "is not in list") (index_of idx i) ;;
      p <- from_option IndexError (nth_error p3d n) ;;
      ps <- gather p3d idx rest ;;
      ret (p :: ps)
  end.

(** Lines 267-274. *)
Definition estimate_scale (method : string)
  (p3d_com p3d_adj_com : list (vec3 S)) : result (S * S) :=
  if String.eqb method "cross-ratios" then
    estimate_scale_point_sets p3d_com p3d_adj_com
  else if String.eqb method "procrustes" then
    '(relative_scale, _, _, _) <-
       procrustes_registration p3d_com p3d_adj_com ;;
    '(_, relative_scale_std) <-
       estimate_scale_point_sets p3d_com p3d_adj_com ;;
    ret (relative_scale, relative_scale_std)
  else raise (ValueError ("Unrecognized method '" ++ method ++ "'")).

(** Lines 239-242. *)
Definition first_view (curr_pair : Pair) (inverse : bool) : View :=
  if inverse then snd curr_pair else fst curr_pair.
Definition second_view (curr_pair : Pair) (inverse : bool) : View :=
  if inverse then fst curr_pair else snd curr_pair.

(** Lines 249-252: the relative pose of the current pair, inverted when
    the adjacency was found through its second view. *)
Definition edge_pose (rp : relative_pose) (inverse : bool)
  : mat3 S * vec3 S :=
  if inverse then invert_Rt (rp_Rd rp) (rp_td rp)
  else (rp_Rd rp, rp_td rp).

(** Lines 276-300 for a given scale: the new pose, the points moved to
    the global frame, and the two dictionary writes. *)
Definition place (st : state) (curr_pair : Pair) (inverse : bool)
  (R1 : mat3 S) (t1 : vec3 S) (rp : relative_pose)
  (relative_scale relative_scale_std : S) : state :=
  let (Rd, td) := edge_pose rp inverse in
  let R2 := mat_mul Rd R1 in
  let t2 := vec_add (mat_vec Rd t1) (scale_vec relative_scale td) in
  let (R_inv, t_inv) :=
    if inverse then invert_Rt R2 t2 else invert_Rt R1 t1 in
  let p3d :=
    map (fun p => vec_add (mat_vec R_inv (vec_scale p relative_scale)) t_inv)
        (rp_triang_points rp) in
  {| poses := dict_set Nat.eqb (poses st) (second_view curr_pair inverse)
                (mkPose R2 t2 relative_scale (Some relative_scale_std));
     triang_points := dict_set pair_eqb (triang_points st) curr_pair
                        (mkTriang p3d (rp_timestamps rp)) |}.

(** Lines 239-300: the body of the inner loop once an adjacent pair was
    found. *)
Definition resolve_pair (method : string)
  (relative_poses : dict Pair relative_pose) (st : state)
  (curr_pair adj_pair : Pair) (inverse : bool)
  : result (state * list notice) :=
  p1 <- from_option (KeyError_view (first_view curr_pair inverse))
          (dict_get Nat.eqb (poses st) (first_view curr_pair inverse)) ;;
  let R1 := mat_map (to_float32 S) (pose_R p1) in
  let t1 := vec_map (to_float32 S) (pose_t p1) in
  rp <- from_option (KeyError_pair curr_pair)
          (dict_get pair_eqb relative_poses curr_pair) ;;
  adj <- from_option (KeyError_pair adj_pair)
           (dict_get pair_eqb (triang_points st) adj_pair) ;;
  let p3d_adj := te_triang_points adj in
  let idx_adj := te_timestamps adj in
  let p3d := rp_triang_points rp in
  let idx := rp_timestamps rp in
  let idx_common := intersection idx_adj idx in
  p3d_adj_com <- gather p3d_adj idx_adj idx_common ;;
  p3d_com <- gather p3d idx idx_common ;;
  '(relative_scale, relative_scale_std) <-
     estimate_scale method p3d_com p3d_adj_com ;;
  let warning :=
    if slt_tenth S relative_scale then [LowScaleWarning curr_pair] else [] in
  ret (place st curr_pair inverse R1 t1 rp relative_scale relative_scale_std,
       warning).

(** Lines 228-300: one pass over the work-list. *)
Fixpoint run_pass (method : string)
  (relative_poses : dict Pair relative_pose) (pairs : list Pair)
  (st : state) (unmatched_pairs : list Pair) (log : list notice)
  : result (state * list Pair * list notice) :=
  match pairs with
  | [] => ret (st, unmatched_pairs, log)
  | curr_pair :: pairs' =>
      match find_adjacent_pair (triang_points st) curr_pair with
      | (None, _) =>
          let unmatched_pairs' :=
            if existsb (pair_eqb curr_pair) unmatched_pairs
            then unmatched_pairs
            else unmatched_pairs ++ [curr_pair] in
          run_pass method relative_poses pairs' st unmatched_pairs' log
      | (Some adj_pair, inverse) =>
          '(st', warning) <-
             resolve_pair method relative_poses st curr_pair adj_pair
                          inverse ;;
          run_pass method relative_poses pairs' st' unmatched_pairs
                   (log ++ warning)
      end
  end.

(** Lines 226-306: the while loop, one unit of [fuel] per pass. *)
Fixpoint concatenate_loop (fuel : nat) (method : string)
  (relative_poses : dict Pair relative_pose) (pairs : list Pair)
  (st : state) (log : list notice) : outcome (state * list notice) :=
  match pairs with
  | [] => Returned (st, log)
  | _ :: _ =>
      match fuel with
      | 0 => OutOfFuel
      | Datatypes.S fuel' =>
          match run_pass method relative_poses pairs st [] log with
          | inl e => Raised e
          | inr (st', unmatched_pairs, log') =>
              if length pairs =? length unmatched_pairs
              then Raised (RuntimeError unmatched_pairs)
              else concatenate_loop fuel' method relative_poses
                     unmatched_pairs st' log'
          end
      end
  end.

(** Lines 203-210: the seed. *)
Definition initial_state (pair0 : Pair) (rp0 : relative_pose) : state :=
  {| poses :=
       dict_set Nat.eqb
         (dict_set Nat.eqb [] (fst pair0)
            (mkPose eye3 zeros3 (sone S) None))
         (snd pair0)
         (mkPose (rp_Rd rp0) (rp_td rp0) (sone S) None);
     triang_points :=
       [(pair0, mkTriang (rp_triang_points rp0) (rp_timestamps rp0))] |}.

Definition concatenate_relative_poses (minimal_tree : list Pair)
  (relative_poses : dict Pair relative_pose) (method : string)
  : outcome (state * list notice) :=
  match minimal_tree with
  | [] => Raised IndexError
  | pair0 :: pairs =>
      match dict_get pair_eqb relative_poses pair0 with
      | None => Raised (KeyError_pair pair0)
      | Some rp0 =>
          concatenate_loop (length minimal_tree) method relative_poses
            pairs (initial_state pair0 rp0) []
      end
  end.
End Concatenate.

Arguments mkRelativePose {S}.
Arguments rp_F {S}.
Arguments rp_Rd {S}.
Arguments rp_td {S}.
Arguments rp_triang_points {S}.
Arguments rp_timestamps {S}.
Arguments mkPose {S}.
Arguments pose_R {S}.
Arguments pose_t {S}.
Arguments relative_scale {S}.
Arguments relative_scale_std {S}.
Arguments mkTriang {S}.
Arguments te_triang_points {S}.
Arguments te_timestamps {S}.
Arguments mkState {S}.
Arguments poses {S}.
Arguments triang_points {S}.
Arguments find_adjacent_pair_loop keys pair adj_pair : clear implicits.
Arguments find_adjacent_pair {S}.
Arguments gather {S}.
Arguments edge_pose {S}.
Arguments place {S}.
Arguments initial_state {S}.

(** The reading of C3 in which the points are moved by the inverse of the
    pose of the anchor, the view that was already placed. *)
Definition through_inverse_of_anchor {S : Scalar} (anchor : pose S) (s : S)
  (pts : list (vec3 S)) : list (vec3 S) :=
  let R1 := mat_map (to_float32 S) (pose_R anchor) in
  let t1 := vec_map (to_float32 S) (pose_t anchor) in
  let inv := invert_Rt R1 t1 in
  map (fun p => vec_add (mat_vec (fst inv) (vec_scale p s)) (snd inv)) pts.

(** The reading of C4 in which every completed pass over a non-empty
    work-list either resolves a pair that was not resolved before or makes
    line 302 raise. *)
Definition pass_resolves_or_raises {S : Scalar}
  (est : list (vec3 S) -> list (vec3 S) -> result (S * S))
  (proc : list (vec3 S) -> list (vec3 S) -> result (S * mat3 S * vec3 S * S))
  (method : string) (relative_poses : dict Pair (relative_pose S))
  (pairs : list Pair) (st : state S) : Prop :=
  match run_pass S est proc method relative_poses pairs st [] [] with
  | inl _ => True
  | inr (st', unmatched_pairs, _) =>
      (exists e, In e pairs /\
                 In e (dict_keys (triang_points st')) /\
                 ~ In e (dict_keys (triang_points st)))
      \/ length pairs = length unmatched_pairs
  end.

(** The seed of line 204-210 is still in place: the root has the identity
    pose, the second view of the first pair has the pose of that pair, both
    with scale 1, and the first entry of [triang_points] holds the points
    of the first pair as they were given. *)
Definition seed_kept {S : Scalar} (pair0 : Pair) (rp0 : relative_pose S)
  (st : state S) : Prop :=
  dict_get Nat.eqb (poses st) (fst pair0)
    = Some (mkPose eye3 zeros3 (sone S) None) /\
  dict_get Nat.eqb (poses st) (snd pair0)
    = Some (mkPose (rp_Rd rp0) (rp_td rp0) (sone S) None) /\
  hd_error (triang_points st)
    = Some (pair0, mkTriang (rp_triang_points rp0) (rp_timestamps rp0)).

(** What the loop maintains on an arborescence [T] rooted at [v0]: the
    resolved pairs are edges of [T], none of them is still pending, each
    starts at the root or at the end of another resolved pair, and the
    pending pairs are distinct edges of [T]. *)
Definition tree_inv {S : Scalar} (T : list Pair) (v0 : View)
  (st : state S) (pending : list Pair) : Prop :=
  let keys := dict_keys (triang_points st) in
  (forall k, In k keys -> In k T) /\
  (forall k, In k keys -> ~ In k pending) /\
  (forall k, In k keys -> fst k = v0 \/ exists p, In (p, fst k) keys) /\
  NoDup pending /\
  incl pending T.

(** A step of the inner loop: the pair it resolves, the adjacent pair and
    the direction that [find_adjacent_pair] gave for it, the state after
    the two writes of lines 295-300, and what the step printed. *)
Record step (S : Scalar) : Type := mkStep {
  step_pair : Pair;
  step_adj : Pair;
  step_inverse : bool;
  step_state : state S;
  step_warning : list notice
}.
Arguments mkStep {S}.
Arguments step_pair {S}.
Arguments step_adj {S}.
Arguments step_inverse {S}.
Arguments step_state {S}.
Arguments step_warning {S}.

(** The loop takes the step [k] from the state [st]: line 233 finds the
    adjacent pair, lines 239-300 run to their end. *)
Definition takes_step {S : Scalar}
  (est : list (vec3 S) -> list (vec3 S) -> result (S * S))
  (proc : list (vec3 S) -> list (vec3 S) -> result (S * mat3 S * vec3 S * S))
  (method : string) (relative_poses : dict Pair (relative_pose S))
  (st : state S) (k : step S) : Prop :=
  find_adjacent_pair (triang_points st) (step_pair k)
    = (Some (step_adj k), step_inverse k) /\
  resolve_pair S est proc method relative_poses st (step_pair k)
               (step_adj k) (step_inverse k)
    = inr (step_state k, step_warning k).

(** A run from [st] to [st_final] through the listed steps: each step
    satisfies [P] with the state that the step before it left. *)
Fixpoint run_of {S : Scalar} (P : state S -> step S -> Prop)
  (st : state S) (steps : list (step S)) (st_final : state S) : Prop :=
  match steps with
  | [] => st_final = st
  | k :: more => P st k /\ run_of P (step_state k) more st_final
  end.

(** The reading of C2 in which the new pose is composed with the pose of
    the anchor as [poses] stores it. *)
Definition composed_with_stored_anchor {S : Scalar} (anchor : pose S)
  (rp : relative_pose S) (inverse : bool) (s : S) : mat3 S * vec3 S :=
  let (Rd, td) := edge_pose rp inverse in
  (mat_mul Rd (pose_R anchor),
   vec_add (mat_vec Rd (pose_t anchor)) (scale_vec s td)).

(** ** calibration.py: the robust pairwise estimator (lines 34-46, 101-127
    and 339-405)

    [twoview_geometry] and [singleview_geometry] are not part of the
    sources at hand. Their functions are the fields of an interface; each
    may raise, and each stands for one run of the routine on its arguments.
    [P] is the type of an image point. *)
Record Geometry (S : Scalar) (P : Type) : Type := mkGeometry {
  compute_relative_pose :
    list P -> list P -> mat3 S -> list S -> mat3 S -> list S -> string -> S ->
    result (mat3 S * vec3 S * mat3 S * list P * list P * list (vec3 S));
  undistort_points : list P -> mat3 S -> list S -> result (list P);
  fundamental_from_relative_pose :
    mat3 S -> vec3 S -> mat3 S -> mat3 S -> result (mat3 S);
  triangulate :
    list P -> list P -> mat3 S -> mat3 S -> vec3 S ->
    mat3 S -> mat3 S -> vec3 S -> result (list (vec3 S));
  residual_error : list P -> list P -> mat3 S -> result S;
  sampson_distance : list P -> list P -> mat3 S -> result S
}.
Arguments compute_relative_pose {S P}.
Arguments undistort_points {S P}.
Arguments fundamental_from_relative_pose {S P}.
Arguments triangulate {S P}.
Arguments residual_error {S P}.
Arguments sampson_distance {S P}.

(** [intrinsics[view]]: the fields ['K'] and ['dist']. *)
Record intrinsics_entry (S : Scalar) : Type := mkIntrinsics {
  intr_K : mat3 S;
  intr_dist : list S
}.
Arguments mkIntrinsics {S}.
Arguments intr_K {S}.
Arguments intr_dist {S}.

(** Sequencing for computations that may also run out of fuel. *)
Definition obind {A B} (m : outcome A) (k : A -> outcome B) : outcome B :=
  match m with
  | Returned a => k a
  | Raised e => Raised e
  | OutOfFuel => OutOfFuel
  end.

Notation "x <~ m ;; k" := (obind m (fun x => k))
  (at level 61, m at next level, right associativity).
Notation "' pat <~ m ;; k" := (obind m (fun x => match x with pat => k end))
  (at level 61, pat pattern, m at next level, right associativity).

(** [np.vstack] of a list of rows: an empty list is an error. *)
Definition vstack {A} (rows : list A) : result (list A) :=
  match rows with
  | [] => raise (ValueError "need at least one array to concatenate")
  | _ :: _ => ret rows
  end.

(** [[xs[idx.index(i)] for i in common]] *)
Fixpoint rows_at {A} (xs : list A) (idx common : list Timestamp)
  : result (list A) :=
  match common with
  | [] => ret []
  | i :: rest =>
      n <- from_option (ValueError "is not in list") (index_of idx i) ;;
      p <- from_option IndexError (nth_error xs n) ;;
      ps <- rows_at xs idx rest ;;
      ret (p :: ps)
  end.

(** Lines 34-46. *)
Definition _common_landmarks {P} (view1 view2 : View)
  (landmarks : landmark_store P)
  : result (list P * list P * list Timestamp) :=
  l1 <- get_landmarks landmarks view1 ;;
  l2 <- get_landmarks landmarks view2 ;;
  let idxs_common := intersection (lm_timestamp l1) (lm_timestamp l2) in
  rows1 <- rows_at (lm_landmarks l1) (lm_timestamp l1) idxs_common ;;
  pts1 <- vstack rows1 ;;
  rows2 <- rows_at (lm_landmarks l2) (lm_timestamp l2) idxs_common ;;
  pts2 <- vstack rows2 ;;
  ret (pts1, pts2, idxs_common).

(** [lst[:n]] for a Python integer [n]. *)
Definition slice_to {A} (n : Z) (l : list A) : list A :=
  if (0 <=? n)%Z then firstn (Z.to_nat n) l
  else firstn (length l - Z.to_nat (- n)) l.

Section Robust.
Variable S : Scalar.
Variable P : Type.
Variable geo : Geometry S P.
Variable estimate_scale_point_sets :
  list (vec3 S) -> list (vec3 S) -> result (S * S).
Variable procrustes_registration :
  list (vec3 S) -> list (vec3 S) -> result (S * mat3 S * vec3 S * S).

Definition get_intrinsics (intrinsics : dict View (intrinsics_entry S))
  (v : View) : result (intrinsics_entry S) :=
  from_option (KeyError_view v) (dict_get Nat.eqb intrinsics v).

(** Lines 90-99. The function prints; with [verbose > 0] it calls the two
    error measures, which may raise. *)
Definition _print_relative_pose_info (F Rd : mat3 S) (td : vec3 S)
  (pts1_undist pts2_undist : list P) (verbose : Z) : result unit :=
  if (0 <? verbose)%Z then
    _ <- residual_error geo pts1_undist pts2_undist F ;;
    _ <- sampson_distance geo pts1_undist pts2_undist F ;;
    ret tt
  else ret tt.

(** Lines 101-127. *)
Fixpoint compute_relative_poses_loop (view_tree : list Pair)
  (intrinsics : dict View (intrinsics_entry S))
  (landmarks : landmark_store P) (method : string) (th : S) (verbose : Z)
  (relative_poses : dict Pair (relative_pose S))
  : result (dict Pair (relative_pose S)) :=
  match view_tree with
  | [] => ret relative_poses
  | (view1, view2) :: view_tree' =>
      '(pts1, pts2, idxs_common) <-
         _common_landmarks view1 view2 landmarks ;;
      i1 <- get_intrinsics intrinsics view1 ;;
      i2 <- get_intrinsics intrinsics view2 ;;
      '(Rd, td, F, pts1_undist, pts2_undist, tri) <-
         compute_relative_pose geo pts1 pts2 (intr_K i1) (intr_dist i1)
           (intr_K i2) (intr_dist i2) method th ;;
      _ <- _print_relative_pose_info F Rd td pts1_undist pts2_undist
             verbose ;;
      compute_relative_poses_loop view_tree' intrinsics landmarks method th
        verbose
        (dict_set pair_eqb relative_poses (view1, view2)
           (mkRelativePose F Rd td tri idxs_common))
  end.

Definition compute_relative_poses (view_tree : list Pair)
  (intrinsics : dict View (intrinsics_entry S))
  (landmarks : landmark_store P) (method : string) (th : S) (verbose : Z)
  : result (dict Pair (relative_pose S)) :=
  compute_relative_poses_loop view_tree intrinsics landmarks method th
    verbose [].

(** Lines 366-375: the estimate of [(view1, view2)] along the path through
    [w], that is the pose of [view2] after concatenating the two pairs of
    the path, together with what the concatenation printed. *)
Definition path_estimate (intrinsics : dict View (intrinsics_entry S))
  (landmarks : landmark_store P) (method : string) (th : S)
  (method_scale : string) (verbose : Z) (view1 view2 w : View)
  : outcome (mat3 S * vec3 S * list notice) :=
  let view_tree := [(view1, w); (w, view2)] in
  _relative_pose <~ of_result
    (compute_relative_poses view_tree intrinsics landmarks method th
       verbose) ;;
  '(st, log) <~ concatenate_relative_poses S estimate_scale_point_sets
                  procrustes_registration view_tree _relative_pose
                  method_scale ;;
  p <~ of_result (from_option (KeyError_view view2)
                    (dict_get Nat.eqb (poses st) view2)) ;;
  Returned (pose_R p, pose_t p, log).

(** The loop of lines 366-375 over the triangles. *)
Fixpoint path_estimates (intrinsics : dict View (intrinsics_entry S))
  (landmarks : landmark_store P) (method : string) (th : S)
  (method_scale : string) (verbose : Z) (view1 view2 : View)
  (triangles : list View)
  : outcome (list (mat3 S * vec3 S) * list notice) :=
  match triangles with
  | [] => Returned ([], [])
  | w :: triangles' =>
      '(R, t, log) <~ path_estimate intrinsics landmarks method th
                        method_scale verbose view1 view2 w ;;
      '(ests, logs) <~ path_estimates intrinsics landmarks method th
                         method_scale verbose view1 view2 triangles' ;;
      Returned ((R, t) :: ests, log ++ logs)
  end.

(** Lines 347-401: the body of the loop for one pair of the view tree. *)
Definition robust_pair (G : Graph nat)
  (intrinsics : dict View (intrinsics_entry S))
  (landmarks : landmark_store P) (method : string) (th : S)
  (max_paths : Z) (method_scale : string) (verbose : Z)
  (view1 view2 : View) : outcome (relative_pose S * list notice) :=
  relative_pose <~ of_result
    (compute_relative_poses [(view1, view2)] intrinsics landmarks method th
       verbose) ;;
  paths <~ of_result (all_simple_paths_3 G view1 view2) ;;
  let triangles := slice_to max_paths paths in
  let notice :=
    if length triangles =? 0 then [NoOtherWay view1 view2] else [] in
  direct <~ of_result (from_option (KeyError_pair (view1, view2))
                         (dict_get pair_eqb relative_pose (view1, view2))) ;;
  '(ests, logs) <~ path_estimates intrinsics landmarks method th
                     method_scale verbose view1 view2 triangles ;;
  let Rd := mean_mat3 (rp_Rd direct :: map fst ests) in
  let td := mean_vec3 (rp_td direct :: map snd ests) in
  '(pts1, pts2, idxs_common) <~
     of_result (_common_landmarks view1 view2 landmarks) ;;
  i1 <~ of_result (get_intrinsics intrinsics view1) ;;
  i2 <~ of_result (get_intrinsics intrinsics view2) ;;
  pts1_undist <~ of_result
    (undistort_points geo pts1 (intr_K i1) (intr_dist i1)) ;;
  pts2_undist <~ of_result
    (undistort_points geo pts2 (intr_K i2) (intr_dist i2)) ;;
  F <~ of_result
    (fundamental_from_relative_pose geo Rd td (intr_K i1) (intr_K i2)) ;;
  tri <~ of_result
    (triangulate geo pts1_undist pts2_undist (intr_K i1) eye3 zeros3
       (intr_K i2) Rd td) ;;
  _ <~ of_result
    (_print_relative_pose_info F Rd td pts1_undist pts2_undist verbose) ;;
  Returned (mkRelativePose F Rd td tri idxs_common, notice ++ logs).

Fixpoint compute_relative_poses_robust_loop (G : Graph nat)
  (view_tree : list Pair) (intrinsics : dict View (intrinsics_entry S))
  (landmarks : landmark_store P) (method : string) (th : S)
  (max_paths : Z) (method_scale : string) (verbose : Z)
  (relative_poses : dict Pair (relative_pose S)) (log : list notice)
  : outcome (dict Pair (relative_pose S) * list notice) :=
  match view_tree with
  | [] => Returned (relative_poses, log)
  | (view1, view2) :: view_tree' =>
      '(rp, notices) <~ robust_pair G intrinsics landmarks method th
                          max_paths method_scale verbose view1 view2 ;;
      compute_relative_poses_robust_loop G view_tree' intrinsics landmarks
        method th max_paths method_scale verbose
        (dict_set pair_eqb relative_poses (view1, view2) rp)
        (log ++ notices)
  end.

(** Lines 339-405. *)
Definition compute_relative_poses_robust (views : list View)
  (view_tree : list Pair) (intrinsics : dict View (intrinsics_entry S))
  (landmarks : landmark_store P) (method : string) (th : S)
  (max_paths : Z) (method_scale : string) (verbose : Z)
  : outcome (dict Pair (relative_pose S) * list notice) :=
  G <~ of_result (build_view_graph views landmarks) ;;
  compute_relative_poses_robust_loop G view_tree intrinsics landmarks
    method th max_paths method_scale verbose [] [].
End Robust.

Arguments path_estimate {S P}.
Arguments robust_pair {S P}.
Arguments compute_relative_poses {S P}.
Arguments compute_relative_poses_robust {S P}.

(** ** Notions used by the further properties *)

(** The pair and the key have a view in common. *)
Definition shares_view (pair key : Pair) : bool :=
  in_pair (fst pair) key || in_pair (snd pair) key.

(** The key holds the second view of the pair and not the first. *)
Definition second_view_only (pair key : Pair) : bool :=
  negb (in_pair (fst pair) key) && in_pair (snd pair) key.

(** An exception other than the [RuntimeError] of line 303. *)
Definition not_runtime_error (e : exn) : Prop :=
  match e with
  | RuntimeError _ => False
  | _ => True
  end.

(** What the loop of [concatenate_relative_poses] keeps true of its two
    dictionaries: every resolved pair is a pair of the tree, its two views
    have a pose, and its entry has the timestamps and as many points as the
    relative pose of the pair; and every view with a pose belongs to a
    resolved pair. *)
Definition result_inv {S : Scalar} (tree : list Pair)
  (relative_poses : dict Pair (relative_pose S)) (st : state S) : Prop :=
  (forall key, In key (dict_keys (triang_points st)) ->
     In key tree /\
     dict_get Nat.eqb (poses st) (fst key) <> None /\
     dict_get Nat.eqb (poses st) (snd key) <> None /\
     exists rp entry,
       dict_get pair_eqb relative_poses key = Some rp /\
       dict_get pair_eqb (triang_points st) key = Some entry /\
       te_timestamps entry = rp_timestamps rp /\
       length (te_triang_points entry) = length (rp_triang_points rp)) /\
  (forall v, dict_get Nat.eqb (poses st) v <> None ->
     exists key, In key (dict_keys (triang_points st)) /\
                 in_pair v key = true).

(** What one turn of the loop of [compute_relative_poses] stores for a
    pair: the output of the relative-pose routine on the common landmarks
    of the two views, with the timestamps of those landmarks. *)
Definition pair_estimate {S : Scalar} {P : Type} (geo : Geometry S P)
  (intrinsics : dict View (intrinsics_entry S))
  (landmarks : landmark_store P) (method : string) (th : S)
  (view1 view2 : View) (rp : relative_pose S) : Prop :=
  exists pts1 pts2 i1 i2 pts1_undist pts2_undist,
    _common_landmarks view1 view2 landmarks
      = inr (pts1, pts2, rp_timestamps rp) /\
    dict_get Nat.eqb intrinsics view1 = Some i1 /\
    dict_get Nat.eqb intrinsics view2 = Some i2 /\
    compute_relative_pose geo pts1 pts2 (intr_K i1) (intr_dist i1)
      (intr_K i2) (intr_dist i2) method th
    = inr (rp_Rd rp, rp_td rp, rp_F rp, pts1_undist, pts2_undist,
           rp_triang_points rp).

(** ** utils.py: indexes (lines 124-125)

    [[i for i, x in enumerate(_list) if x == value]], for a list of
    numbers. *)
Fixpoint indexes_from (start : nat) (_list : list nat) (value : nat)
  : list nat :=
  match _list with
  | [] => []
  | x :: rest =>
      if x =? value then start :: indexes_from (S start) rest value
      else indexes_from (S start) rest value
  end.

Definition indexes (_list : list nat) (value : nat) : list nat :=
  indexes_from 0 _list value.

(** The exceptions that a step of [concatenate_relative_poses] can end
    with: an [IndexError] (a point list shorter than its timestamps), the
    [KeyError] of a pair of the tree that has no relative pose, the
    [ValueError] for the method, or whatever an estimator raised. *)
Definition step_error {S : Scalar}
  (est : list (vec3 S) -> list (vec3 S) -> result (S * S))
  (proc : list (vec3 S) -> list (vec3 S) -> result (S * mat3 S * vec3 S * S))
  (method : string) (tree : list Pair)
  (relative_poses : dict Pair (relative_pose S)) (e : exn) : Prop :=
  e = IndexError \/
  (exists p, e = KeyError_pair p /\ In p tree /\
             dict_get pair_eqb relative_poses p = None) \/
  e = ValueError ("Unrecognized method '" ++ method ++ "'") \/
  (exists a b, est a b = inl e \/ proc a b = inl e).

(** ** A concrete arithmetic for running the engine

    Exact rationals, with no rounding at the [np.float32] read. *)
Definition QScalar : Scalar :=
  {| carrier := Q;
     szero := 0%Q;
     sone := 1%Q;
     sadd := Qplus;
     smul := Qmult;
     sneg := Qopp;
     sdiv := Qdiv;
     sofnat := fun n => inject_Z (Z.of_nat n);
     slt_tenth := fun q => negb (Qle_bool (1 # 10) q);
     to_float32 := fun q => q |}.

(** Estimators that report a given scale with zero spread, as a test
    double does when a scale value is injected. The sample rigs below keep
    the common points of adjacent pairs congruent, so that the estimators of
    point_set_registration.py return scale 1 on them as well. *)
Definition reported_scale (s : Q) (src dst : list (vec3 QScalar))
  : result (Q * Q) :=
  ret (s, 0%Q).

Definition reported_procrustes (s : Q) (src dst : list (vec3 QScalar))
  : result (Q * mat3 QScalar * vec3 QScalar * Q) :=
  ret (s, @eye3 QScalar, @zeros3 QScalar, 0%Q).

Definition qvec (x y z : Z) : vec3 QScalar :=
  @mkVec3 QScalar (inject_Z x) (inject_Z y) (inject_Z z).

Definition qeye : mat3 QScalar := @eye3 QScalar.

(** A relative pose with identity rotation and zero fundamental matrix
    (the fundamental matrix is not read by the concatenation). *)
Definition translation_pose (td : vec3 QScalar)
  (pts : list (vec3 QScalar)) (ts : list Timestamp)
  : relative_pose QScalar :=
  @mkRelativePose QScalar (@mat_map QScalar (fun _ => 0%Q) qeye) qeye td pts ts.

Definition run_Q (s : Q) (minimal_tree : list Pair)
  (relative_poses : dict Pair (relative_pose QScalar))
  : outcome (state QScalar * list notice) :=
  concatenate_relative_poses QScalar (reported_scale s)
    (reported_procrustes s) minimal_tree relative_poses "cross-ratios".

(** Two landmarks seen by every pair of the sample rigs. *)
Definition sample_points : list (vec3 QScalar) :=
  [qvec 0 0 5; qvec 1 2 6].

Definition shift_points (d : vec3 QScalar) (pts : list (vec3 QScalar))
  : list (vec3 QScalar) :=
  map (fun p => vec_add p d) pts.

(** Rig A: views 0, 1, 2 on the x axis at 0, 1 and 2, all with identity
    rotation; a view at position c has global translation -c. The pair
    (2, 1) is directed towards the view that is placed first. *)
Definition rigA_tree : list Pair := [(0, 1); (2, 1)].

Definition rigA_poses : dict Pair (relative_pose QScalar) :=
  [((0, 1), translation_pose (qvec (-1) 0 0) sample_points [10; 11]);
   ((2, 1), translation_pose (qvec 1 0 0)
              (shift_points (qvec (-2) 0 0) sample_points) [10; 11])].

(** Rig B: the same three views with the edges 0->1, 1->2 and 0->2, which
    has no directed cycle and one component. The pair (0, 2) carries a
    translation that disagrees with the other two pairs, as a noisy estimate
    does. *)
Definition rigB_tree : list Pair := [(0, 1); (1, 2); (0, 2)].

Definition rigB_poses : dict Pair (relative_pose QScalar) :=
  [((0, 1), translation_pose (qvec (-1) 0 0) sample_points [10; 11]);
   ((1, 2), translation_pose (qvec (-1) 0 0)
              (shift_points (qvec (-1) 0 0) sample_points) [10; 11]);
   ((0, 2), translation_pose (qvec (-3) 0 0) sample_points [10; 11])].

(** Rig C: a chain 0 -> 1 -> 2, a spanning arborescence. *)
Definition rigC_tree : list Pair := [(0, 1); (1, 2)].

Definition rigC_poses : dict Pair (relative_pose QScalar) :=
  [((0, 1), translation_pose (qvec (-1) 0 0) sample_points [10; 11]);
   ((1, 2), translation_pose (qvec (-1) 0 0)
              (shift_points (qvec (-1) 0 0) sample_points) [10; 11])].

(** Rig D: the pair (5, 6) shares no view with the seed and is listed
    twice. *)
Definition rigD_tree : list Pair := [(0, 1); (5, 6); (5, 6)].

Definition rigD_poses : dict Pair (relative_pose QScalar) :=
  [((0, 1), translation_pose (qvec (-1) 0 0) sample_points [10; 11]);
   ((5, 6), translation_pose (qvec (-1) 0 0) sample_points [10; 11])].

(** A landmark store: views 0 and 1 share the nine timestamps 3..11,
    view 2 shares none with them. *)
Definition sample_store : landmark_store unit :=
  [(0, mkLandmarks [] (seq 0 12));
   (1, mkLandmarks [] (seq 3 12));
   (2, mkLandmarks [] (seq 100 5))].

(** The seed state of a rig, and one step of the inner loop on it. *)
Definition rig_seed (minimal_tree : list Pair)
  (relative_poses : dict Pair (relative_pose QScalar)) : state QScalar :=
  match minimal_tree with
  | [] => mkState [] []
  | pair0 :: _ =>
      match dict_get pair_eqb relative_poses pair0 with
      | Some rp0 => initial_state pair0 rp0
      | None => mkState [] []
      end
  end.

Definition step_Q (s : Q) (relative_poses : dict Pair (relative_pose QScalar))
  (st : state QScalar) (curr_pair adj_pair : Pair) (inverse : bool)
  : result (state QScalar * list notice) :=
  resolve_pair QScalar (reported_scale s) (reported_procrustes s)
    "cross-ratios" relative_poses st curr_pair adj_pair inverse.

Definition state_of (r : result (state QScalar * list notice))
  : state QScalar :=
  match r with
  | inr (st, _) => st
  | inl _ => mkState [] []
  end.

Definition final_state (o : outcome (state QScalar * list notice))
  : state QScalar :=
  match o with
  | Returned (st, _) => st
  | _ => mkState [] []
  end.

(** ** A stand-in for the geometry routines

    Image points are numbered. Camera [c] sits at position [c] on the x
    axis and carries [c] in the first entry of its matrix [K]. The relative
    pose routine returns the identity rotation and a translation read from
    the two matrices, with an error in the second component that grows with
    the product of the positions, as a noisy estimate would have. *)
Definition camera (c : Z) : intrinsics_entry QScalar :=
  mkIntrinsics
    (@mkMat3 QScalar (qvec c 0 0) (qvec 0 1 0) (qvec 0 0 1)) [].

Definition zero_matrix : mat3 QScalar :=
  @mat_map QScalar (fun _ => 0%Q) qeye.

Definition sample_relative_pose (pts1 pts2 : list nat)
  (K1 : mat3 QScalar) (dist1 : list Q) (K2 : mat3 QScalar) (dist2 : list Q)
  (method : string) (th : Q)
  : result (mat3 QScalar * vec3 QScalar * mat3 QScalar * list nat * list nat
            * list (vec3 QScalar)) :=
  let c1 : Q := vx (row0 K1) in
  let c2 : Q := vx (row0 K2) in
  ret (qeye, @mkVec3 QScalar (Qminus c1 c2) (Qmult c1 c2) 0%Q,
       zero_matrix, pts1, pts2,
       map (fun p => qvec (Z.of_nat p) 0 5) pts1).

Definition sample_geometry : Geometry QScalar nat :=
  @mkGeometry QScalar nat
    sample_relative_pose
    (fun pts _ _ => ret pts)
    (fun _ _ _ _ => ret zero_matrix)
    (fun pts1 _ _ _ _ _ _ _ =>
       ret (map (fun p => qvec (Z.of_nat p) 0 5) pts1))
    (fun _ _ _ => ret 0%Q)
    (fun _ _ _ => ret 0%Q).

Definition sample_intrinsics : dict View (intrinsics_entry QScalar) :=
  [(0, camera 0); (1, camera 1); (2, camera 2)].

(** Three views that see the same nine landmarks. *)
Definition triangle_store : landmark_store nat :=
  [(0, mkLandmarks (seq 0 9) (seq 0 9));
   (1, mkLandmarks (seq 0 9) (seq 0 9));
   (2, mkLandmarks (seq 0 9) (seq 0 9))].

Definition robust_Q (views : list View) (view_tree : list Pair)
  : outcome (dict Pair (relative_pose QScalar) * list notice) :=
  compute_relative_poses_robust sample_geometry (reported_scale 1)
    (reported_procrustes 1) views view_tree sample_intrinsics
    triangle_store "8point" 1%Q 5%Z "cross-ratios" 0%Z.

Definition robust_result
  (o : outcome (dict Pair (relative_pose QScalar) * list notice))
  : dict Pair (relative_pose QScalar) * list notice :=
  match o with
  | Returned x => x
  | _ => ([], [])
  end.

(** The results of the two sample runs, evaluated once. *)
Definition robust_triangle
  : dict Pair (relative_pose QScalar) * list notice :=
  Eval vm_compute in robust_result (robust_Q [0; 1; 2] [(0, 2)]).

Definition robust_two_views
  : dict Pair (relative_pose QScalar) * list notice :=
  Eval vm_compute in robust_result (robust_Q [0; 2] [(0, 2)]).

(** The relative poses of the chain 0 -> 1 -> 2 that the stand-in
    geometry gives on the three-view store. *)
Definition sample_relative_poses : dict Pair (relative_pose QScalar) :=
  Eval vm_compute in
    match compute_relative_poses sample_geometry [(0, 1); (1, 2)]
            sample_intrinsics triangle_store "8point" 1%Q 0%Z with
    | inr relative_poses => relative_poses
    | inl _ => []
    end.

(** The estimate of the pair (0, 2) along the path through view 1. *)
Definition sample_path_estimate
  : mat3 QScalar * vec3 QScalar * list notice :=
  Eval vm_compute in
    match path_estimate sample_geometry (reported_scale 1)
            (reported_procrustes 1) sample_intrinsics triangle_store
            "8point" 1%Q "cross-ratios" 0%Z 0 2 1 with
    | Returned x => x
    | _ => (qeye, qvec 0 0 0, [])
    end.

(** ** An arithmetic that rounds at the [np.float32] read

    Rationals again, with [to_float32] the rounding of a number to the
    nearest single-precision float: 24 significant bits, ties to the even
    significand, and the fixed spacing 2^-149 below 2^-126. Magnitudes of
    2^128 and above, which NumPy turns into [inf], are outside this
    instance. The double-precision operations are taken to be exact, which
    they are on the rig below. *)
Definition pow2 (e : Z) : Q :=
  if (0 <=? e)%Z then inject_Z (2 ^ e) else (1 # Z.to_pos (2 ^ (- e)))%Q.

(** The nearest integer, ties to even. *)
Definition round_half_even (q : Q) : Z :=
  let f := Qfloor q in
  match Qcompare (q - inject_Z f) (1 # 2) with
  | Lt => f
  | Gt => (f + 1)%Z
  | Eq => if Z.even f then f else (f + 1)%Z
  end.

(** The exponent [e] with [2^e <= |q| < 2^(e+1)], for [q] other than 0. *)
Definition binade (q : Q) : Z :=
  let e := (Z.log2 (Z.abs (Qnum q)) - Z.log2 (Zpos (Qden q)))%Z in
  if Qle_bool (pow2 e) (Qabs q) then e else (e - 1)%Z.

Definition round_float32 (q : Q) : Q :=
  if Qeq_bool q 0 then 0%Q
  else
    let ulp := pow2 (Z.max (binade q) (-126) - 23) in
    Qred (inject_Z (round_half_even (q / ulp)) * ulp).

Definition Float32Scalar : Scalar :=
  {| carrier := Q;
     szero := 0%Q;
     sone := 1%Q;
     sadd := Qplus;
     smul := Qmult;
     sneg := Qopp;
     sdiv := Qdiv;
     sofnat := fun n => inject_Z (Z.of_nat n);
     slt_tenth := fun q => negb (Qle_bool (1 # 10) q);
     to_float32 := round_float32 |}.

Definition reported_scale32 (s : Q) (src dst : list (vec3 Float32Scalar))
  : result (Q * Q) :=
  ret (s, 0%Q).

Definition reported_procrustes32 (s : Q)
  (src dst : list (vec3 Float32Scalar))
  : result (Q * mat3 Float32Scalar * vec3 Float32Scalar * Q) :=
  ret (s, @eye3 Float32Scalar, @zeros3 Float32Scalar, 0%Q).

Definition fvec (x y z : Q) : vec3 Float32Scalar :=
  @mkVec3 Float32Scalar x y z.

(** Rig F: the chain 0 -> 1 -> 2 with identity rotations. View 1 sits at
    translation 1 + 2^-30, a double that is not a single: it rounds to 1
    at the read of line 246. *)
Definition above_one : Q := (1073741825 # 1073741824)%Q.

Definition rigF_tree : list Pair := [(0, 1); (1, 2)].

Definition rigF_pose (td : vec3 Float32Scalar)
  : relative_pose Float32Scalar :=
  @mkRelativePose Float32Scalar
    (@mat_map Float32Scalar (fun _ => 0%Q) eye3) eye3 td
    [fvec 0 0 5; fvec 1 2 6] [10; 11].

Definition rigF_poses : dict Pair (relative_pose Float32Scalar) :=
  [((0, 1), rigF_pose (fvec above_one 0 0));
   ((1, 2), rigF_pose (fvec 1 0 0))].

Definition run_F (minimal_tree : list Pair)
  (relative_poses : dict Pair (relative_pose Float32Scalar))
  : outcome (state Float32Scalar * list notice) :=
  concatenate_relative_poses Float32Scalar (reported_scale32 1)
    (reported_procrustes32 1) minimal_tree relative_poses "cross-ratios".

Definition final_state32
  (o : outcome (state Float32Scalar * list notice))
  : state Float32Scalar :=
  match o with
  | Returned (st, _) => st
  | _ => mkState [] []
  end.

(** ** Exact arithmetic

    The functions of point_set_registration.py and [invert_Rt] are also
    read over the real numbers: every NumPy operation is taken without
    rounding and without overflow, and the inputs are finite. The two
    special values that a division by zero yields are kept apart from the
    numbers, because the code filters them. *)
Definition RScalar : Scalar :=
  {| carrier := R;
     szero := 0%R;
     sone := 1%R;
     sadd := Rplus;
     smul := Rmult;
     sneg := Ropp;
     sdiv := Rdiv;
     sofnat := INR;
     slt_tenth := fun x => if Rlt_dec x (1 / 10) then true else false;
     to_float32 := fun x => x |}.

Definition rvec : Type := vec3 RScalar.
Definition rmat : Type := mat3 RScalar.

Definition rv (x y z : R) : rvec := @mkVec3 RScalar x y z.

(** A rotation matrix: its transpose is its inverse. *)
Definition orthogonal (M : rmat) : Prop :=
  mat_mul (transpose M) M = eye3 /\ mat_mul M (transpose M) = eye3.

Definition vec_sub (a b : rvec) : rvec :=
  rv (vx a - vx b) (vy a - vy b) (vz a - vz b).

(** [np.linalg.norm] of a row. *)
Definition norm3 (v : rvec) : R :=
  sqrt (vx v * vx v + vy v * vy v + vz v * vz v).

(** [a.mean()] of a one-dimensional array; [None] is the [nan] that NumPy
    gives for an empty array. *)
Definition mean (xs : list R) : option R :=
  match xs with
  | [] => None
  | _ :: _ => Some (fold_right Rplus 0%R xs / INR (length xs))%R
  end.

(** ** point_set_registration.py: lines 12-16 *)

(** [X - Y] for two arrays of rows: equal lengths, or one array of a
    single row, which NumPy repeats; other shapes do not broadcast. *)
Definition broadcast_sub (X Y : list rvec) : result (list rvec) :=
  if length X =? length Y then
    ret (map (fun xy => vec_sub (fst xy) (snd xy)) (combine X Y))
  else match X, Y with
       | [x], _ => ret (map (fun y => vec_sub x y) Y)
       | _, [y] => ret (map (fun x => vec_sub x y) X)
       | _, _ =>
           raise (ValueError "operands could not be broadcast together")
       end.

Definition average_distance (X Y : list rvec) : result (option R) :=
  D <- broadcast_sub X Y ;;
  ret (mean (map norm3 D)).

(** [np.dot(X*scale, R.T) + t[None]], row by row. *)
Definition transform_row (M : rmat) (t : rvec) (scale : R) (x : rvec)
  : rvec :=
  let xs := @vec_scale RScalar x scale in
  @vec_add RScalar
    (rv (@dot3 RScalar xs (row0 M)) (@dot3 RScalar xs (row1 M))
        (@dot3 RScalar xs (row2 M)))
    t.

Definition apply_rigid_transform (X : list rvec) (M : rmat) (t : rvec)
  (scale : R) : list rvec :=
  map (transform_row M t scale) X.

(** ** point_set_registration.py: estimate_scale_point_sets (lines 18-29) *)

(** The value of [d2/d1] for two norms: a number, or one of the special
    values of a division by zero. *)
Inductive ratio : Type :=
| Finite (r : R)
| Infinite
| NotANumber.

Definition divide (d2 d1 : R) : ratio :=
  if Req_dec_T d1 0 then
    if Req_dec_T d2 0 then NotANumber else Infinite
  else Finite (d2 / d1).

(** [(~np.isnan(s)) & (~np.isinf(s)) & (s < max_est)] *)
Definition clean (max_est : R) (s : ratio) : list R :=
  match s with
  | Finite r => if Rlt_dec r max_est then [r] else []
  | Infinite => []
  | NotANumber => []
  end.

(** [a[i]] for an index array entry [i]. *)
Definition row_at (a : list rvec) (i : nat) : result rvec :=
  from_option IndexError (nth_error a i).

(** [np.linalg.norm(a[idx_pairs[:,0]] - a[idx_pairs[:,1]], axis=1)] *)
Fixpoint pair_distances (a : list rvec) (idx_pairs : list (nat * nat))
  : result (list R) :=
  match idx_pairs with
  | [] => ret []
  | (i, j) :: rest =>
      p <- row_at a i ;;
      q <- row_at a j ;;
      ds <- pair_distances a rest ;;
      ret (norm3 (vec_sub p q) :: ds)
  end.

(** Sorting, for the median. *)
Fixpoint insert_sorted (x : R) (l : list R) : list R :=
  match l with
  | [] => [x]
  | y :: l' => if Rle_dec x y then x :: y :: l' else y :: insert_sorted x l'
  end.

Definition sort (l : list R) : list R := fold_right insert_sorted [] l.

(** [np.median]: the middle element of the sorted values, or the mean of
    the two middle elements; [nan] for no value. *)
Definition median (l : list R) : option R :=
  let s := sort l in
  let n := length s in
  if n =? 0 then None
  else if Nat.even n
       then Some ((nth (n / 2 - 1) s 0 + nth (n / 2) s 0) / 2)%R
       else Some (nth (n / 2) s 0%R).

(** [np.std]: the root of the mean squared deviation from the mean. *)
Definition std (l : list R) : option R :=
  match mean l with
  | None => None
  | Some m =>
      match mean (map (fun x => (x - m) * (x - m))%R l) with
      | None => None
      | Some v => Some (sqrt v)
      end
  end.

(** [idxs] is the index array after [np.random.shuffle]: the function is
    given the outcome of the shuffle. With fewer than two indices the
    array of pairs is empty and one-dimensional, and indexing its columns
    fails. *)
Definition estimate_scale_point_sets (idxs : list nat)
  (src dst : list rvec) (max_est : R) : result (option R * option R) :=
  let idx_pairs := combinations2 idxs in
  match idx_pairs with
  | [] => raise IndexError
  | _ :: _ =>
      d1 <- pair_distances src idx_pairs ;;
      d2 <- pair_distances dst idx_pairs ;;
      let scales := map (fun dd => divide (fst dd) (snd dd))
                        (combine d2 d1) in
      let scales_clean := flat_map (clean max_est) scales in
      ret (median scales_clean, std scales_clean)
  end.

(** The default of [max_est]. *)
Definition max_est_default : R := 50000%R.

(** ** point_set_registration.py: procrustes_registration (lines 31-81)

    [orthogonal_procrustes] belongs to SciPy and is a parameter. An array
    is the list of its rows, as [np.array] builds it from a list of rows
    in lines 264-265 of calibration.py; with no row that is [np.array([])],
    of shape (0,), on which [src.shape[1]] of line 53 raises
    [IndexError]. *)

Definition centre (m : rvec) (X : list rvec) : list rvec :=
  map (fun x => vec_sub x m) X.

(** [np.linalg.norm] of a whole array. *)
Definition frobenius (X : list rvec) : R :=
  sqrt (fold_right Rplus 0%R
          (map (fun v : rvec => vx v * vx v + vy v * vy v + vz v * vz v)%R X)).

Definition normalise (n : R) (X : list rvec) : list rvec :=
  map (fun v : rvec => rv (vx v / n) (vy v / n) (vz v / n)) X.

Definition procrustes_registration
  (orthogonal_procrustes :
     list rvec -> list rvec -> result (rmat * R))
  (src dst : list rvec) : result (R * rmat * rvec * option R) :=
  if negb (length src =? length dst) then raise AssertionError
  else if length src =? 0 then raise IndexError
  else
    let m1 := @mean_vec3 RScalar src in
    let m2 := @mean_vec3 RScalar dst in
    let P := centre m1 src in
    let Q := centre m2 dst in
    let norm1 := frobenius P in
    let norm2 := frobenius Q in
    if Req_dec_T norm1 0 then
      raise (ValueError "Input matrices must contain >1 unique points")
    else if Req_dec_T norm2 0 then
      raise (ValueError "Input matrices must contain >1 unique points")
    else
      '(M, s) <- orthogonal_procrustes (normalise norm2 Q)
                   (normalise norm1 P) ;;
      let scale := (s * norm2 / norm1)%R in
      let ms := @vec_scale RScalar m1 scale in
      let t := vec_sub m2
                 (rv (@dot3 RScalar ms (row0 M)) (@dot3 RScalar ms (row1 M))
                     (@dot3 RScalar ms (row2 M))) in
      mean_dist <-
        average_distance (apply_rigid_transform src M t scale) dst ;;
      ret (scale, M, t, mean_dist).

(** ** Notions used by the properties of the estimators *)

Definition origin : rvec := rv 0 0 0.

(** [k * P] for an array of points. *)
Definition scale_points (k : R) (X : list rvec) : list rvec :=
  map (fun v : rvec => rv (k * vx v) (k * vy v) (k * vz v)) X.

(** The distance between rows [i] and [j] of an array, and the ratio that
    the estimator forms for the index pair. *)
Definition dist_at (a : list rvec) (ij : nat * nat) : R :=
  norm3 (vec_sub (nth (fst ij) a origin) (nth (snd ij) a origin)).

Definition ratio_at (src dst : list rvec) (ij : nat * nat) : ratio :=
  divide (dist_at dst ij) (dist_at src ij).

(** The centroid of a non-empty array of points. *)
Definition centroid (X : list rvec) : rvec := @mean_vec3 RScalar X.

(** A quarter turn about the z axis, and a translation. *)
Definition quarter_turn : rmat :=
  @mkMat3 RScalar (rv 0 (-1) 0) (rv 1 0 0) (rv 0 0 1).

Definition sample_shift : rvec := rv 1 2 3.

(** Three points, two of them equal. *)
Definition sample_cloud : list rvec := [rv 1 0 0; rv 0 1 0; rv 1 0 0].

(** A solver that answers with the identity rotation and [s = 1], which
    is what the Procrustes problem asks for when its two arguments are
    equal and of full rank. *)
Definition identity_solver (A B : list rvec) : result (rmat * R) :=
  ret (@eye3 RScalar, 1%R).

(** * Part II. Theorems *)

(** ** Result monad and dictionaries *)

Lemma pair_eqb_eq (p q : Pair) : pair_eqb p q = true <-> p = q.
Proof.
  destruct p as [a b], q as [c d]; unfold pair_eqb; simpl.
  rewrite andb_true_iff, !Nat.eqb_eq. split.
  - intros [-> ->]; reflexivity.
  - intros H; inversion H; auto.
Qed.

Lemma pair_eqb_refl (p : Pair) : pair_eqb p p = true.
Proof. apply pair_eqb_eq; reflexivity. Qed.

Lemma pair_eqb_neq (p q : Pair) : pair_eqb p q = false <-> p <> q.
Proof.
  rewrite <- pair_eqb_eq. destruct (pair_eqb p q); split; congruence.
Qed.

Lemma in_pair_iff (v : View) (key : Pair) :
  in_pair v key = true <-> v = fst key \/ v = snd key.
Proof. unfold in_pair. rewrite orb_true_iff, !Nat.eqb_eq. tauto. Qed.

Lemma mem_In (x : nat) (l : list nat) : mem x l = true <-> In x l.
Proof.
  unfold mem. rewrite existsb_exists. split.
  - intros (y & Hy & E). apply Nat.eqb_eq in E. subst; auto.
  - intros H. exists x. split; auto. apply Nat.eqb_refl.
Qed.

(** ** Walks and connectivity: the executable closures are exact *)

Lemma walk_mono (E E' : list Pair) (x y : View) :
  incl E E' -> walk E x y -> walk E' x y.
Proof.
  intros Hi H. induction H as [a b H | a b c _ IH1 _ IH2].
  - apply t_step. apply Hi, H.
  - eapply t_trans; eauto.
Qed.

Lemma connected_mono (E E' : list Pair) (x y : View) :
  incl E E' -> connected E x y -> connected E' x y.
Proof.
  intros Hi H. induction H as [a b H | a | a b _ IH | a b c _ IH1 _ IH2].
  - apply rst_step. apply Hi, H.
  - apply rst_refl.
  - apply rst_sym, IH.
  - eapply rst_trans; eauto.
Qed.

Lemma walk_connected (E : list Pair) (x y : View) :
  walk E x y -> connected E x y.
Proof.
  intros H. induction H as [a b H | a b c _ IH1 _ IH2].
  - apply rst_step, H.
  - eapply rst_trans; eauto.
Qed.

Lemma reach_walk (E : list Pair) :
  forall x y, reach E x y = true <-> walk E x y.
Proof.
  induction E as [|[u v] E IH]; intros x y; simpl.
  - split; [discriminate|].
    intros H. exfalso. induction H as [a b H | ]; auto.
  - assert (Hm : forall a b, walk E a b -> walk ((u, v) :: E) a b)
      by (intros a b; apply walk_mono, incl_tl, incl_refl).
    assert (He : walk ((u, v) :: E) u v) by (apply t_step; left; reflexivity).
    rewrite orb_true_iff, andb_true_iff, !orb_true_iff, !Nat.eqb_eq, !IH.
    split.
    + intros [H | [Hx Hy]]; [auto|].
      assert (Hxv : walk ((u, v) :: E) x v).
      { destruct Hx as [-> | Hx]; [exact He|].
        eapply t_trans; [apply Hm, Hx | exact He]. }
      destruct Hy as [-> | Hy]; [exact Hxv|].
      eapply t_trans; [exact Hxv | apply Hm, Hy].
    + intros H. induction H as [a b H | a b c _ IH1 _ IH2].
      * destruct H as [H | H].
        -- inversion H; subst. right; auto.
        -- left. apply t_step, H.
      * assert (Ht : forall p q r, walk E p q -> walk E q r -> walk E p r)
          by (intros p q r; apply t_trans).
        destruct IH1 as [H1 | [H1x H1y]], IH2 as [H2 | [H2x H2y]].
        -- left; eauto.
        -- right; split; [|exact H2y].
           destruct H2x as [-> | H2x]; [right; exact H1 | right; eauto].
        -- right; split; [exact H1x|].
           destruct H1y as [-> | H1y]; [right; exact H2 | right; eauto].
        -- right; split; assumption.
Qed.

Lemma connected_equiv (E : list Pair) :
  (forall x, connected E x x) /\
  (forall x y, connected E x y -> connected E y x) /\
  (forall x y z, connected E x y -> connected E y z -> connected E x z).
Proof.
  repeat split; intros.
  - apply rst_refl.
  - apply rst_sym; assumption.
  - eapply rst_trans; eassumption.
Qed.

Lemma conn_connected (E : list Pair) :
  forall x y, conn E x y = true <-> connected E x y.
Proof.
  induction E as [|[u v] E IH]; intros x y; simpl.
  - rewrite Nat.eqb_eq. split.
    + intros ->; apply rst_refl.
    + intros H. induction H as [a b H | a | a b _ IH | a b c _ IH1 _ IH2];
        try contradiction; congruence.
  - assert (Hm : forall a b, connected E a b -> connected ((u, v) :: E) a b)
      by (intros a b; apply connected_mono, incl_tl, incl_refl).
    assert (He : connected ((u, v) :: E) u v)
      by (apply rst_step; left; reflexivity).
    destruct (connected_equiv E) as (Hr & Hs & Ht).
    rewrite !orb_true_iff, !andb_true_iff, !IH.
    split.
    + intros [[H | [H1 H2]] | [H1 H2]].
      * auto.
      * eapply rst_trans; [apply Hm, H1|].
        eapply rst_trans; [exact He | apply Hm, H2].
      * eapply rst_trans; [apply Hm, H1|].
        eapply rst_trans; [apply rst_sym, He | apply Hm, H2].
    + intros H. induction H as [a b H | a | a b _ IH' | a b c _ IH1 _ IH2].
      * destruct H as [H | H].
        -- inversion H; subst. left; right; auto.
        -- left; left. apply rst_step, H.
      * left; left; apply Hr.
      * destruct IH' as [[H | [H1 H2]] | [H1 H2]].
        -- left; left; auto.
        -- right; auto.
        -- left; right; auto.
      * destruct IH1 as [[H1 | [H1 H1']] | [H1 H1']],
                 IH2 as [[H2 | [H2 H2']] | [H2 H2']].
        -- left; left; eauto.
        -- left; right; split; eauto.
        -- right; split; eauto.
        -- left; right; split; eauto.
        -- left; right; split; eauto.
        -- left; left; eauto.
        -- right; split; eauto.
        -- left; left; eauto.
        -- right; split; eauto.
Qed.

Lemma conn_refl (E : list Pair) (x : View) : conn E x x = true.
Proof. apply conn_connected, rst_refl. Qed.

Lemma conn_sym (E : list Pair) (x y : View) :
  conn E x y = true -> conn E y x = true.
Proof. rewrite !conn_connected. apply rst_sym. Qed.

Lemma conn_trans (E : list Pair) (x y z : View) :
  conn E x y = true -> conn E y z = true -> conn E x z = true.
Proof. rewrite !conn_connected. apply rst_trans. Qed.

(** ** Counting components *)

Lemma count_components_pos (E : list Pair) (nodes : list View) :
  nodes <> [] -> 1 <= count_components E nodes.
Proof.
  induction nodes as [|v rest IH]; intros Hne; [congruence|].
  simpl. destruct (existsb (conn E v) rest) eqn:Hex; [|lia].
  destruct rest as [|w rest']; [discriminate|].
  simpl Nat.add. apply IH. discriminate.
Qed.

Lemma count_components_one (E : list Pair) (nodes : list View) :
  count_components E nodes = 1 <->
  nodes <> [] /\
  forall x y, In x nodes -> In y nodes -> conn E x y = true.
Proof.
  induction nodes as [|v rest IH]; simpl.
  - split; [discriminate | intros [H _]; congruence].
  - destruct (existsb (conn E v) rest) eqn:Hex.
    + simpl Nat.add. rewrite IH.
      apply existsb_exists in Hex. destruct Hex as (w & Hw & Hvw).
      split.
      * intros [_ Hall]. split; [discriminate|].
        assert (Hv : forall y, In y rest -> conn E v y = true).
        { intros y Hy. eapply conn_trans; [exact Hvw | apply Hall; auto]. }
        intros x y [<- | Hx] [<- | Hy]; auto using conn_refl, conn_sym.
      * intros [_ Hall]. split.
        -- intros ->; contradiction.
        -- intros x y Hx Hy. apply Hall; auto.
    + split.
      * intros H. assert (rest = []) as ->.
        { destruct rest as [|w r]; [reflexivity|].
          assert (1 <= count_components E (w :: r))
            by (apply count_components_pos; discriminate).
          lia. }
        split; [discriminate|].
        intros x y [<- | []] [<- | []]. apply conn_refl.
      * intros [_ Hall]. destruct rest as [|w r]; [reflexivity|].
        exfalso. assert (existsb (conn E v) (w :: r) = true); [|congruence].
        apply existsb_exists. exists w. split; [left; reflexivity|].
        apply Hall; simpl; auto.
Qed.

(** ** The graphs built from an edge list *)

Lemma add_node_In (l : list View) (v x : View) :
  In x (add_node l v) <-> In x l \/ x = v.
Proof.
  unfold add_node. destruct (mem v l) eqn:Hm.
  - apply mem_In in Hm. split; [auto | intros [H | ->]; auto].
  - rewrite in_app_iff. simpl. intuition.
Qed.

Lemma dg_fold_edges (T : list Pair) :
  forall G e, In e (dg_edges (fold_left dg_add_edge T G)) <->
              In e (dg_edges G) \/ In e T.
Proof.
  induction T as [|a T IH]; intros G e; simpl.
  - tauto.
  - rewrite IH. unfold dg_add_edge at 1; simpl.
    destruct (existsb (pair_eqb a) (dg_edges G)) eqn:Hex.
    + apply existsb_exists in Hex. destruct Hex as (k & Hk & Hak).
      apply pair_eqb_eq in Hak. subst k.
      split; [tauto | intros [H | [<- | H]]; auto].
    + rewrite in_app_iff. simpl. tauto.
Qed.

Lemma dg_fold_nodes (T : list Pair) :
  forall G v, In v (dg_nodes (fold_left dg_add_edge T G)) <->
              In v (dg_nodes G) \/ endpoint T v.
Proof.
  induction T as [|a T IH]; intros G v; simpl.
  - split; [auto | intros [H | (e & [] & _)]; exact H].
  - rewrite IH. unfold dg_add_edge at 1; simpl. rewrite !add_node_In.
    unfold endpoint. split.
    + intros [[[H | ->] | ->] | (e & He & Hv)]; auto.
      * right. exists a. simpl; auto.
      * right. exists a. simpl; auto.
      * right. exists e. simpl; auto.
    + intros [H | (e & [<- | He] & Hv)]; auto.
      * destruct Hv as [-> | ->]; auto.
      * right. exists e; auto.
Qed.

Lemma same_edge_iff (e k : Pair) :
  same_edge e k = true <-> k = e \/ k = (snd e, fst e).
Proof.
  unfold same_edge. rewrite orb_true_iff, !pair_eqb_eq.
  split; intros [H | H]; auto.
Qed.

Lemma set_edge_keys {A} (es : list (Pair * A)) (e : Pair) (a : A) :
  map fst (set_edge es e a) =
  if existsb (same_edge e) (map fst es) then map fst es
  else map fst es ++ [e].
Proof.
  induction es as [|[k b] es IH]; simpl; [reflexivity|].
  destruct (same_edge e k); simpl; [reflexivity|].
  rewrite IH. destruct (existsb (same_edge e) (map fst es)); reflexivity.
Qed.

Lemma same_undirected_connected (U D : list Pair) (x y : View) :
  same_undirected U D -> (connected U x y <-> connected D x y).
Proof.
  intros [HUD HDU]. split.
  - apply connected_mono. exact HUD.
  - intros H. induction H as [a b H | a | a b _ IH | a b c _ IH1 _ IH2].
    + destruct (HDU _ H) as [H' | H'].
      * apply rst_step, H'.
      * apply rst_sym, rst_step, H'.
    + apply rst_refl.
    + apply rst_sym, IH.
    + eapply rst_trans; eauto.
Qed.

Lemma to_undirected_fold (D : list Pair) :
  forall (H : Graph unit) (D0 : list Pair),
    same_undirected (map fst (g_edges H)) D0 ->
    let H' := fold_left (fun H e => g_add_edge H e tt) D H in
    same_undirected (map fst (g_edges H')) (D0 ++ D) /\
    (forall v, In v (g_nodes H') <-> In v (g_nodes H) \/ endpoint D v).
Proof.
  induction D as [|a D IH]; intros H D0 HU; simpl.
  - rewrite app_nil_r. split; [exact HU|].
    intros v. split; [auto | intros [Hv | (e & [] & _)]; exact Hv].
  - set (H1 := g_add_edge H a tt).
    assert (HU1 : same_undirected (map fst (g_edges H1)) (D0 ++ [a])).
    { unfold H1, g_add_edge; simpl. rewrite set_edge_keys.
      destruct HU as [HUD HDU].
      destruct (existsb (same_edge a) (map fst (g_edges H))) eqn:Hex.
      - apply existsb_exists in Hex. destruct Hex as (k & Hk & Hak).
        apply same_edge_iff in Hak.
        split.
        + intros k' Hk'. apply in_or_app; left; auto.
        + intros e He. apply in_app_or in He. destruct He as [He | [<- | []]].
          * auto.
          * destruct Hak as [-> | ->]; auto.
      - split.
        + intros k' Hk'. apply in_app_or in Hk'. apply in_or_app.
          destruct Hk' as [Hk' | Hk']; auto.
        + intros e He. apply in_app_or in He. destruct He as [He | [<- | []]].
          * destruct (HDU _ He); [left | right]; apply in_or_app; auto.
          * left. apply in_or_app; right; simpl; auto. }
    destruct (IH H1 (D0 ++ [a]) HU1) as [IH1 IH2].
    rewrite <- app_assoc in IH1. simpl in IH1. split; [exact IH1|].
    intros v. rewrite IH2. unfold H1, g_add_edge; simpl.
    rewrite !add_node_In. unfold endpoint. split.
    + intros [[[Hv | ->] | ->] | (e & He & Hv)]; auto.
      * right; exists a; simpl; auto.
      * right; exists a; simpl; auto.
      * right; exists e; simpl; auto.
    + intros [Hv | (e & [<- | He] & Hv)]; auto.
      * destruct Hv as [-> | ->]; auto.
      * right; exists e; auto.
Qed.

Lemma walk_endpoint (E : list Pair) (x y : View) :
  walk E x y -> endpoint E x.
Proof.
  intros H. induction H as [a b H | a b c _ IH1 _ _]; [|exact IH1].
  exists (a, b). split; [exact H | left; reflexivity].
Qed.

(** The validator accepts an edge list exactly when it has no directed
    cycle, is not empty, and the views it names are pairwise connected. *)
Lemma verify_view_tree_spec (T : list Pair) :
  verify_view_tree T = true <->
  ~ has_directed_cycle T /\ T <> [] /\
  (forall u w, endpoint T u -> endpoint T w -> connected T u w).
Proof.
  unfold verify_view_tree.
  set (G := fold_left dg_add_edge T empty_digraph).
  assert (HE : forall e, In e (dg_edges G) <-> In e T).
  { intros e. unfold G. rewrite dg_fold_edges. simpl. tauto. }
  assert (HN : forall v, In v (dg_nodes G) <-> endpoint T v).
  { intros v. unfold G. rewrite dg_fold_nodes. simpl. tauto. }
  assert (HW : forall x y, walk (dg_edges G) x y <-> walk T x y).
  { intros x y. split; apply walk_mono; intros e; apply HE. }
  assert (HC0 : forall x y, connected (dg_edges G) x y <-> connected T x y).
  { intros x y. split; apply connected_mono; intros e; apply HE. }
  destruct (to_undirected_fold (dg_edges G)
              {| g_nodes := dg_nodes G; g_edges := [] |} [])
    as [HU HUN].
  { split; simpl; intros ? []. }
  fold (to_undirected G) in HU, HUN. simpl in HU, HUN.
  assert (HUN' : forall v, In v (g_nodes (to_undirected G)) <-> endpoint T v).
  { intros v. rewrite HUN, HN. split; [|auto].
    intros [Hv | (e & He & Hv)]; [exact Hv|].
    exists e. split; [apply HE, He | exact Hv]. }
  rewrite andb_true_iff, Nat.eqb_eq.
  unfold number_connected_components. rewrite count_components_one.
  split.
  - intros [Hcyc [Hne Hall]]. repeat split.
    + intros [v Hv]. destruct (find_cycle G) eqn:Hf; [discriminate|].
      unfold find_cycle in Hf.
      eapply find_none in Hf; [|apply HN; eapply walk_endpoint; exact Hv].
      simpl in Hf. apply HW, reach_walk in Hv. congruence.
    + intros ->. apply Hne. reflexivity.
    + intros u w Hu Hw. apply HC0.
      apply (same_undirected_connected _ _ u w HU).
      apply conn_connected. apply Hall; apply HUN'; assumption.
  - intros (Hcyc & Hne & Hall). split.
    + destruct (find_cycle G) eqn:Hf; [|reflexivity].
      exfalso. apply Hcyc. unfold find_cycle in Hf.
      apply find_some in Hf. destruct Hf as [_ Hf].
      exists v. apply HW, reach_walk, Hf.
    + split.
      * intros Hnil. destruct T as [|e T']; [congruence|].
        assert (Hin : In (fst e) (g_nodes (to_undirected G))).
        { apply HUN'. exists e. simpl; auto. }
        rewrite Hnil in Hin. exact Hin.
      * intros x y Hx Hy. apply conn_connected.
        apply (same_undirected_connected _ _ x y HU).
        apply HC0. apply Hall; apply HUN'; assumption.
Qed.

(** ** Spanning arborescences have no cycle and one component *)

Lemma unique_parent (T : list Pair) (a b w : View) :
  NoDup (map snd T) -> In (a, w) T -> In (b, w) T -> a = b.
Proof.
  induction T as [|e T IH]; simpl; [tauto|].
  intros Hnd Ha Hb. inversion Hnd as [|? ? Hnotin Hnd']; subst.
  assert (Hs : forall c, In (c, w) T -> In w (map snd T)).
  { intros c Hc. apply in_map_iff. exists (c, w); auto. }
  destruct Ha as [-> | Ha], Hb as [Hb | Hb].
  - congruence.
  - exfalso. apply Hnotin. simpl. eauto.
  - exfalso. apply Hnotin. rewrite Hb. simpl. eauto.
  - auto.
Qed.

Lemma walk_last_edge (E : list Pair) (x y : View) :
  walk E x y ->
  exists p, edge_rel E p y /\ clos_refl_trans View (edge_rel E) x p.
Proof.
  intros H. apply clos_trans_tn1 in H.
  induction H as [y H | y z Hyz Hxy _].
  - exists x. split; [exact H | apply rt_refl].
  - exists y. split; [exact Hyz|].
    apply clos_tn1_trans in Hxy. apply clos_t_clos_rt, Hxy.
Qed.

Lemma edge_then_rt_walk (E : list Pair) (p w q : View) :
  edge_rel E p w -> clos_refl_trans View (edge_rel E) w q -> walk E p q.
Proof.
  intros He H. apply clos_rt_rtn1 in H.
  induction H as [|y z Hyz _ IH].
  - apply t_step, He.
  - eapply t_trans; [exact IH | apply t_step, Hyz].
Qed.

Lemma arborescence_acyclic (views : list View) (root : View) (T : list Pair) :
  spanning_tree views root T -> ~ has_directed_cycle T.
Proof.
  intros [_ Hroot Hpar Hreach _] [v Hv].
  assert (Hstep : forall x w, edge_rel T x w -> walk T w w -> walk T x x).
  { intros x w Hxw Hw.
    destruct (walk_last_edge _ _ _ Hw) as (p & Hpw & Hwp).
    assert (x = p) by (eapply unique_parent; eassumption). subst p.
    eapply edge_then_rt_walk; eassumption. }
  assert (Hup : forall w, clos_refl_trans View (edge_rel T) root w ->
                          walk T w w -> walk T root root).
  { intros w Hw. apply clos_rt_rtn1 in Hw.
    induction Hw as [|y z Hyz _ IH]; [auto|].
    intros Hz. apply IH. eapply Hstep; eassumption. }
  assert (Hrv : clos_refl_trans View (edge_rel T) root v).
  { destruct (walk_endpoint _ _ _ Hv) as (e & He & Hve).
    apply clos_trans_t1n in Hv. inversion Hv as [y Hy | y z Hy _]; subst.
    - apply (Hreach (v, v) Hy).
    - apply (Hreach (v, y) Hy). }
  specialize (Hup v Hrv Hv).
  destruct (walk_last_edge _ _ _ Hup) as (p & Hp & _).
  apply Hroot. apply in_map_iff. exists (p, root). auto.
Qed.

Lemma arborescence_connected (views : list View) (root : View)
  (T : list Pair) :
  spanning_tree views root T ->
  forall u w, endpoint T u -> endpoint T w -> connected T u w.
Proof.
  intros [_ _ _ Hreach _].
  assert (Hrt : forall a b, clos_refl_trans View (edge_rel T) a b ->
                            connected T a b).
  { intros a b H. induction H as [a b H | a | a b c _ IH1 _ IH2].
    - apply rst_step, H.
    - apply rst_refl.
    - eapply rst_trans; eauto. }
  assert (Hr : forall v, endpoint T v -> connected T root v).
  { intros v (e & He & Hv). specialize (Hreach e He).
    destruct Hv as [-> | ->]; [apply Hrt, Hreach|].
    eapply rst_trans; [apply Hrt, Hreach|].
    apply rst_step. unfold edge_rel. rewrite <- surjective_pairing. exact He. }
  intros u w Hu Hw.
  eapply rst_trans; [apply rst_sym, Hr, Hu | apply Hr, Hw].
Qed.

(** C1, as the code has it. The validator receives the edge list only, so
    the views it can check are the ones the edges name:
    - an edge list with a directed cycle is invalid;
    - an empty edge list, or one whose named views fall into more than one
      connected component, is invalid;
    - a spanning arborescence with at least one edge is valid. *)
Theorem verify_view_tree_verdict (T : list Pair) :
  (has_directed_cycle T -> verify_view_tree T = false) /\
  ((T = [] \/
    exists u w, endpoint T u /\ endpoint T w /\ ~ connected T u w) ->
   verify_view_tree T = false) /\
  (forall views root, spanning_tree views root T ->
                      verify_view_tree T = true).
Proof.
  repeat split.
  - intros Hc. destruct (verify_view_tree T) eqn:Hv; [|reflexivity].
    apply verify_view_tree_spec in Hv. tauto.
  - intros Hd. destruct (verify_view_tree T) eqn:Hv; [|reflexivity].
    apply verify_view_tree_spec in Hv. destruct Hv as (_ & Hne & Hall).
    destruct Hd as [-> | (u & w & Hu & Hw & Hn)]; [congruence|].
    exfalso. apply Hn, Hall; assumption.
  - intros views root Hst. apply verify_view_tree_spec. repeat split.
    + eapply arborescence_acyclic; eassumption.
    + apply (st_nonempty _ _ _ Hst).
    + eapply arborescence_connected; eassumption.
Qed.

(** The chain 0 -> 1 -> 2 is a spanning arborescence of three views. *)
Lemma chain_spanning_tree : spanning_tree [0; 1; 2] 0 [(0, 1); (1, 2)].
Proof.
  constructor.
  - discriminate.
  - simpl. intuition discriminate.
  - simpl. repeat constructor; simpl; intuition discriminate.
  - intros e [<- | [<- | []]]; simpl.
    + apply rt_refl.
    + apply rt_step. left; reflexivity.
  - intros v. unfold endpoint. split.
    + intros [<- | [<- | [<- | []]]].
      * exists (0, 1); simpl; auto.
      * exists (0, 1); simpl; auto.
      * exists (1, 2); simpl; auto.
    + intros (e & [<- | [<- | []]] & [-> | ->]); simpl; auto.
Qed.

Lemma verify_view_tree_verdict_witness :
  verify_view_tree [(0, 1); (1, 0)] = false /\
  verify_view_tree [(0, 1); (2, 3)] = false /\
  verify_view_tree [(0, 1); (1, 2)] = true.
Proof.
  split; [|split].
  - apply (proj1 (verify_view_tree_verdict [(0, 1); (1, 0)])).
    exists 0. apply reach_walk. reflexivity.
  - apply (proj1 (proj2 (verify_view_tree_verdict [(0, 1); (2, 3)]))).
    right. exists 0, 2. repeat split.
    + exists (0, 1); simpl; auto.
    + exists (2, 3); simpl; auto.
    + intros H. apply conn_connected in H. discriminate.
  - apply (proj2 (proj2 (verify_view_tree_verdict [(0, 1); (1, 2)]))
             [0; 1; 2] 0).
    exact chain_spanning_tree.
Defined.

(** C1 as stated fails: the rig has views 0, 1 and 2, the edge list spans
    only 0 and 1, and the validator, which never sees the rig, accepts. *)
Lemma verify_view_tree_misses_unspanned_view :
  In 2 [0; 1; 2] /\ ~ endpoint [(0, 1)] 2 /\
  verify_view_tree [(0, 1)] = true.
Proof.
  split; [simpl; auto|]. split; [|reflexivity].
  intros (e & [<- | []] & [Hv | Hv]); discriminate.
Qed.

(** ** build_view_graph *)

Lemma set_of_In (l : list nat) (x : nat) : In x (set_of l) <-> In x l.
Proof.
  induction l as [|y l IH]; simpl; [tauto|].
  rewrite filter_In, IH, negb_true_iff, Nat.eqb_neq.
  destruct (Nat.eq_dec y x); intuition congruence.
Qed.

Lemma NoDup_filter {A} (f : A -> bool) (l : list A) :
  NoDup l -> NoDup (filter f l).
Proof.
  induction 1 as [|x l Hx _ IH]; simpl; [constructor|].
  destruct (f x); [|exact IH].
  constructor; [|exact IH]. rewrite filter_In. tauto.
Qed.

Lemma set_of_NoDup (l : list nat) : NoDup (set_of l).
Proof.
  induction l as [|y l IH]; simpl; constructor.
  - rewrite filter_In, negb_true_iff, Nat.eqb_neq. intros [_ H]. congruence.
  - apply NoDup_filter, IH.
Qed.

Lemma intersection_In (a b : list nat) (x : nat) :
  In x (intersection a b) <-> In x a /\ In x b.
Proof. unfold intersection. rewrite filter_In, set_of_In, mem_In. tauto. Qed.

Lemma intersection_length_comm (a b : list nat) :
  length (intersection a b) = length (intersection b a).
Proof.
  apply Permutation_length, NoDup_Permutation.
  - apply NoDup_filter, set_of_NoDup.
  - apply NoDup_filter, set_of_NoDup.
  - intros x. rewrite !intersection_In. tauto.
Qed.

Lemma shared_comm {P} (landmarks : landmark_store P) (u v : View) :
  shared landmarks u v = shared landmarks v u.
Proof. apply intersection_length_comm. Qed.

Lemma same_edge_sym (e k : Pair) : same_edge e k = same_edge k e.
Proof.
  destruct e as [a b], k as [c d]. unfold same_edge, pair_eqb; simpl.
  rewrite (Nat.eqb_sym a c), (Nat.eqb_sym b d),
          (Nat.eqb_sym b c), (Nat.eqb_sym a d).
  destruct (c =? a), (d =? b), (c =? b), (d =? a); reflexivity.
Qed.

Lemma same_edge_trans (e k j : Pair) :
  same_edge e k = true -> same_edge k j = true -> same_edge e j = true.
Proof.
  rewrite !same_edge_iff.
  destruct e as [a b], k as [c d], j as [x y]; simpl.
  intros [H1 | H1] [H2 | H2]; inversion H1; inversion H2; subst; auto.
Qed.

Lemma edge_attr_set_edge {A} (es : list (Pair * A)) (e : Pair) (a : A)
  (u v : View) :
  edge_attr (set_edge es e a) u v =
  if same_edge (u, v) e then Some a else edge_attr es u v.
Proof.
  induction es as [|[k b] es IH]; simpl; [reflexivity|].
  destruct (same_edge e k) eqn:Hek; simpl.
  - destruct (same_edge (u, v) k) eqn:Hk, (same_edge (u, v) e) eqn:He;
      try reflexivity; exfalso.
    + rewrite same_edge_sym in Hek.
      rewrite (same_edge_trans _ _ _ Hk Hek) in He. discriminate.
    + rewrite (same_edge_trans _ _ _ He Hek) in Hk. discriminate.
  - rewrite IH.
    destruct (same_edge (u, v) k) eqn:Hk, (same_edge (u, v) e) eqn:He;
      try reflexivity; exfalso.
    rewrite same_edge_sym in He.
    rewrite (same_edge_trans _ _ _ He Hk) in Hek. discriminate.
Qed.

Lemma combinations2_In {A} (l : list A) (a b : A) :
  In (a, b) (combinations2 l) -> In a l /\ In b l.
Proof.
  induction l as [|x l IH]; simpl; [tauto|].
  rewrite in_app_iff, in_map_iff.
  intros [(y & Hy & Hin) | H].
  - inversion Hy; subst. auto.
  - destruct (IH H); auto.
Qed.

Lemma combinations2_complete {A} (l : list A) (a b : A) :
  In a l -> In b l -> a <> b ->
  In (a, b) (combinations2 l) \/ In (b, a) (combinations2 l).
Proof.
  induction l as [|x l IH]; simpl; [tauto|].
  intros Ha Hb Hab. rewrite !in_app_iff.
  destruct Ha as [-> | Ha], Hb as [-> | Hb].
  - congruence.
  - left; left. apply in_map, Hb.
  - right; left. apply in_map, Ha.
  - destruct (IH Ha Hb Hab); auto.
Qed.

Lemma build_view_graph_loop_spec {P} (landmarks : landmark_store P)
  (combos : list Pair) :
  (forall c, In c combos ->
             dict_get Nat.eqb landmarks (fst c) <> None /\
             dict_get Nat.eqb landmarks (snd c) <> None) ->
  forall G, exists G',
    build_view_graph_loop landmarks combos G = inr G' /\
    (forall u v,
        edge_attr (g_edges G') u v =
        if existsb (adds_edge landmarks u v) combos
        then Some (shared landmarks u v)
        else edge_attr (g_edges G) u v) /\
    (forall x, In x (g_nodes G') ->
               In x (g_nodes G) \/ endpoint combos x).
Proof.
  induction combos as [|[a b] combos IH]; intros Hall G; simpl.
  - exists G. repeat split; auto.
  - destruct (Hall (a, b) (or_introl eq_refl)) as [Ha Hb]. simpl in Ha, Hb.
    assert (Hall' : forall c, In c combos ->
                dict_get Nat.eqb landmarks (fst c) <> None /\
                dict_get Nat.eqb landmarks (snd c) <> None)
      by (intros c Hc; apply Hall; right; exact Hc).
    unfold get_landmarks.
    assert (Hw : length (intersection
                   (lm_timestamp match dict_get Nat.eqb landmarks a with
                                 | Some l => l | None => mkLandmarks [] [] end)
                   (lm_timestamp match dict_get Nat.eqb landmarks b with
                                 | Some l => l | None => mkLandmarks [] [] end))
                 = shared landmarks a b).
    { unfold shared, timestamps_of.
      destruct (dict_get Nat.eqb landmarks a), (dict_get Nat.eqb landmarks b);
        reflexivity. }
    destruct (dict_get Nat.eqb landmarks a) as [la|] eqn:Ea; [|congruence].
    destruct (dict_get Nat.eqb landmarks b) as [lb|] eqn:Eb; [|congruence].
    simpl. simpl in Hw. rewrite Hw.
    assert (Hend : forall x, endpoint combos x -> endpoint ((a, b) :: combos) x).
    { intros x (e & He & Hx). exists e. simpl; auto. }
    destruct (8 <? shared landmarks a b) eqn:Hlt.
    + destruct (IH Hall' (g_add_edge G (a, b) (shared landmarks a b)))
        as (G' & HG' & Hattr & Hnodes).
      exists G'. split; [exact HG'|]. split.
      * intros u v. rewrite Hattr. unfold adds_edge at 2. simpl fst; simpl snd.
        rewrite Hlt, andb_true_r.
        destruct (existsb (adds_edge landmarks u v) combos).
        -- rewrite orb_true_r. reflexivity.
        -- rewrite orb_false_r. simpl g_edges. rewrite edge_attr_set_edge.
           destruct (same_edge (u, v) (a, b)) eqn:Hs; [|reflexivity].
           apply same_edge_iff in Hs. simpl in Hs.
           destruct Hs as [Hs | Hs]; inversion Hs; subst;
             [reflexivity | rewrite shared_comm; reflexivity].
      * intros x Hx. destruct (Hnodes x Hx) as [Hx' | Hx']; [|auto].
        simpl in Hx'. rewrite !add_node_In in Hx'.
        destruct Hx' as [[Hx' | ->] | ->]; auto.
        -- right. exists (a, b). simpl; auto.
        -- right. exists (a, b). simpl; auto.
    + destruct (IH Hall' G) as (G' & HG' & Hattr & Hnodes).
      exists G'. split; [exact HG'|]. split.
      * intros u v. rewrite Hattr. unfold adds_edge at 2. simpl fst; simpl snd.
        rewrite Hlt, andb_false_r. reflexivity.
      * intros x Hx. destruct (Hnodes x Hx); auto.
Qed.

Lemma fold_add_node_In (vs l : list View) (x : View) :
  In x (fold_left add_node vs l) <-> In x l \/ In x vs.
Proof.
  revert l. induction vs as [|v vs IH]; intros l; simpl; [tauto|].
  rewrite IH, add_node_In. intuition.
Qed.

Lemma build_view_graph_loop_ext {P P'} (landmarks : landmark_store P)
  (landmarks' : landmark_store P') (combos : list Pair) :
  (forall c, In c combos ->
     option_map lm_timestamp (dict_get Nat.eqb landmarks (fst c)) =
     option_map lm_timestamp (dict_get Nat.eqb landmarks' (fst c)) /\
     option_map lm_timestamp (dict_get Nat.eqb landmarks (snd c)) =
     option_map lm_timestamp (dict_get Nat.eqb landmarks' (snd c))) ->
  forall G, build_view_graph_loop landmarks combos G =
            build_view_graph_loop landmarks' combos G.
Proof.
  induction combos as [|[a b] combos IH]; intros Hall G; simpl; [reflexivity|].
  destruct (Hall (a, b) (or_introl eq_refl)) as [Ha Hb]. simpl in Ha, Hb.
  assert (IH' : forall G, build_view_graph_loop landmarks combos G =
                          build_view_graph_loop landmarks' combos G)
    by (apply IH; intros c Hc; apply Hall; right; exact Hc).
  unfold get_landmarks.
  destruct (dict_get Nat.eqb landmarks a) as [la|],
           (dict_get Nat.eqb landmarks' a) as [la'|]; simpl in Ha;
    try discriminate; [|reflexivity].
  destruct (dict_get Nat.eqb landmarks b) as [lb|],
           (dict_get Nat.eqb landmarks' b) as [lb'|]; simpl in Hb;
    try discriminate; [|reflexivity].
  simpl. inversion Ha as [Ha']. inversion Hb as [Hb'].
  rewrite Ha', Hb'.
  destruct (8 <? length (intersection (lm_timestamp la') (lm_timestamp lb')));
    apply IH'.
Qed.

Lemma build_view_graph_loop_nodes {P} (landmarks : landmark_store P)
  (combos : list Pair) (x : View) :
  forall G0 G, build_view_graph_loop landmarks combos G0 = inr G ->
               In x (g_nodes G0) -> In x (g_nodes G).
Proof.
  induction combos as [|[a b] combos IH]; intros G0 G HG Hx0; simpl in HG.
  - inversion HG; subst. exact Hx0.
  - destruct (get_landmarks landmarks a); [discriminate|].
    destruct (get_landmarks landmarks b); [discriminate|].
    simpl in HG.
    destruct (8 <? _); eapply IH; try exact HG; [|exact Hx0].
    simpl. rewrite !add_node_In. auto.
Qed.

(** C9. When every view has an entry in the landmark store the graph is
    built. Its nodes are the views; two distinct views are joined exactly
    when they share more than 8 distinct timestamps, and the edge stores
    that number; no edge leaves the view list; and the graph depends on the
    store only through the timestamp lists of the views: a store with the
    same timestamps gives the same graph. The function only reads [views]
    and [landmarks]. *)
Theorem build_view_graph_edges {P} (views : list View)
  (landmarks : landmark_store P) :
  (forall v, In v views -> dict_get Nat.eqb landmarks v <> None) ->
  exists G,
    build_view_graph views landmarks = inr G /\
    (forall x, In x (g_nodes G) <-> In x views) /\
    (forall u v, In u views -> In v views -> u <> v ->
       (has_edge G u v = true <-> 8 < shared landmarks u v) /\
       (has_edge G u v = true ->
        edge_attr (g_edges G) u v = Some (shared landmarks u v))) /\
    (forall u v, has_edge G u v = true -> In u views /\ In v views) /\
    (forall P' (landmarks' : landmark_store P'),
       (forall v, In v views ->
          option_map lm_timestamp (dict_get Nat.eqb landmarks' v) =
          option_map lm_timestamp (dict_get Nat.eqb landmarks v)) ->
       build_view_graph views landmarks' = inr G).
Proof.
  intros Hall. unfold build_view_graph.
  set (G0 := g_add_nodes_from (mkGraph [] []) views).
  destruct (build_view_graph_loop_spec landmarks (combinations2 views))
    with (G := G0) as (G & HG & Hattr & Hnodes).
  { intros [a b] Hc. apply combinations2_In in Hc. simpl. split; apply Hall;
      tauto. }
  assert (Hex : forall u v,
             existsb (adds_edge landmarks u v) (combinations2 views) = true ->
             In u views /\ In v views /\ 8 < shared landmarks u v).
  { intros u v H. apply existsb_exists in H. destruct H as ([a b] & Hc & Hadd).
    unfold adds_edge in Hadd. apply andb_true_iff in Hadd.
    destruct Hadd as [Hs Hlt]. apply Nat.ltb_lt in Hlt. simpl in Hlt.
    apply combinations2_In in Hc. apply same_edge_iff in Hs. simpl in Hs.
    destruct Hs as [Hs | Hs]; inversion Hs; subst.
    - tauto.
    - rewrite shared_comm. tauto. }
  exists G. split; [exact HG|]. split; [|split; [|split]].
  - intros x. split.
    + intros Hx. destruct (Hnodes x Hx) as [Hx' | (e & He & Hx')].
      * unfold G0 in Hx'. simpl in Hx'. apply fold_add_node_In in Hx'.
        destruct Hx' as [[] | Hx']. exact Hx'.
      * destruct e as [a b]. apply combinations2_In in He. simpl in Hx'.
        destruct Hx' as [-> | ->]; tauto.
    + intros Hx.
      assert (Hx0 : In x (g_nodes G0))
        by (unfold G0; simpl; apply fold_add_node_In; auto).
      eapply build_view_graph_loop_nodes; eassumption.
  - intros u v Hu Hv Huv. unfold has_edge. rewrite Hattr.
    destruct (existsb (adds_edge landmarks u v) (combinations2 views)) eqn:E.
    + destruct (Hex u v E) as (_ & _ & Hlt). split; [tauto | reflexivity].
    + unfold G0. simpl. split; [split; [discriminate|] | discriminate].
      intros Hlt. exfalso.
      assert (existsb (adds_edge landmarks u v) (combinations2 views) = true);
        [|congruence].
      apply existsb_exists.
      destruct (combinations2_complete views u v Hu Hv Huv) as [Hc | Hc].
      * exists (u, v). split; [exact Hc|]. unfold adds_edge. simpl.
        apply andb_true_iff. split; [|apply Nat.ltb_lt, Hlt].
        apply same_edge_iff. auto.
      * exists (v, u). split; [exact Hc|]. unfold adds_edge. simpl.
        apply andb_true_iff. split.
        -- apply same_edge_iff. auto.
        -- apply Nat.ltb_lt. rewrite shared_comm. exact Hlt.
  - intros u v. unfold has_edge. rewrite Hattr.
    destruct (existsb (adds_edge landmarks u v) (combinations2 views)) eqn:E.
    + intros _. destruct (Hex u v E); tauto.
    + unfold G0. simpl. discriminate.
  - intros P' landmarks' Hsame. rewrite <- HG. fold G0.
    apply build_view_graph_loop_ext.
    intros [a b] Hc. apply combinations2_In in Hc. simpl.
    split; apply Hsame; tauto.
Qed.

(** ** Dictionaries *)

Section DictFacts.
Context {K V : Type}.
Variable keq : K -> K -> bool.
Hypothesis keq_eq : forall a b, keq a b = true <-> a = b.

Lemma dict_get_set_same (d : dict K V) (k : K) (v : V) :
  dict_get keq (dict_set keq d k v) k = Some v.
Proof using keq_eq.
  induction d as [|[k' v'] d IH]; simpl.
  - rewrite (proj2 (keq_eq k k) eq_refl). reflexivity.
  - destruct (keq k' k) eqn:E; simpl; rewrite E; auto.
Qed.

Lemma dict_get_set_other (d : dict K V) (k k0 : K) (v : V) :
  k <> k0 -> dict_get keq (dict_set keq d k v) k0 = dict_get keq d k0.
Proof using keq_eq.
  intros Hne. induction d as [|[k' v'] d IH]; simpl.
  - destruct (keq k k0) eqn:E; [|reflexivity].
    apply keq_eq in E. congruence.
  - destruct (keq k' k) eqn:E; simpl.
    + apply keq_eq in E. subst k'.
      destruct (keq k k0) eqn:E0; [|reflexivity].
      apply keq_eq in E0. congruence.
    + rewrite IH. reflexivity.
Qed.

Lemma dict_keys_set (d : dict K V) (k : K) (v : V) :
  dict_keys (dict_set keq d k v) =
  if existsb (fun k' => keq k' k) (dict_keys d) then dict_keys d
  else dict_keys d ++ [k].
Proof using Type.
  unfold dict_keys. induction d as [|[k' v'] d IH]; simpl; [reflexivity|].
  destruct (keq k' k); simpl; [reflexivity|].
  rewrite IH. destruct (existsb _ (map fst d)); reflexivity.
Qed.

Lemma dict_set_hd (d : dict K V) (k k0 : K) (v v0 : V) :
  k <> k0 ->
  hd_error (dict_set keq ((k0, v0) :: d) k v) = Some (k0, v0).
Proof using keq_eq.
  intros Hne. simpl. destruct (keq k0 k) eqn:E; [|reflexivity].
  apply keq_eq in E. congruence.
Qed.
End DictFacts.

(** ** One step of the concatenation *)

Section ConcatenateFacts.
Variable S : Scalar.
Variable est : list (vec3 S) -> list (vec3 S) -> result (S * S).
Variable proc :
  list (vec3 S) -> list (vec3 S) -> result (S * mat3 S * vec3 S * S).

(** What a successful step did: the three look-ups, the estimate, and
    the writes of [place]. *)
Lemma resolve_pair_inv (method : string)
  (relative_poses : dict Pair (relative_pose S)) (st st' : state S)
  (curr_pair adj_pair : Pair) (inverse : bool) (warning : list notice) :
  resolve_pair S est proc method relative_poses st curr_pair adj_pair
               inverse = inr (st', warning) ->
  exists p1 rp adj p3d_com p3d_adj_com s sd,
    dict_get Nat.eqb (poses st) (first_view curr_pair inverse) = Some p1 /\
    dict_get pair_eqb relative_poses curr_pair = Some rp /\
    dict_get pair_eqb (triang_points st) adj_pair = Some adj /\
    estimate_scale S est proc method p3d_com p3d_adj_com = inr (s, sd) /\
    st' = place st curr_pair inverse
                (mat_map (to_float32 S) (pose_R p1))
                (vec_map (to_float32 S) (pose_t p1)) rp s sd /\
    warning = if slt_tenth S s then [LowScaleWarning curr_pair] else [].
Proof.
  unfold resolve_pair. intros H.
  destruct (dict_get Nat.eqb (poses st) (first_view curr_pair inverse))
    as [p1|]; [|discriminate]. simpl in H.
  destruct (dict_get pair_eqb relative_poses curr_pair) as [rp|];
    [|discriminate]. simpl in H.
  destruct (dict_get pair_eqb (triang_points st) adj_pair) as [adj|];
    [|discriminate]. simpl in H.
  destruct (gather (te_triang_points adj) (te_timestamps adj) _)
    as [|p3d_adj_com]; [discriminate|]. simpl in H.
  destruct (gather (rp_triang_points rp) (rp_timestamps rp) _)
    as [|p3d_com]; [discriminate|]. simpl in H.
  destruct (estimate_scale S est proc method p3d_com p3d_adj_com)
    as [|[s sd]] eqn:He; [discriminate|]. simpl in H.
  inversion H; subst.
  exists p1, rp, adj, p3d_com, p3d_adj_com, s, sd.
  split; [reflexivity|]. split; [reflexivity|]. split; [reflexivity|].
  split; [exact He|]. split; reflexivity.
Qed.

Lemma place_poses (st : state S) (curr_pair : Pair) (inverse : bool)
  (R1 : mat3 S) (t1 : vec3 S) (rp : relative_pose S) (s sd : S) :
  poses (place st curr_pair inverse R1 t1 rp s sd) =
  dict_set Nat.eqb (poses st) (second_view curr_pair inverse)
    (mkPose (mat_mul (fst (edge_pose rp inverse)) R1)
            (vec_add (mat_vec (fst (edge_pose rp inverse)) t1)
                     (scale_vec s (snd (edge_pose rp inverse))))
            s (Some sd)).
Proof.
  unfold place. destruct (edge_pose rp inverse) as [Rd td].
  destruct inverse; reflexivity.
Qed.

Lemma place_triang_points (st : state S) (curr_pair : Pair)
  (inverse : bool) (R1 : mat3 S) (t1 : vec3 S) (rp : relative_pose S)
  (s sd : S) :
  let Rd := fst (edge_pose rp inverse) in
  let td := snd (edge_pose rp inverse) in
  let R2 := mat_mul Rd R1 in
  let t2 := vec_add (mat_vec Rd t1) (scale_vec s td) in
  let inv := if inverse then invert_Rt R2 t2 else invert_Rt R1 t1 in
  triang_points (place st curr_pair inverse R1 t1 rp s sd) =
  dict_set pair_eqb (triang_points st) curr_pair
    (mkTriang
       (map (fun p => vec_add (mat_vec (fst inv) (vec_scale p s)) (snd inv))
            (rp_triang_points rp))
       (rp_timestamps rp)).
Proof.
  unfold place. destruct (edge_pose rp inverse) as [Rd td].
  destruct inverse; reflexivity.
Qed.

Lemma find_adjacent_pair_loop_spec (keys : list Pair) (pair : Pair) :
  forall acc k inverse,
    find_adjacent_pair_loop keys pair acc = (Some k, inverse) ->
    (acc = Some k /\ inverse = false) \/
    (In k keys /\
     if inverse
     then in_pair (snd pair) k = true /\ in_pair (fst pair) k = false
     else in_pair (fst pair) k = true).
Proof.
  induction keys as [|key keys IH]; intros acc k inverse H; simpl in H.
  - inversion H; subst. auto.
  - destruct (in_pair (fst pair) key) eqn:E0.
    + apply IH in H. destruct H as [[H1 H2] | [H1 H2]].
      * inversion H1; subst. right. split; [left; reflexivity | exact E0].
      * right. split; [right; exact H1 | exact H2].
    + destruct (in_pair (snd pair) key) eqn:E1.
      * inversion H; subst. right. split; [left; reflexivity | auto].
      * apply IH in H. destruct H as [H | [H1 H2]]; [auto|].
        right. split; [right; exact H1 | exact H2].
Qed.

(** The adjacent pair is a key of [triang_points]; [inverse] is set
    exactly when it was found through the second view of the pair. *)
Lemma find_adjacent_pair_spec (tp : dict Pair (triang_entry S))
  (pair k : Pair) (inverse : bool) :
  find_adjacent_pair tp pair = (Some k, inverse) ->
  In k (dict_keys tp) /\
  if inverse
  then in_pair (snd pair) k = true /\ in_pair (fst pair) k = false
  else in_pair (fst pair) k = true.
Proof.
  unfold find_adjacent_pair. intros H.
  apply find_adjacent_pair_loop_spec in H.
  destruct H as [[H _] | H]; [discriminate | exact H].
Qed.

(** One step: with [R1], [t1] the pose of the anchor as lines 245-246
    read it, [Rd], [td] the relative pose of the pair, inverted when the
    adjacent pair was found through the second view, and [s] the estimated
    scale, the pose written for the new view is [R2 = Rd . R1],
    [t2 = Rd . t1 + s * td]. *)
Lemma resolve_pair_composes (method : string)
  (relative_poses : dict Pair (relative_pose S)) (st st' : state S)
  (curr_pair adj_pair : Pair) (inverse : bool) (warning : list notice) :
  find_adjacent_pair (triang_points st) curr_pair
    = (Some adj_pair, inverse) ->
  resolve_pair S est proc method relative_poses st curr_pair adj_pair
               inverse = inr (st', warning) ->
  exists anchor rp p3d_com p3d_adj_com s sd,
    (if inverse
     then in_pair (snd curr_pair) adj_pair = true /\
          in_pair (fst curr_pair) adj_pair = false
     else in_pair (fst curr_pair) adj_pair = true) /\
    dict_get Nat.eqb (poses st) (first_view curr_pair inverse)
      = Some anchor /\
    dict_get pair_eqb relative_poses curr_pair = Some rp /\
    estimate_scale S est proc method p3d_com p3d_adj_com = inr (s, sd) /\
    let R1 := mat_map (to_float32 S) (pose_R anchor) in
    let t1 := vec_map (to_float32 S) (pose_t anchor) in
    let Rd_td := if inverse then invert_Rt (rp_Rd rp) (rp_td rp)
                 else (rp_Rd rp, rp_td rp) in
    let Rd := fst Rd_td in
    let td := snd Rd_td in
    dict_get Nat.eqb (poses st') (second_view curr_pair inverse) =
    Some (mkPose (mat_mul Rd R1)
                 (vec_add (mat_vec Rd t1) (scale_vec s td))
                 s (Some sd)).
Proof.
  intros Hadj Hres.
  apply find_adjacent_pair_spec in Hadj. destruct Hadj as [_ Hadj].
  apply resolve_pair_inv in Hres.
  destruct Hres as (p1 & rp & adj & c1 & c2 & s & sd &
                    H1 & H2 & H3 & H4 & -> & _).
  exists p1, rp, c1, c2, s, sd.
  split; [exact Hadj|]. split; [exact H1|]. split; [exact H2|].
  split; [exact H4|]. cbv zeta. rewrite place_poses.
  rewrite dict_get_set_same by apply Nat.eqb_eq. reflexivity.
Qed.

(** C3, as the code has it. The triangulated points of a resolved pair
    are scaled by [s] and moved by the inverse of the global pose of the
    first view of the pair, the frame they were triangulated in. In the
    direct case that view is the anchor; in the inverted case it is the
    view that has just been placed, with pose [(R2, t2)]. *)
Theorem points_moved_by_first_view_pose (method : string)
  (relative_poses : dict Pair (relative_pose S)) (st st' : state S)
  (curr_pair adj_pair : Pair) (inverse : bool) (warning : list notice) :
  resolve_pair S est proc method relative_poses st curr_pair adj_pair
               inverse = inr (st', warning) ->
  exists anchor rp p3d_com p3d_adj_com s sd frame,
    dict_get Nat.eqb (poses st) (first_view curr_pair inverse)
      = Some anchor /\
    dict_get pair_eqb relative_poses curr_pair = Some rp /\
    estimate_scale S est proc method p3d_com p3d_adj_com = inr (s, sd) /\
    (if inverse
     then dict_get Nat.eqb (poses st') (fst curr_pair) = Some frame
     else fst curr_pair = first_view curr_pair inverse /\
          frame = mkPose (mat_map (to_float32 S) (pose_R anchor))
                         (vec_map (to_float32 S) (pose_t anchor))
                         (relative_scale anchor)
                         (relative_scale_std anchor)) /\
    let inv := invert_Rt (pose_R frame) (pose_t frame) in
    dict_get pair_eqb (triang_points st') curr_pair =
    Some (mkTriang
            (map (fun p => vec_add (mat_vec (fst inv) (vec_scale p s))
                                   (snd inv))
                 (rp_triang_points rp))
            (rp_timestamps rp)).
Proof.
  intros Hres. apply resolve_pair_inv in Hres.
  destruct Hres as (p1 & rp & adj & c1 & c2 & s & sd &
                    H1 & H2 & H3 & H4 & -> & _).
  destruct inverse.
  - eexists p1, rp, c1, c2, s, sd, _.
    split; [exact H1|]. split; [exact H2|]. split; [exact H4|].
    split.
    + rewrite place_poses. simpl second_view.
      apply dict_get_set_same, Nat.eqb_eq.
    + cbv zeta. rewrite place_triang_points.
      rewrite dict_get_set_same by apply pair_eqb_eq. reflexivity.
  - eexists p1, rp, c1, c2, s, sd, _.
    split; [exact H1|]. split; [exact H2|]. split; [exact H4|].
    split; [split; reflexivity|].
    cbv zeta. rewrite place_triang_points.
    rewrite dict_get_set_same by apply pair_eqb_eq. reflexivity.
Qed.


(** *** Passes and termination *)

Lemma place_keys (st : state S) (curr_pair : Pair) (inverse : bool)
  (R1 : mat3 S) (t1 : vec3 S) (rp : relative_pose S) (s sd : S) (k : Pair) :
  In k (dict_keys (triang_points
                     (place st curr_pair inverse R1 t1 rp s sd))) <->
  In k (dict_keys (triang_points st)) \/ k = curr_pair.
Proof.
  rewrite place_triang_points. cbv zeta. rewrite dict_keys_set.
  destruct (existsb _ _) eqn:E.
  - apply existsb_exists in E. destruct E as (k' & Hk' & E).
    apply pair_eqb_eq in E. subst k'.
    split; [auto | intros [H | ->]; auto].
  - rewrite in_app_iff. simpl. intuition.
Qed.

Lemma run_pass_length (method : string)
  (relative_poses : dict Pair (relative_pose S)) (pairs : list Pair) :
  forall st um log st' um' log',
    run_pass S est proc method relative_poses pairs st um log
      = inr (st', um', log') ->
    length um' <= length um + length pairs /\
    (length um' = length um + length pairs ->
     um' = um ++ pairs /\ st' = st /\ log' = log).
Proof.
  induction pairs as [|curr pairs IH]; intros st um log st' um' log' H;
    simpl in H.
  - inversion H; subst. rewrite app_nil_r. simpl. split; [lia | auto].
  - destruct (find_adjacent_pair (triang_points st) curr)
      as [[adj|] inverse].
    + destruct (resolve_pair S est proc method relative_poses st curr adj
                             inverse) as [e|[st1 w]]; [discriminate|].
      simpl in H. apply IH in H. simpl. split; lia.
    + destruct (existsb (pair_eqb curr) um).
      * apply IH in H. simpl. split; lia.
      * apply IH in H. rewrite length_app in H. simpl in H. simpl.
        destruct H as [H1 H2]. split; [lia|].
        intros Hl. destruct H2 as (-> & -> & ->); [lia|].
        rewrite <- app_assoc. auto.
Qed.

Lemma run_pass_keeps (method : string)
  (relative_poses : dict Pair (relative_pose S)) (pairs : list Pair) :
  forall st um log st' um' log',
    run_pass S est proc method relative_poses pairs st um log
      = inr (st', um', log') ->
    (forall k, In k (dict_keys (triang_points st)) ->
               In k (dict_keys (triang_points st'))) /\
    (forall e, In e pairs \/ In e um ->
               In e um' \/ In e (dict_keys (triang_points st'))).
Proof.
  induction pairs as [|curr pairs IH]; intros st um log st' um' log' H;
    simpl in H.
  - inversion H; subst. split; [auto | intros e [[] | He]; auto].
  - destruct (find_adjacent_pair (triang_points st) curr)
      as [[adj|] inverse].
    + destruct (resolve_pair S est proc method relative_poses st curr adj
                             inverse) as [e|[st1 w]] eqn:Hres;
        [discriminate|].
      simpl in H. apply IH in H. destruct H as [Hk He].
      apply resolve_pair_inv in Hres.
      destruct Hres as (p1 & rp & a & c1 & c2 & s & sd &
                        _ & _ & _ & _ & -> & _).
      split.
      * intros k Hin. apply Hk, place_keys. auto.
      * intros e [[<- | Hin] | Hin]; auto.
        right. apply Hk, place_keys. auto.
    + apply IH in H. destruct H as [Hk He]. split; [exact Hk|].
      assert (Hum : forall e, In e um ->
                In e (if existsb (pair_eqb curr) um then um
                      else um ++ [curr])).
      { intros e Hin. destruct (existsb _ um); [|apply in_or_app]; auto. }
      intros e [[<- | Hin] | Hin]; auto.
      apply He. right.
      destruct (existsb (pair_eqb curr) um) eqn:E.
      * apply existsb_exists in E. destruct E as (k & Hk' & E).
        apply pair_eqb_eq in E. subst k. exact Hk'.
      * apply in_or_app. simpl; auto.
Qed.

Lemma concatenate_loop_fuel (method : string)
  (relative_poses : dict Pair (relative_pose S)) (fuel : nat) :
  forall pairs st log,
    length pairs <= fuel ->
    concatenate_loop S est proc fuel method relative_poses pairs st log
      <> OutOfFuel.
Proof.
  induction fuel as [|fuel IH]; intros pairs st log Hlen.
  - destruct pairs; [discriminate | simpl in Hlen; lia].
  - destruct pairs as [|p pairs]; [discriminate|].
    cbn [concatenate_loop].
    destruct (run_pass S est proc method relative_poses (p :: pairs) st []
                       log) as [e|[[st' um] log']] eqn:Hpass;
      [discriminate|].
    destruct (length (p :: pairs) =? length um) eqn:E; [discriminate|].
    apply IH. apply Nat.eqb_neq in E.
    apply run_pass_length in Hpass. simpl in *. lia.
Qed.

Lemma concatenate_loop_keys (method : string)
  (relative_poses : dict Pair (relative_pose S)) (fuel : nat) :
  forall pairs st log st' log',
    concatenate_loop S est proc fuel method relative_poses pairs st log
      = Returned (st', log') ->
    forall e, In e pairs \/ In e (dict_keys (triang_points st)) ->
              In e (dict_keys (triang_points st')).
Proof.
  induction fuel as [|fuel IH]; intros pairs st log st' log' H e He.
  - destruct pairs; [|discriminate]. inversion H; subst.
    destruct He as [[] | He]; exact He.
  - destruct pairs as [|p pairs].
    + inversion H; subst. destruct He as [[] | He]; exact He.
    + cbn [concatenate_loop] in H.
      destruct (run_pass S est proc method relative_poses (p :: pairs) st []
                         log) as [x|[[st1 um] log1]] eqn:Hpass;
        [discriminate|].
      destruct (length (p :: pairs) =? length um); [discriminate|].
      apply run_pass_keeps in Hpass. destruct Hpass as [Hk Hkeep].
      eapply IH; [exact H|].
      destruct He as [He | He].
      * destruct (Hkeep e (or_introl He)); auto.
      * right. apply Hk, He.
Qed.

(** C4, as the code has it. The loop ends within [|edges|] passes on
    every input. A completed pass loses no pair: each pair of the
    work-list is resolved or kept for the next pass. It either shortens
    the work-list, by resolving pairs or by keeping one copy of a
    repeated unresolved pair, or changes nothing, and then line 303
    raises the error that names the whole work-list. A returned result
    has an entry for every pair of the tree. *)
Theorem work_list_terminates (method : string)
  (relative_poses : dict Pair (relative_pose S))
  (minimal_tree : list Pair) :
  concatenate_relative_poses S est proc minimal_tree relative_poses method
    <> OutOfFuel /\
  (forall pairs st log st' unmatched_pairs log',
      pairs <> [] ->
      run_pass S est proc method relative_poses pairs st [] log
        = inr (st', unmatched_pairs, log') ->
      (forall e, In e pairs ->
                 In e unmatched_pairs \/
                 In e (dict_keys (triang_points st'))) /\
      (length unmatched_pairs < length pairs \/
       (unmatched_pairs = pairs /\ st' = st /\
        forall fuel,
          concatenate_loop S est proc (Datatypes.S fuel) method
            relative_poses pairs st log
          = Raised (RuntimeError pairs)))) /\
  (forall st log,
      concatenate_relative_poses S est proc minimal_tree relative_poses
        method = Returned (st, log) ->
      forall e, In e minimal_tree ->
                In e (dict_keys (triang_points st))).
Proof.
  split; [|split].
  - unfold concatenate_relative_poses.
    destruct minimal_tree as [|pair0 pairs]; [discriminate|].
    destruct (dict_get pair_eqb relative_poses pair0); [|discriminate].
    apply concatenate_loop_fuel. simpl. lia.
  - intros pairs st log st' um log' Hne Hpass. split.
    + intros e He.
      apply run_pass_keeps in Hpass. destruct Hpass as [_ Hk]. auto.
    + pose proof (run_pass_length _ _ _ _ _ _ _ _ _ Hpass) as [Hle Heq].
      simpl in Hle, Heq.
      destruct (Nat.eq_dec (length um) (length pairs)) as [E | E];
        [right | left; lia].
      destruct (Heq E) as (-> & -> & ->). simpl.
      split; [reflexivity|]. split; [reflexivity|].
      intros fuel. destruct pairs as [|p pairs]; [congruence|].
      cbn [concatenate_loop]. rewrite Hpass.
      rewrite Nat.eqb_refl. reflexivity.
  - intros st log H e He. unfold concatenate_relative_poses in H.
    destruct minimal_tree as [|pair0 pairs]; [discriminate|].
    destruct (dict_get pair_eqb relative_poses pair0) as [rp0|];
      [|discriminate].
    eapply concatenate_loop_keys; [exact H|].
    destruct He as [<- | He]; [right; simpl; auto | left; exact He].
Qed.

(** *** The seed on an arborescence *)

Lemma tree_inv_perm (T : list Pair) (v0 : View) (st : state S)
  (pending pending' : list Pair) :
  Permutation pending pending' ->
  tree_inv T v0 st pending -> tree_inv T v0 st pending'.
Proof.
  intros Hp (Hsub & Hdisj & Hpar & Hnd & Hincl).
  unfold tree_inv. split; [exact Hsub|]. split; [|split; [exact Hpar|split]].
  - intros k Hk Hin. apply (Hdisj k Hk).
    eapply Permutation_in; [apply Permutation_sym; exact Hp | exact Hin].
  - eapply Permutation_NoDup; eassumption.
  - intros e He. apply Hincl.
    eapply Permutation_in; [apply Permutation_sym; exact Hp | exact He].
Qed.

Lemma seed_kept_key (pair0 : Pair) (rp0 : relative_pose S) (st : state S) :
  seed_kept pair0 rp0 st -> In pair0 (dict_keys (triang_points st)).
Proof.
  intros (_ & _ & Hhd). destruct (triang_points st) as [|[k e] d];
    simpl in Hhd; [discriminate|].
  inversion Hhd; subst. left. reflexivity.
Qed.

(** On an arborescence a pending pair is never attached through its second
    view: that view has one parent edge, which is the pending pair itself,
    so no resolved pair holds it. The step therefore writes the pose of a
    view that is neither the root nor the second view of the seed. *)
Lemma resolve_step_on_tree (T : list Pair) (pair0 : Pair)
  (rp0 : relative_pose S) (method : string)
  (relative_poses : dict Pair (relative_pose S)) (st st' : state S)
  (curr adj : Pair) (inverse : bool) (warning : list notice)
  (pending : list Pair) :
  NoDup (map snd T) -> ~ In (fst pair0) (map snd T) -> In pair0 T ->
  tree_inv T (fst pair0) st (curr :: pending) ->
  seed_kept pair0 rp0 st ->
  find_adjacent_pair (triang_points st) curr = (Some adj, inverse) ->
  resolve_pair S est proc method relative_poses st curr adj inverse
    = inr (st', warning) ->
  inverse = false /\
  tree_inv T (fst pair0) st' pending /\ seed_kept pair0 rp0 st'.
Proof.
  intros Hnd Hroot Hp0 (Hsub & Hdisj & Hpar & Hndp & Hincl) Hseed Hadj Hres.
  pose proof (seed_kept_key _ _ _ Hseed) as Hkey0.
  destruct Hseed as (Hs0 & Hs1 & Hhd).
  assert (HcurrT : In curr T) by (apply Hincl; left; reflexivity).
  assert (Hfresh : ~ In curr (dict_keys (triang_points st))).
  { intros Hin. apply (Hdisj curr Hin). left. reflexivity. }
  apply find_adjacent_pair_spec in Hadj. destruct Hadj as [Hadjk Hdir].
  assert (Hinv : inverse = false).
  { destruct inverse; [|reflexivity]. exfalso.
    destruct Hdir as [H1 _]. apply in_pair_iff in H1.
    destruct curr as [a b], adj as [c d]; simpl in H1.
    destruct H1 as [-> | ->].
    - destruct (Hpar _ Hadjk) as [E | [p Hp]].
      + simpl in E. apply Hroot. rewrite <- E. apply in_map_iff.
        exists (a, c). split; [reflexivity | exact HcurrT].
      + simpl in Hp.
        assert (p = a)
          by (eapply unique_parent; [exact Hnd | apply Hsub, Hp | exact HcurrT]).
        subst p. exact (Hfresh Hp).
    - assert (c = a)
        by (eapply unique_parent;
            [exact Hnd | apply Hsub, Hadjk | exact HcurrT]).
      subst c. exact (Hfresh Hadjk). }
  subst inverse.
  assert (Hne0 : curr <> pair0) by (intros ->; exact (Hfresh Hkey0)).
  apply resolve_pair_inv in Hres.
  destruct Hres as (p1 & rp & a & c1 & c2 & s & sd &
                    _ & _ & _ & _ & -> & _).
  split; [reflexivity|]. split.
  - unfold tree_inv. split; [|split; [|split; [|split]]].
    + intros k Hk. apply place_keys in Hk. destruct Hk as [Hk | ->]; auto.
    + intros k Hk Hin. apply place_keys in Hk. destruct Hk as [Hk | ->].
      * apply (Hdisj k Hk). right. exact Hin.
      * inversion Hndp; subst; auto.
    + intros k Hk. apply place_keys in Hk. destruct Hk as [Hk | ->].
      * destruct (Hpar k Hk) as [E | [p Hp]]; [left; exact E|].
        right. exists p. apply place_keys. left. exact Hp.
      * apply in_pair_iff in Hdir. destruct Hdir as [E | E]; rewrite E.
        -- destruct (Hpar adj Hadjk) as [E' | [p Hp]]; [left; exact E'|].
           right. exists p. apply place_keys. left. exact Hp.
        -- right. exists (fst adj). apply place_keys. left.
           destruct adj; exact Hadjk.
    + inversion Hndp; subst; auto.
    + intros e He. apply Hincl. right. exact He.
  - unfold seed_kept. rewrite place_poses, place_triang_points.
    simpl second_view. split; [|split].
    + rewrite (dict_get_set_other Nat.eqb Nat.eqb_eq); [exact Hs0|].
      intros E. apply Hroot. rewrite <- E. apply in_map. exact HcurrT.
    + rewrite (dict_get_set_other Nat.eqb Nat.eqb_eq); [exact Hs1|].
      intros E. apply Hne0.
      destruct curr as [x y], pair0 as [x0 y0]; simpl in E. subst y0.
      f_equal. eapply unique_parent; [exact Hnd | exact HcurrT | exact Hp0].
    + destruct (triang_points st) as [|[k0 e0] d]; simpl in Hhd;
        [discriminate|].
      inversion Hhd; subst.
      apply (dict_set_hd pair_eqb pair_eqb_eq). exact Hne0.
Qed.

Lemma run_pass_on_tree (T : list Pair) (pair0 : Pair)
  (rp0 : relative_pose S) (method : string)
  (relative_poses : dict Pair (relative_pose S)) (pairs : list Pair) :
  NoDup (map snd T) -> ~ In (fst pair0) (map snd T) -> In pair0 T ->
  forall st um log st' um' log',
    tree_inv T (fst pair0) st (pairs ++ um) ->
    seed_kept pair0 rp0 st ->
    run_pass S est proc method relative_poses pairs st um log
      = inr (st', um', log') ->
    tree_inv T (fst pair0) st' um' /\ seed_kept pair0 rp0 st'.
Proof.
  intros Hnd Hroot Hp0.
  induction pairs as [|curr pairs IH];
    intros st um log st' um' log' Hinv Hseed H; simpl in H.
  - inversion H; subst. split; assumption.
  - destruct (find_adjacent_pair (triang_points st) curr)
      as [[adj|] inverse] eqn:Hadj.
    + destruct (resolve_pair S est proc method relative_poses st curr adj
                             inverse) as [e|[st1 w]] eqn:Hres;
        [discriminate|].
      simpl in H.
      destruct (resolve_step_on_tree T pair0 rp0 method relative_poses st st1
                  curr adj inverse w (pairs ++ um) Hnd Hroot Hp0 Hinv Hseed
                  Hadj Hres) as (_ & Hinv1 & Hseed1).
      eapply IH; eassumption.
    + destruct (existsb (pair_eqb curr) um) eqn:E.
      * exfalso. apply existsb_exists in E. destruct E as (k & Hk & E).
        apply pair_eqb_eq in E. subst k.
        destruct Hinv as (_ & _ & _ & Hndp & _). simpl in Hndp.
        inversion Hndp as [|? ? Hnotin _]; subst.
        apply Hnotin, in_or_app. right. exact Hk.
      * eapply IH; [|exact Hseed|exact H].
        eapply tree_inv_perm; [|exact Hinv].
        rewrite app_assoc. apply Permutation_cons_append.
Qed.

Lemma concatenate_loop_on_tree (T : list Pair) (pair0 : Pair)
  (rp0 : relative_pose S) (method : string)
  (relative_poses : dict Pair (relative_pose S)) (fuel : nat) :
  NoDup (map snd T) -> ~ In (fst pair0) (map snd T) -> In pair0 T ->
  forall pairs st log st' log',
    tree_inv T (fst pair0) st pairs ->
    seed_kept pair0 rp0 st ->
    concatenate_loop S est proc fuel method relative_poses pairs st log
      = Returned (st', log') ->
    seed_kept pair0 rp0 st'.
Proof.
  intros Hnd Hroot Hp0.
  induction fuel as [|fuel IH]; intros pairs st log st' log' Hinv Hseed H.
  - destruct pairs; [|discriminate]. inversion H; subst. exact Hseed.
  - destruct pairs as [|p pairs].
    + inversion H; subst. exact Hseed.
    + cbn [concatenate_loop] in H.
      destruct (run_pass S est proc method relative_poses (p :: pairs) st []
                         log) as [x|[[st1 um] log1]] eqn:Hpass;
        [discriminate|].
      destruct (length (p :: pairs) =? length um); [discriminate|].
      rewrite <- (app_nil_r (p :: pairs)) in Hinv.
      destruct (run_pass_on_tree T pair0 rp0 method relative_poses
                  (p :: pairs) Hnd Hroot Hp0 _ _ _ _ _ _ Hinv Hseed Hpass)
        as [Hinv1 Hseed1].
      eapply IH; eassumption.
Qed.

(** The seed of lines 203-210 on a tree whose first pair starts at the
    root and ends at another view. *)
Lemma initial_state_seed (pair0 : Pair) (rp0 : relative_pose S) :
  fst pair0 <> snd pair0 -> seed_kept pair0 rp0 (initial_state pair0 rp0).
Proof.
  intros Hne. unfold seed_kept, initial_state. simpl.
  destruct (Nat.eqb_spec (fst pair0) (snd pair0)) as [E | _];
    [contradiction|]. simpl.
  rewrite Nat.eqb_refl.
  destruct (Nat.eqb_spec (fst pair0) (snd pair0)) as [E | _];
    [contradiction|].
  rewrite Nat.eqb_refl. auto.
Qed.

(** C6, as the code has it. When the tree is a spanning arborescence
    rooted at the first view of its first pair, the mapping that
    [concatenate_relative_poses] returns holds the seed untouched: the root
    has the identity rotation, zero translation and scale 1, the second
    view of the first pair has the rotation and translation of that pair
    with scale 1, and the first entry of the triangulated points is that
    pair with its points as given. *)
Theorem seed_is_kept_on_arborescence (method : string)
  (relative_poses : dict Pair (relative_pose S)) (views : list View)
  (pair0 : Pair) (rest : list Pair) (st : state S) (log : list notice) :
  spanning_tree views (fst pair0) (pair0 :: rest) ->
  concatenate_relative_poses S est proc (pair0 :: rest) relative_poses method
    = Returned (st, log) ->
  exists rp0,
    dict_get pair_eqb relative_poses pair0 = Some rp0 /\
    dict_get Nat.eqb (poses st) (fst pair0)
      = Some (mkPose eye3 zeros3 (sone S) None) /\
    dict_get Nat.eqb (poses st) (snd pair0)
      = Some (mkPose (rp_Rd rp0) (rp_td rp0) (sone S) None) /\
    hd_error (triang_points st)
      = Some (pair0, mkTriang (rp_triang_points rp0) (rp_timestamps rp0)).
Proof.
  intros [_ Hroot Hnd _ _] H. unfold concatenate_relative_poses in H.
  destruct (dict_get pair_eqb relative_poses pair0) as [rp0|];
    [|discriminate].
  exists rp0. split; [reflexivity|].
  assert (Hne : fst pair0 <> snd pair0).
  { intros E. apply Hroot. rewrite E. left. reflexivity. }
  change (seed_kept pair0 rp0 st).
  eapply (concatenate_loop_on_tree (pair0 :: rest) pair0 rp0);
    [exact Hnd | exact Hroot | left; reflexivity | |
     apply initial_state_seed; exact Hne | exact H].
  assert (Hnd' : NoDup (pair0 :: rest)) by (eapply NoDup_map_inv; exact Hnd).
  inversion Hnd' as [|? ? Hnotin Hndr]; subst.
  unfold tree_inv. simpl. split; [|split; [|split; [|split]]].
  - intros k [<- | []]. left. reflexivity.
  - intros k [<- | []]. exact Hnotin.
  - intros k [<- | []]. left. reflexivity.
  - exact Hndr.
  - intros e He. right. exact He.
Qed.

End ConcatenateFacts.

(** ** The engine on the sample rigs *)

Lemma build_view_graph_edges_witness :
  (forall v, In v [0; 1; 2] -> dict_get Nat.eqb sample_store v <> None) /\
  exists G,
    build_view_graph [0; 1; 2] sample_store = inr G /\
    has_edge G 0 1 = true /\
    edge_attr (g_edges G) 0 1 = Some 9 /\
    has_edge G 0 2 = false /\
    has_edge G 1 2 = false.
Proof.
  assert (Hall : forall v, In v [0; 1; 2] ->
                           dict_get Nat.eqb sample_store v <> None).
  { intros v [<- | [<- | [<- | []]]]; discriminate. }
  split; [exact Hall|].
  destruct (build_view_graph_edges [0; 1; 2] sample_store Hall)
    as (G & HG & _ & Hedge & _ & _).
  exists G. split; [exact HG|].
  assert (Hin : forall v, v < 3 -> In v [0; 1; 2]).
  { intros v Hv. simpl.
    destruct v as [|[|[|v]]]; [auto | auto | auto | lia]. }
  destruct (Hedge 0 1 (Hin 0 ltac:(lia)) (Hin 1 ltac:(lia)) ltac:(lia))
    as [H01 A01].
  destruct (Hedge 0 2 (Hin 0 ltac:(lia)) (Hin 2 ltac:(lia)) ltac:(lia))
    as [H02 _].
  destruct (Hedge 1 2 (Hin 1 ltac:(lia)) (Hin 2 ltac:(lia)) ltac:(lia))
    as [H12 _].
  assert (E01 : has_edge G 0 1 = true) by (apply H01; vm_compute; lia).
  split; [exact E01|]. split; [exact (A01 E01)|]. split.
  - destruct (has_edge G 0 2); [|reflexivity].
    assert (E : 8 < shared sample_store 0 2) by (apply H02; reflexivity).
    vm_compute in E. lia.
  - destruct (has_edge G 1 2); [|reflexivity].
    assert (E : 8 < shared sample_store 1 2) by (apply H12; reflexivity).
    vm_compute in E. lia.
Defined.

(** Rig A, pair (2, 1) attached to the seed (0, 1) through its second
    view: the frame of the points is view 2, which the step places. *)
Lemma points_moved_by_first_view_pose_witness :
  let st := rig_seed rigA_tree rigA_poses in
  let st' := state_of (step_Q 1 rigA_poses st (2, 1) (0, 1) true) in
  step_Q 1 rigA_poses st (2, 1) (0, 1) true = inr (st', []) /\
  exists rp s frame,
    dict_get pair_eqb rigA_poses (2, 1) = Some rp /\
    dict_get Nat.eqb (poses st') 2 = Some frame /\
    let inv := invert_Rt (pose_R frame) (pose_t frame) in
    dict_get pair_eqb (triang_points st') (2, 1) =
    Some (mkTriang
            (map (fun p => vec_add (mat_vec (fst inv) (vec_scale p s))
                                   (snd inv))
                 (rp_triang_points rp))
            (rp_timestamps rp)).
Proof.
  intros st st'.
  assert (Hres : step_Q 1 rigA_poses st (2, 1) (0, 1) true = inr (st', []))
    by reflexivity.
  split; [exact Hres|].
  destruct (points_moved_by_first_view_pose QScalar (reported_scale 1)
              (reported_procrustes 1) "cross-ratios" rigA_poses st st'
              (2, 1) (0, 1) true [] Hres)
    as (anchor & rp & c1 & c2 & s & sd & frame & _ & Hrp & _ & Hf & Hp).
  exists rp, s, frame.
  split; [exact Hrp|]. split; [exact Hf | exact Hp].
Defined.

(** C3 as stated fails on rig A. The pair (2, 1) is attached through view
    1, the anchor, which the seed placed at translation (-1, 0, 0). The
    code stores the points moved by the inverse of the pose of view 2; the
    inverse of the pose of the anchor would put them one unit away. *)
Lemma points_not_moved_by_anchor_pose :
  let st := final_state (run_Q 1 rigA_tree rigA_poses) in
  exists anchor rp e,
    run_Q 1 rigA_tree rigA_poses = Returned (st, []) /\
    find_adjacent_pair (triang_points (rig_seed rigA_tree rigA_poses)) (2, 1)
      = (Some (0, 1), true) /\
    dict_get Nat.eqb (poses st) 1 = Some anchor /\
    dict_get pair_eqb rigA_poses (2, 1) = Some rp /\
    dict_get pair_eqb (triang_points st) (2, 1) = Some e /\
    te_triang_points e = sample_points /\
    through_inverse_of_anchor anchor 1%Q (rp_triang_points rp)
      = shift_points (qvec (-1) 0 0) sample_points /\
    te_triang_points e
      <> through_inverse_of_anchor anchor 1%Q (rp_triang_points rp).
Proof.
  intros st. eexists _, _, _.
  split; [reflexivity|]. split; [reflexivity|]. split; [reflexivity|].
  split; [reflexivity|]. split; [reflexivity|]. split; [reflexivity|].
  split; [reflexivity|]. vm_compute. discriminate.
Qed.

(** Rig D: the loop ends, and the first pass over the work-list
    [(5, 6); (5, 6)] keeps one copy of the pair. *)
Lemma work_list_terminates_witness :
  run_Q 1 rigD_tree rigD_poses <> OutOfFuel /\
  run_Q 1 rigD_tree rigD_poses = Raised (RuntimeError [(5, 6)]) /\
  exists st' unmatched_pairs log',
    run_pass QScalar (reported_scale 1) (reported_procrustes 1)
      "cross-ratios" rigD_poses [(5, 6); (5, 6)]
      (rig_seed rigD_tree rigD_poses) [] []
    = inr (st', unmatched_pairs, log') /\
    length unmatched_pairs < 2.
Proof.
  destruct (work_list_terminates QScalar (reported_scale 1)
              (reported_procrustes 1) "cross-ratios" rigD_poses rigD_tree)
    as (Hfuel & Hpass & _).
  split; [exact Hfuel|]. split; [reflexivity|].
  destruct (Hpass [(5, 6); (5, 6)] (rig_seed rigD_tree rigD_poses) []
              (rig_seed rigD_tree rigD_poses) [(5, 6)] []
              ltac:(discriminate) eq_refl)
    as (_ & [Hlt | (Heq & _)]).
  - exists (rig_seed rigD_tree rigD_poses), [(5, 6)], [].
    split; [reflexivity | exact Hlt].
  - discriminate Heq.
Defined.

(** C4 as stated fails on rig D. The pair (5, 6) shares no view with the
    seed and is listed twice. The first pass resolves nothing, and line 302
    compares 2 pairs with 1 unmatched pair, so nothing is raised; the error
    comes one pass later. *)
Lemma pass_neither_resolves_nor_raises :
  run_pass QScalar (reported_scale 1) (reported_procrustes 1)
    "cross-ratios" rigD_poses [(5, 6); (5, 6)]
    (rig_seed rigD_tree rigD_poses) [] []
  = inr (rig_seed rigD_tree rigD_poses, [(5, 6)], []) /\
  ~ pass_resolves_or_raises (reported_scale 1) (reported_procrustes 1)
      "cross-ratios" rigD_poses [(5, 6); (5, 6)]
      (rig_seed rigD_tree rigD_poses).
Proof.
  split; [reflexivity|].
  unfold pass_resolves_or_raises.
  change (run_pass QScalar (reported_scale 1) (reported_procrustes 1)
            "cross-ratios" rigD_poses [(5, 6); (5, 6)]
            (rig_seed rigD_tree rigD_poses) [] [])
    with (@inr exn _ (rig_seed rigD_tree rigD_poses, [(5, 6)],
                      @nil notice)).
  cbv beta iota.
  intros [(e & _ & Hin & Hnot) | Hlen].
  - exact (Hnot Hin).
  - discriminate Hlen.
Qed.

(** Rig C is a spanning arborescence rooted at view 0. *)
Lemma seed_is_kept_on_arborescence_witness :
  let st := final_state (run_Q 1 rigC_tree rigC_poses) in
  spanning_tree [0; 1; 2] 0 rigC_tree /\
  run_Q 1 rigC_tree rigC_poses = Returned (st, []) /\
  exists rp0,
    dict_get pair_eqb rigC_poses (0, 1) = Some rp0 /\
    dict_get Nat.eqb (poses st) 0
      = Some (@mkPose QScalar eye3 zeros3 1%Q None) /\
    dict_get Nat.eqb (poses st) 1
      = Some (@mkPose QScalar (rp_Rd rp0) (rp_td rp0) 1%Q None) /\
    hd_error (triang_points st)
      = Some ((0, 1), mkTriang (rp_triang_points rp0) (rp_timestamps rp0)).
Proof.
  intros st.
  assert (Hrun : run_Q 1 rigC_tree rigC_poses = Returned (st, []))
    by reflexivity.
  split; [exact chain_spanning_tree|]. split; [exact Hrun|].
  exact (seed_is_kept_on_arborescence QScalar (reported_scale 1)
           (reported_procrustes 1) "cross-ratios" rigC_poses [0; 1; 2]
           (0, 1) [(1, 2)] st [] chain_spanning_tree Hrun).
Defined.

(** C6 as stated fails on rig B. The tree passes [verify_view_tree]. Its
    last pair (0, 2) finds the key (0, 1) through view 0, goes on, and
    stops at the key (1, 2), which holds view 2 only; the pair is inverted
    and the pose of view 0, the root, is written again. *)
Lemma validated_tree_overwrites_root :
  let st := final_state (run_Q 1 rigB_tree rigB_poses) in
  verify_view_tree rigB_tree = true /\
  find_adjacent_pair (triang_points st) (0, 2) = (Some (1, 2), true) /\
  run_Q 1 rigB_tree rigB_poses = Returned (st, []) /\
  dict_get Nat.eqb (poses st) 0
    = Some (@mkPose QScalar qeye (qvec 1 0 0) 1%Q (Some 0%Q)) /\
  ~ (vx (qvec 1 0 0) == vx (@zeros3 QScalar))%Q.
Proof.
  intros st. split; [reflexivity|]. split; [reflexivity|].
  split; [reflexivity|]. split; [reflexivity|].
  vm_compute. discriminate.
Qed.

(** ** The robust pairwise estimator *)

Lemma obind_fuel {A B} (m : outcome A) (k : A -> outcome B) :
  m <> OutOfFuel -> (forall a, k a <> OutOfFuel) -> obind m k <> OutOfFuel.
Proof.
  intros Hm Hk. destruct m; simpl; [apply Hk | discriminate | congruence].
Qed.

Lemma of_result_fuel {A} (r : result A) : of_result r <> OutOfFuel.
Proof. destruct r; discriminate. Qed.

Lemma obind_returned {A B} (m : outcome A) (k : A -> outcome B) (b : B) :
  obind m k = Returned b -> exists a, m = Returned a /\ k a = Returned b.
Proof. destruct m; simpl; intros H; [eauto | discriminate | discriminate]. Qed.

Lemma of_result_returned {A} (r : result A) (a : A) :
  of_result r = Returned a -> r = inr a.
Proof. destruct r; simpl; intros H; inversion H; reflexivity. Qed.

(** Steps through one bind of a computation that returned. *)
Ltac step_returned H x Hx :=
  apply obind_returned in H; destruct H as (x & Hx & H);
  try apply of_result_returned in Hx.

Lemma slice_to_firstn {A} (n : Z) (l : list A) :
  (0 <= n)%Z ->
  slice_to n l = firstn (Z.to_nat n) l /\
  (Z.of_nat (length (slice_to n l)) <= n)%Z.
Proof.
  intros Hn. unfold slice_to.
  destruct (0 <=? n)%Z eqn:E; [|apply Z.leb_gt in E; lia].
  split; [reflexivity|].
  pose proof (firstn_le_length (Z.to_nat n) l). lia.
Qed.

Section MeanFacts.
Variable S : Scalar.
Hypothesis div_one : forall x : S, sdiv S x (sofnat S 1) = x.

Lemma mean_scalars_one (x : S) : mean_scalars [x] = x.
Proof using div_one. simpl. apply div_one. Qed.

Lemma mean_vec3_one (v : vec3 S) : mean_vec3 [v] = v.
Proof using div_one.
  unfold mean_vec3. simpl map. rewrite !mean_scalars_one.
  destruct v; reflexivity.
Qed.

Lemma mean_mat3_one (M : mat3 S) : mean_mat3 [M] = M.
Proof using div_one.
  unfold mean_mat3. simpl map. rewrite !mean_vec3_one.
  destruct M; reflexivity.
Qed.
End MeanFacts.

Section RobustFacts.
Variable S : Scalar.
Variable P : Type.
Variable geo : Geometry S P.
Variable est : list (vec3 S) -> list (vec3 S) -> result (S * S).
Variable proc :
  list (vec3 S) -> list (vec3 S) -> result (S * mat3 S * vec3 S * S).
Variable intrinsics : dict View (intrinsics_entry S).
Variable landmarks : landmark_store P.
Variable method : string.
Variable th : S.
Variable max_paths : Z.
Variable method_scale : string.
Variable verbose : Z.

Lemma concatenate_relative_poses_fuel (minimal_tree : list Pair)
  (relative_poses : dict Pair (relative_pose S)) :
  concatenate_relative_poses S est proc minimal_tree relative_poses
    method_scale <> OutOfFuel.
Proof.
  unfold concatenate_relative_poses.
  destruct minimal_tree as [|pair0 pairs]; [discriminate|].
  destruct (dict_get pair_eqb relative_poses pair0); [|discriminate].
  apply concatenate_loop_fuel. simpl. lia.
Qed.

Lemma path_estimate_fuel (view1 view2 w : View) :
  path_estimate geo est proc intrinsics landmarks method th method_scale
    verbose view1 view2 w <> OutOfFuel.
Proof.
  unfold path_estimate.
  apply obind_fuel; [apply of_result_fuel | intros rps].
  apply obind_fuel; [apply concatenate_relative_poses_fuel | intros [st l]].
  apply obind_fuel; [apply of_result_fuel | intros p]. discriminate.
Qed.

Lemma path_estimates_fuel (view1 view2 : View) (triangles : list View) :
  path_estimates S P geo est proc intrinsics landmarks method th
    method_scale verbose view1 view2 triangles <> OutOfFuel.
Proof.
  induction triangles as [|w ws IH]; simpl; [discriminate|].
  apply obind_fuel; [apply path_estimate_fuel | intros [[R t] l]].
  apply obind_fuel; [exact IH | intros [e l']]. discriminate.
Qed.

Lemma robust_pair_fuel (G : Graph nat) (view1 view2 : View) :
  robust_pair geo est proc G intrinsics landmarks method th max_paths
    method_scale verbose view1 view2 <> OutOfFuel.
Proof.
  unfold robust_pair.
  apply obind_fuel; [apply of_result_fuel | intros rps].
  apply obind_fuel; [apply of_result_fuel | intros paths].
  apply obind_fuel; [apply of_result_fuel | intros direct].
  apply obind_fuel; [apply path_estimates_fuel | intros [ests logs]].
  apply obind_fuel; [apply of_result_fuel | intros [[pts1 pts2] idxs]].
  do 7 (apply obind_fuel; [apply of_result_fuel | intros ?]).
  discriminate.
Qed.

Lemma compute_relative_poses_robust_fuel (views : list View)
  (view_tree : list Pair) :
  compute_relative_poses_robust geo est proc views view_tree intrinsics
    landmarks method th max_paths method_scale verbose <> OutOfFuel.
Proof.
  unfold compute_relative_poses_robust.
  apply obind_fuel; [apply of_result_fuel | intros G].
  generalize (@nil (Pair * relative_pose S)) (@nil notice).
  induction view_tree as [|[v1 v2] vt IH]; intros rps log; simpl;
    [discriminate|].
  apply obind_fuel; [apply robust_pair_fuel | intros [rp n]]. apply IH.
Qed.

(** The estimates collected along the paths, in the order of the paths. *)
Lemma path_estimates_spec (view1 view2 : View) (triangles : list View) :
  forall ests logs,
    path_estimates S P geo est proc intrinsics landmarks method th
      method_scale verbose view1 view2 triangles = Returned (ests, logs) ->
    Forall2 (fun w e =>
               exists l,
                 path_estimate geo est proc intrinsics landmarks method th
                   method_scale verbose view1 view2 w
                 = Returned (fst e, snd e, l))
            triangles ests.
Proof.
  induction triangles as [|w ws IH]; intros ests logs H; simpl in H.
  - inversion H; subst. constructor.
  - step_returned H x Hx. destruct x as [[R t] l].
    step_returned H y Hy. destruct y as [ests' logs'].
    inversion H; subst. constructor.
    + exists l. exact Hx.
    + eapply IH. exact Hy.
Qed.

(** What the body of the loop returns for one pair. *)
Lemma robust_pair_spec (G : Graph nat) (view1 view2 : View)
  (rp : relative_pose S) (notices : list notice) :
  (0 <= max_paths)%Z ->
  robust_pair geo est proc G intrinsics landmarks method th max_paths
    method_scale verbose view1 view2 = Returned (rp, notices) ->
  exists direct_poses direct ests,
    compute_relative_poses geo [(view1, view2)] intrinsics landmarks method
      th verbose = inr direct_poses /\
    dict_get pair_eqb direct_poses (view1, view2) = Some direct /\
    Forall2 (fun w e =>
               exists l,
                 path_estimate geo est proc intrinsics landmarks method th
                   method_scale verbose view1 view2 w
                 = Returned (fst e, snd e, l))
            (firstn (Z.to_nat max_paths) (two_hop_paths G view1 view2))
            ests /\
    rp_Rd rp = mean_mat3 (rp_Rd direct :: map fst ests) /\
    rp_td rp = mean_vec3 (rp_td direct :: map snd ests) /\
    (firstn (Z.to_nat max_paths) (two_hop_paths G view1 view2) = [] ->
     In (NoOtherWay view1 view2) notices).
Proof.
  intros Hmax H. unfold robust_pair in H.
  step_returned H direct_poses Hd.
  step_returned H paths Hp.
  step_returned H direct Hdir.
  step_returned H x Hx. destruct x as [ests logs].
  step_returned H y Hy. destruct y as [[pts1 pts2] idxs].
  step_returned H i1 Hi1. step_returned H i2 Hi2.
  step_returned H u1 Hu1. step_returned H u2 Hu2.
  step_returned H F HF. step_returned H tri Htri.
  step_returned H z Hz. inversion H; subst. clear H. simpl.
  assert (Hpaths : paths = two_hop_paths G view1 view2).
  { unfold all_simple_paths_3 in Hp.
    destruct (negb (mem view1 (g_nodes G))); [discriminate|].
    destruct (negb (mem view2 (g_nodes G))); [discriminate|].
    inversion Hp. reflexivity. }
  subst paths.
  destruct (slice_to_firstn max_paths (two_hop_paths G view1 view2) Hmax)
    as [Hslice _].
  rewrite Hslice in *.
  exists direct_poses, direct, ests.
  split; [exact Hd|].
  split.
  { destruct (dict_get pair_eqb direct_poses (view1, view2));
      simpl in Hdir; inversion Hdir; reflexivity. }
  split; [eapply path_estimates_spec; exact Hx|].
  split; [reflexivity|]. split; [reflexivity|].
  intros E. rewrite E. simpl. left. reflexivity.
Qed.

Lemma pair_eq_dec (p q : Pair) : {p = q} + {p <> q}.
Proof. decide equality; apply Nat.eq_dec. Qed.

(** The loop over the view tree stores, for every pair of the tree, what
    the body returned for that pair, and keeps what the body printed. *)
Lemma compute_relative_poses_robust_loop_spec (G : Graph nat)
  (view_tree : list Pair) :
  forall rps0 log0 rps log,
    compute_relative_poses_robust_loop S P geo est proc G view_tree
      intrinsics landmarks method th max_paths method_scale verbose rps0
      log0 = Returned (rps, log) ->
    (forall v1 v2, In (v1, v2) view_tree ->
       exists rp notices,
         robust_pair geo est proc G intrinsics landmarks method th
           max_paths method_scale verbose v1 v2 = Returned (rp, notices) /\
         dict_get pair_eqb rps (v1, v2) = Some rp /\
         incl notices log) /\
    (forall k, ~ In k view_tree ->
               dict_get pair_eqb rps k = dict_get pair_eqb rps0 k) /\
    incl log0 log.
Proof.
  induction view_tree as [|[a b] vt IH]; intros rps0 log0 rps log H;
    simpl in H.
  - inversion H; subst. split; [intros ? ? []|]. split; [reflexivity|].
    apply incl_refl.
  - step_returned H x Hx. destruct x as [rp n].
    apply IH in H. destruct H as (Hall & Hkeep & Hlog).
    split; [|split].
    + intros v1 v2 Hin.
      destruct (in_dec pair_eq_dec (v1, v2) vt) as [Hvt | Hvt];
        [apply Hall; exact Hvt|].
      destruct Hin as [E | Hin]; [|contradiction]. inversion E; subst.
      exists rp, n. split; [exact Hx|]. split.
      * rewrite (Hkeep _ Hvt).
        apply (dict_get_set_same pair_eqb pair_eqb_eq).
      * intros y Hy. apply Hlog, in_or_app. right. exact Hy.
    + intros k Hk. rewrite Hkeep by (intros Hin; apply Hk; right; exact Hin).
      apply (dict_get_set_other pair_eqb pair_eqb_eq).
      intros E. apply Hk. left. exact E.
    + intros y Hy. apply Hlog, in_or_app. left. exact Hy.
Qed.

(** C5. The robust estimator never runs out of passes. When it returns,
    then for every pair [(view1, view2)] of the view tree there are the
    direct estimate of the pair and one estimate for each of the first
    [max_paths] two-hop paths [view1, w, view2] of the view graph, in the
    order networkx yields them, and the stored rotation and translation are
    the component-wise means of the direct estimate followed by the path
    estimates. With no such path the stored rotation and translation are
    the direct estimate, and the notice that there is no other way is
    printed. *)
Theorem robust_pose_is_mean (views : list View) (view_tree : list Pair) :
  (0 <= max_paths)%Z ->
  (forall x : S, sdiv S x (sofnat S 1) = x) ->
  compute_relative_poses_robust geo est proc views view_tree intrinsics
    landmarks method th max_paths method_scale verbose <> OutOfFuel /\
  forall relative_poses log,
    compute_relative_poses_robust geo est proc views view_tree intrinsics
      landmarks method th max_paths method_scale verbose
    = Returned (relative_poses, log) ->
    exists G,
      build_view_graph views landmarks = inr G /\
      forall view1 view2, In (view1, view2) view_tree ->
        let triangles :=
          firstn (Z.to_nat max_paths) (two_hop_paths G view1 view2) in
        exists direct_poses direct ests rp,
          compute_relative_poses geo [(view1, view2)] intrinsics landmarks
            method th verbose = inr direct_poses /\
          dict_get pair_eqb direct_poses (view1, view2) = Some direct /\
          (Z.of_nat (length triangles) <= max_paths)%Z /\
          Forall2 (fun w e =>
                     exists l,
                       path_estimate geo est proc intrinsics landmarks
                         method th method_scale verbose view1 view2 w
                       = Returned (fst e, snd e, l))
                  triangles ests /\
          dict_get pair_eqb relative_poses (view1, view2) = Some rp /\
          rp_Rd rp = mean_mat3 (rp_Rd direct :: map fst ests) /\
          rp_td rp = mean_vec3 (rp_td direct :: map snd ests) /\
          (triangles = [] ->
           rp_Rd rp = rp_Rd direct /\ rp_td rp = rp_td direct /\
           In (NoOtherWay view1 view2) log).
Proof.
  intros Hmax Hdiv. split; [apply compute_relative_poses_robust_fuel|].
  intros relative_poses log H. unfold compute_relative_poses_robust in H.
  step_returned H G HG. exists G. split; [exact HG|].
  apply compute_relative_poses_robust_loop_spec in H.
  destruct H as (Hall & _ & _).
  intros view1 view2 Hin triangles.
  destruct (Hall view1 view2 Hin) as (rp & notices & Hpair & Hget & Hlog).
  destruct (robust_pair_spec G view1 view2 rp notices Hmax Hpair)
    as (direct_poses & direct & ests & Hd & Hdir & Hf & HR & Ht & Hn).
  exists direct_poses, direct, ests, rp.
  split; [exact Hd|]. split; [exact Hdir|]. split.
  { unfold triangles. rewrite length_firstn. lia. }
  split; [exact Hf|]. split; [exact Hget|]. split; [exact HR|].
  split; [exact Ht|].
  intros E. fold triangles in Hf, Hn. rewrite E in Hf.
  inversion Hf; subst. simpl in HR, Ht.
  rewrite HR, Ht, mean_mat3_one, mean_vec3_one by exact Hdiv.
  split; [reflexivity|]. split; [reflexivity|]. apply Hlog, Hn, E.
Qed.

End RobustFacts.

Lemma QScalar_div_one (x : Q) : sdiv QScalar x (sofnat QScalar 1) = x.
Proof.
  destruct x as [n d]. simpl. unfold Qdiv, Qmult, Qinv. simpl.
  rewrite Z.mul_1_r, Pos.mul_1_r. reflexivity.
Qed.

Lemma robust_Q_triangle :
  robust_Q [0; 1; 2] [(0, 2)] = Returned robust_triangle.
Proof. vm_compute. reflexivity. Qed.

Lemma robust_Q_two_views :
  robust_Q [0; 2] [(0, 2)] = Returned robust_two_views.
Proof. vm_compute. reflexivity. Qed.

(** The pair (0, 2) in the rig of three views, where the path through
    view 1 is averaged with the direct estimate, and in the rig of the two
    views 0 and 2, where there is no path. *)
Lemma robust_pose_is_mean_witness :
  (0 <= 5)%Z /\
  (forall x : Q, sdiv QScalar x (sofnat QScalar 1) = x) /\
  robust_Q [0; 1; 2] [(0, 2)] = Returned robust_triangle /\
  (exists direct (ests : list (mat3 QScalar * vec3 QScalar)) rp,
     length ests = 1 /\
     dict_get pair_eqb (fst robust_triangle) (0, 2) = Some rp /\
     rp_td rp = mean_vec3 (rp_td direct :: map snd ests) /\
     (vx (rp_td rp) == -2)%Q /\ (vy (rp_td rp) == 1)%Q) /\
  robust_Q [0; 2] [(0, 2)] = Returned robust_two_views /\
  (exists direct rp,
     dict_get pair_eqb (fst robust_two_views) (0, 2) = Some rp /\
     rp_Rd rp = rp_Rd direct /\ rp_td rp = rp_td direct /\
     In (NoOtherWay 0 2) (snd robust_two_views)).
Proof.
  assert (Hmax : (0 <= 5)%Z) by lia.
  split; [exact Hmax|]. split; [exact QScalar_div_one|].
  split; [exact robust_Q_triangle|]. split; [|split].
  - destruct (proj2 (robust_pose_is_mean QScalar nat sample_geometry
                       (reported_scale 1) (reported_procrustes 1)
                       sample_intrinsics triangle_store "8point" 1%Q 5%Z
                       "cross-ratios" 0%Z [0; 1; 2] [(0, 2)] Hmax
                       QScalar_div_one)
                    (fst robust_triangle) (snd robust_triangle)
                    robust_Q_triangle) as (G & HG & Hall).
    assert (HG' : build_view_graph [0; 1; 2] triangle_store
                  = inr (mkGraph [0; 1; 2]
                           [((0, 1), 9); ((0, 2), 9); ((1, 2), 9)]))
      by (vm_compute; reflexivity).
    rewrite HG' in HG. injection HG as <-.
    destruct (Hall 0 2 (or_introl eq_refl))
      as (dp & direct & ests & rp & _ & _ & _ & Hf & Hget & _ & Ht & _).
    exists direct, ests, rp. split.
    { change (firstn (Z.to_nat 5) (two_hop_paths _ 0 2)) with [1] in Hf.
      inversion Hf as [|? ? ? ? _ Hf']; subst.
      inversion Hf'; subst. reflexivity. }
    split; [exact Hget|]. split; [exact Ht|].
    simpl in Hget. injection Hget as <-. split; reflexivity.
  - exact robust_Q_two_views.
  - destruct (proj2 (robust_pose_is_mean QScalar nat sample_geometry
                       (reported_scale 1) (reported_procrustes 1)
                       sample_intrinsics triangle_store "8point" 1%Q 5%Z
                       "cross-ratios" 0%Z [0; 2] [(0, 2)] Hmax
                       QScalar_div_one)
                    (fst robust_two_views) (snd robust_two_views)
                    robust_Q_two_views) as (G & HG & Hall).
    assert (HG' : build_view_graph [0; 2] triangle_store
                  = inr (mkGraph [0; 2] [((0, 2), 9)]))
      by (vm_compute; reflexivity).
    rewrite HG' in HG. injection HG as <-.
    destruct (Hall 0 2 (or_introl eq_refl))
      as (dp & direct & ests & rp & _ & _ & _ & _ & Hget & _ & _ & Hz).
    destruct (Hz eq_refl) as (HR & Ht & Hn).
    exists direct, rp.
    split; [exact Hget|]. split; [exact HR|]. split; [exact Ht | exact Hn].
Defined.

(** * Further properties of the code *)

(** ** verify_view_tree *)

(** The validator accepts exactly the edge lists that are not empty, have
    no directed cycle, and whose named views are pairwise connected when
    the direction of the edges is ignored. Nothing asks for one parent per
    view, so an acyclic graph that is not a tree can be accepted. *)
Theorem verify_view_tree_accepts_exactly (T : list Pair) :
  (verify_view_tree T = true <->
   T <> [] /\ ~ has_directed_cycle T /\
   forall u w, endpoint T u -> endpoint T w -> connected T u w) /\
  (forall v, In (v, v) T -> verify_view_tree T = false) /\
  (forall u w, In (u, w) T -> In (w, u) T -> verify_view_tree T = false).
Proof.
  split; [|split].
  - rewrite verify_view_tree_spec. tauto.
  - intros v Hv. destruct (verify_view_tree T) eqn:E; [|reflexivity].
    apply verify_view_tree_spec in E. destruct E as (Hc & _). exfalso.
    apply Hc. exists v. apply t_step. exact Hv.
  - intros u w Huw Hwu. destruct (verify_view_tree T) eqn:E; [|reflexivity].
    apply verify_view_tree_spec in E. destruct E as (Hc & _). exfalso.
    apply Hc. exists u. eapply t_trans; apply t_step; eassumption.
Qed.

(** The verdict depends on the set of directed edges only: listing the
    edges in another order, or listing an edge twice, does not change it. *)
Theorem verify_view_tree_same_edges (T T' : list Pair) :
  (forall e, In e T <-> In e T') ->
  verify_view_tree T = verify_view_tree T'.
Proof.
  intros Hsame.
  assert (Hdir : forall A B : list Pair,
             (forall e, In e A <-> In e B) ->
             verify_view_tree A = true -> verify_view_tree B = true).
  { intros A B HAB HA. apply verify_view_tree_spec in HA.
    destruct HA as (Hc & Hne & Hall). apply verify_view_tree_spec.
    split; [|split].
    - intros [v Hv]. apply Hc. exists v.
      eapply walk_mono; [|exact Hv]. intros e. apply HAB.
    - intros ->. destruct A as [|e A]; [congruence|].
      apply (HAB e). left. reflexivity.
    - intros u w (e & He & Hu) (e' & He' & Hw).
      eapply connected_mono; [intros x; apply HAB|].
      apply Hall; [exists e | exists e']; split; auto; apply HAB; auto. }
  destruct (verify_view_tree T) eqn:E, (verify_view_tree T') eqn:E';
    try reflexivity.
  - apply (Hdir T T' Hsame) in E. congruence.
  - apply (Hdir T' T) in E'; [congruence|]. intros e. symmetry. apply Hsame.
Qed.

Lemma verify_view_tree_same_edges_witness :
  (forall e, In e [(0, 1); (1, 2)] <-> In e [(1, 2); (0, 1); (1, 2)]) /\
  verify_view_tree [(0, 1); (1, 2)]
  = verify_view_tree [(1, 2); (0, 1); (1, 2)].
Proof.
  assert (H : forall e, In e [(0, 1); (1, 2)]
                        <-> In e [(1, 2); (0, 1); (1, 2)])
    by (intros e; simpl; tauto).
  split; [exact H|].
  exact (verify_view_tree_same_edges _ _ H).
Defined.

(** ** build_view_graph: views without landmarks *)

Lemma build_view_graph_loop_missing {P} (landmarks : landmark_store P)
  (combos : list Pair) :
  forall G,
    (exists c, In c combos /\
               (dict_get Nat.eqb landmarks (fst c) = None \/
                dict_get Nat.eqb landmarks (snd c) = None)) ->
    exists v,
      (exists c, In c combos /\ (v = fst c \/ v = snd c)) /\
      dict_get Nat.eqb landmarks v = None /\
      build_view_graph_loop landmarks combos G = inl (KeyError_view v).
Proof.
  induction combos as [|[a b] combos IH]; intros G (c & Hc & Hmiss).
  - destruct Hc.
  - cbn [build_view_graph_loop]. unfold get_landmarks.
    destruct (dict_get Nat.eqb landmarks a) as [la|] eqn:Ea.
    + destruct (dict_get Nat.eqb landmarks b) as [lb|] eqn:Eb.
      * simpl.
        assert (Hrest : exists c, In c combos /\
                  (dict_get Nat.eqb landmarks (fst c) = None \/
                   dict_get Nat.eqb landmarks (snd c) = None)).
        { destruct Hc as [<- | Hc]; [|exists c; auto].
          simpl in Hmiss. destruct Hmiss; congruence. }
        match goal with
        | |- context [build_view_graph_loop landmarks combos ?G'] =>
            destruct (8 <? length (intersection (lm_timestamp la)
                                                (lm_timestamp lb)))
        end;
          match goal with
          | |- context [build_view_graph_loop landmarks combos ?G'] =>
              destruct (IH G' Hrest)
                as (v & (c' & Hc' & Hv) & Hnone & Hres)
          end;
          exists v;
          (split; [exists c'; split; [right; exact Hc' | exact Hv]|]);
          (split; [exact Hnone | exact Hres]).
      * simpl. exists b. split; [exists (a, b); simpl; auto|].
        split; [exact Eb | reflexivity].
    + simpl. exists a. split; [exists (a, b); simpl; auto|].
      split; [exact Ea | reflexivity].
Qed.

Lemma combinations2_covers {A} (l : list A) (v : A) :
  2 <= length l -> In v l ->
  exists c, In c (combinations2 l) /\ (v = fst c \/ v = snd c).
Proof.
  destruct l as [|a [|b l]]; simpl; try lia. intros _ [<- | Hv].
  - exists (a, b). split; [left; reflexivity | left; reflexivity].
  - exists (a, v). split; [|right; reflexivity].
    destruct Hv as [<- | Hv]; [left; reflexivity|].
    right. apply in_or_app. left. apply in_map. exact Hv.
Qed.

(** With fewer than two views there is no pair to look at: the graph has
    the views as nodes and no edge, and the landmark store is not read.
    With two or more views, a view that has no entry in the landmark store
    makes the function raise the [KeyError] of such a view. *)
Theorem build_view_graph_missing_view {P} (views : list View)
  (landmarks : landmark_store P) :
  (length views < 2 ->
   build_view_graph views landmarks
   = inr (mkGraph (fold_left add_node views []) [])) /\
  (2 <= length views ->
   (exists v, In v views /\ dict_get Nat.eqb landmarks v = None) ->
   exists v, In v views /\ dict_get Nat.eqb landmarks v = None /\
             build_view_graph views landmarks = inl (KeyError_view v)).
Proof.
  split.
  - intros Hlen. destruct views as [|a [|b l]]; simpl in Hlen; try lia;
      reflexivity.
  - intros Hlen (v & Hv & Hnone). unfold build_view_graph.
    destruct (combinations2_covers views v Hlen Hv) as (c & Hc & Hvc).
    destruct (build_view_graph_loop_missing landmarks (combinations2 views)
                (g_add_nodes_from (mkGraph [] []) views))
      as (v' & (c' & Hc' & Hv') & Hnone' & Hres).
    { exists c. split; [exact Hc|]. destruct Hvc as [<- | <-]; auto. }
    exists v'. split; [|split; [exact Hnone' | exact Hres]].
    destruct c' as [x y]. apply combinations2_In in Hc'. simpl in Hv'.
    destruct Hv' as [-> | ->]; tauto.
Qed.

Lemma build_view_graph_missing_view_witness :
  build_view_graph [7] sample_store = inr (mkGraph [7] []) /\
  exists v, In v [0; 1; 7] /\ dict_get Nat.eqb sample_store v = None /\
            build_view_graph [0; 1; 7] sample_store
            = inl (KeyError_view v).
Proof.
  split.
  - apply (proj1 (build_view_graph_missing_view [7] sample_store)).
    simpl. lia.
  - apply (proj2 (build_view_graph_missing_view [0; 1; 7] sample_store)).
    + simpl. lia.
    + exists 7. split; [simpl; auto | reflexivity].
Defined.

(** ** concatenate_relative_poses: which pair is adjacent *)

Lemma find_app {A} (f : A -> bool) (l l' : list A) :
  find f (l ++ l') =
  match find f l with
  | Some x => Some x
  | None => find f l'
  end.
Proof.
  induction l as [|a l IH]; simpl; [reflexivity|].
  destruct (f a); [reflexivity | exact IH].
Qed.

Lemma find_adjacent_pair_loop_choice (keys : list Pair) (pair : Pair) :
  forall acc,
    find_adjacent_pair_loop keys pair acc =
    match find (second_view_only pair) keys with
    | Some key => (Some key, true)
    | None =>
        (match find (in_pair (fst pair)) (rev keys) with
         | Some key => Some key
         | None => acc
         end, false)
    end.
Proof.
  induction keys as [|key keys IH]; intros acc; simpl; [reflexivity|].
  unfold second_view_only at 1. rewrite find_app. simpl.
  destruct (in_pair (fst pair) key) eqn:E0; simpl.
  - rewrite IH. destruct (find (second_view_only pair) keys);
      [reflexivity|].
    destruct (find (in_pair (fst pair)) (rev keys)); reflexivity.
  - destruct (in_pair (snd pair) key) eqn:E1; simpl; [reflexivity|].
    rewrite IH. destruct (find (second_view_only pair) keys);
      [reflexivity|].
    destruct (find (in_pair (fst pair)) (rev keys)); reflexivity.
Qed.

Lemma find_adjacent_pair_choice_eq {S : Scalar}
  (tp : dict Pair (triang_entry S)) (pair : Pair) :
  find_adjacent_pair tp pair =
  match find (second_view_only pair) (dict_keys tp) with
  | Some key => (Some key, true)
  | None => (find (in_pair (fst pair)) (rev (dict_keys tp)), false)
  end.
Proof.
  unfold find_adjacent_pair. rewrite find_adjacent_pair_loop_choice.
  destruct (find (second_view_only pair) (dict_keys tp)); [reflexivity|].
  destruct (find (in_pair (fst pair)) (rev (dict_keys tp))); reflexivity.
Qed.

Lemma find_adjacent_pair_none_iff {S : Scalar}
  (tp : dict Pair (triang_entry S)) (pair : Pair) :
  fst (find_adjacent_pair tp pair) = None <->
  forall key, In key (dict_keys tp) -> shares_view pair key = false.
Proof.
  rewrite find_adjacent_pair_choice_eq. split.
  - intros Hnone key Hkey.
    destruct (find (second_view_only pair) (dict_keys tp)) eqn:E2;
      [discriminate|].
    simpl in Hnone.
    pose proof (find_none _ _ E2 key Hkey) as H2.
    pose proof (find_none _ _ Hnone key (proj1 (in_rev _ _) Hkey)) as H1.
    unfold second_view_only in H2. unfold shares_view.
    rewrite H1 in *. simpl in *. exact H2.
  - intros Hall.
    destruct (find (second_view_only pair) (dict_keys tp)) as [k|] eqn:E2.
    + apply find_some in E2. destruct E2 as [Hk E2].
      specialize (Hall k Hk). unfold shares_view in Hall.
      unfold second_view_only in E2.
      apply orb_false_iff in Hall. destruct Hall as [H0 H1].
      rewrite H0, H1 in E2. discriminate.
    + simpl.
      destruct (find (in_pair (fst pair)) (rev (dict_keys tp))) as [k|] eqn:E1;
        [|reflexivity].
      apply find_some in E1. destruct E1 as [Hk E1].
      apply in_rev in Hk. specialize (Hall k Hk). unfold shares_view in Hall.
      rewrite E1 in Hall. discriminate.
Qed.

(** The adjacent pair is the first resolved pair that holds the second
    view of the pair and not the first, and the pair is then inverted. When
    no resolved pair is of that kind, it is the last resolved pair that
    holds the first view of the pair; when there is none either, the pair
    is unmatched. A pair is unmatched exactly when it shares no view with a
    resolved pair. *)
Theorem find_adjacent_pair_choice {S : Scalar}
  (tp : dict Pair (triang_entry S)) (pair : Pair) :
  (forall key,
      find (second_view_only pair) (dict_keys tp) = Some key ->
      find_adjacent_pair tp pair = (Some key, true)) /\
  (find (second_view_only pair) (dict_keys tp) = None ->
   find_adjacent_pair tp pair
   = (find (in_pair (fst pair)) (rev (dict_keys tp)), false)) /\
  (fst (find_adjacent_pair tp pair) = None <->
   forall key, In key (dict_keys tp) -> shares_view pair key = false).
Proof.
  split; [|split].
  - intros key Hkey. rewrite find_adjacent_pair_choice_eq, Hkey.
    reflexivity.
  - intros Hnone. rewrite find_adjacent_pair_choice_eq, Hnone.
    reflexivity.
  - apply find_adjacent_pair_none_iff.
Qed.

(** ** concatenate_relative_poses: what a returned result holds *)

Section DictMore.
Context {K V : Type}.
Variable keq : K -> K -> bool.
Hypothesis keq_eq : forall a b, keq a b = true <-> a = b.

Lemma dict_get_set_some (d : dict K V) (k k0 : K) (v : V) :
  dict_get keq d k0 <> None -> dict_get keq (dict_set keq d k v) k0 <> None.
Proof using keq_eq.
  intros H. destruct (keq k k0) eqn:E.
  - apply keq_eq in E. subst k0.
    rewrite (dict_get_set_same keq keq_eq). discriminate.
  - rewrite (dict_get_set_other keq keq_eq); [exact H|].
    intros ->. rewrite (proj2 (keq_eq k0 k0) eq_refl) in E. discriminate.
Qed.

Lemma dict_get_set_inv (d : dict K V) (k k0 : K) (v : V) :
  dict_get keq (dict_set keq d k v) k0 <> None ->
  k = k0 \/ dict_get keq d k0 <> None.
Proof using keq_eq.
  intros H. destruct (keq k k0) eqn:E.
  - left. apply keq_eq, E.
  - right. rewrite (dict_get_set_other keq keq_eq) in H; [exact H|].
    intros ->. rewrite (proj2 (keq_eq k0 k0) eq_refl) in E. discriminate.
Qed.
End DictMore.

Section ConcatenateMore.
Variable S : Scalar.
Variable est : list (vec3 S) -> list (vec3 S) -> result (S * S).
Variable proc :
  list (vec3 S) -> list (vec3 S) -> result (S * mat3 S * vec3 S * S).
Variable method : string.
Variable relative_poses : dict Pair (relative_pose S).

(** A property of the state that every step keeps is kept by a pass and by
    the loop. The step may use that its pair belongs to [U]. *)
Lemma run_pass_invariant (I : state S -> Prop) (U : list Pair) :
  (forall st curr adj inverse st' w,
      I st -> In curr U ->
      find_adjacent_pair (triang_points st) curr = (Some adj, inverse) ->
      resolve_pair S est proc method relative_poses st curr adj inverse
        = inr (st', w) ->
      I st') ->
  forall pairs st um log st' um' log',
    incl pairs U -> incl um U -> I st ->
    run_pass S est proc method relative_poses pairs st um log
      = inr (st', um', log') ->
    I st' /\ incl um' U.
Proof.
  intros Hstep.
  induction pairs as [|curr pairs IH];
    intros st um log st' um' log' Hp Hu HI H; simpl in H.
  - inversion H; subst. split; assumption.
  - assert (Hc : In curr U) by (apply Hp; left; reflexivity).
    assert (Hp' : incl pairs U) by (intros x Hx; apply Hp; right; exact Hx).
    destruct (find_adjacent_pair (triang_points st) curr)
      as [[adj|] inverse] eqn:Hadj.
    + destruct (resolve_pair S est proc method relative_poses st curr adj
                             inverse) as [e|[st1 w]] eqn:Hres;
        [discriminate|].
      simpl in H. eapply IH; [exact Hp' | exact Hu | | exact H].
      eapply Hstep; eassumption.
    + eapply IH; [exact Hp' | | exact HI | exact H].
      destruct (existsb (pair_eqb curr) um); [exact Hu|].
      intros x Hx. apply in_app_or in Hx.
      destruct Hx as [Hx | [<- | []]]; [apply Hu, Hx | exact Hc].
Qed.

Lemma concatenate_loop_invariant (I : state S -> Prop) (U : list Pair) :
  (forall st curr adj inverse st' w,
      I st -> In curr U ->
      find_adjacent_pair (triang_points st) curr = (Some adj, inverse) ->
      resolve_pair S est proc method relative_poses st curr adj inverse
        = inr (st', w) ->
      I st') ->
  forall fuel pairs st log st' log',
    incl pairs U -> I st ->
    concatenate_loop S est proc fuel method relative_poses pairs st log
      = Returned (st', log') ->
    I st'.
Proof.
  intros Hstep.
  induction fuel as [|fuel IH]; intros pairs st log st' log' Hp HI H.
  - destruct pairs; [|discriminate]. inversion H; subst. exact HI.
  - destruct pairs as [|p pairs].
    + inversion H; subst. exact HI.
    + cbn [concatenate_loop] in H.
      destruct (run_pass S est proc method relative_poses (p :: pairs) st []
                         log) as [x|[[st1 um] log1]] eqn:Hpass;
        [discriminate|].
      destruct (length (p :: pairs) =? length um); [discriminate|].
      destruct (run_pass_invariant I U Hstep _ _ _ _ _ _ _ Hp
                  (fun x (Hx : In x []) => match Hx with end) HI Hpass)
        as [HI1 Hu1].
      eapply IH; eassumption.
Qed.

Lemma first_or_second_view (curr : Pair) (inverse : bool) :
  (fst curr = first_view curr inverse /\
   snd curr = second_view curr inverse) \/
  (fst curr = second_view curr inverse /\
   snd curr = first_view curr inverse).
Proof. destruct inverse; simpl; auto. Qed.

Lemma result_inv_step (tree : list Pair) (st st' : state S)
  (curr adj : Pair) (inverse : bool) (w : list notice) :
  result_inv tree relative_poses st -> In curr tree ->
  find_adjacent_pair (triang_points st) curr = (Some adj, inverse) ->
  resolve_pair S est proc method relative_poses st curr adj inverse
    = inr (st', w) ->
  result_inv tree relative_poses st'.
Proof.
  intros [Hkeys Hviews] Hcurr _ Hres.
  apply resolve_pair_inv in Hres.
  destruct Hres as (p1 & rp & a & c1 & c2 & s & sd &
                    Hp1 & Hrp & _ & _ & -> & _).
  assert (Hfirst : dict_get Nat.eqb (poses st) (first_view curr inverse)
                   <> None) by congruence.
  split.
  - intros key Hkey. apply place_keys in Hkey.
    rewrite place_poses, place_triang_points. cbv zeta.
    destruct (pair_eq_dec key curr) as [-> | Hne].
    + split; [exact Hcurr|].
      assert (H1 : dict_get Nat.eqb
                     (dict_set Nat.eqb (poses st) (second_view curr inverse)
                        (mkPose
                           (mat_mul (fst (edge_pose rp inverse))
                              (mat_map (to_float32 S) (pose_R p1)))
                           (vec_add
                              (mat_vec (fst (edge_pose rp inverse))
                                 (vec_map (to_float32 S) (pose_t p1)))
                              (scale_vec s (snd (edge_pose rp inverse))))
                           s (Some sd)))
                     (first_view curr inverse) <> None)
        by (apply (dict_get_set_some Nat.eqb Nat.eqb_eq); exact Hfirst).
      assert (H2 : dict_get Nat.eqb
                     (dict_set Nat.eqb (poses st) (second_view curr inverse)
                        (mkPose
                           (mat_mul (fst (edge_pose rp inverse))
                              (mat_map (to_float32 S) (pose_R p1)))
                           (vec_add
                              (mat_vec (fst (edge_pose rp inverse))
                                 (vec_map (to_float32 S) (pose_t p1)))
                              (scale_vec s (snd (edge_pose rp inverse))))
                           s (Some sd)))
                     (second_view curr inverse) <> None)
        by (rewrite (dict_get_set_same Nat.eqb Nat.eqb_eq); discriminate).
      destruct (first_or_second_view curr inverse) as [[E1 E2] | [E1 E2]];
        rewrite E1, E2; (split; [assumption|]); (split; [assumption|]);
        rewrite <- ?E1, <- ?E2;
        eexists rp, _; (split; [exact Hrp|]);
        (split; [apply (dict_get_set_same pair_eqb pair_eqb_eq)|]);
        simpl; (split; [reflexivity | apply length_map]).
    + destruct Hkey as [Hkey | Hkey]; [|contradiction].
      destruct (Hkeys key Hkey) as (Ht & Hf & Hs & rp' & e' & Hr' & He' & Hx).
      split; [exact Ht|].
      split; [apply (dict_get_set_some Nat.eqb Nat.eqb_eq); exact Hf|].
      split; [apply (dict_get_set_some Nat.eqb Nat.eqb_eq); exact Hs|].
      exists rp', e'. split; [exact Hr'|]. split; [|exact Hx].
      rewrite (dict_get_set_other pair_eqb pair_eqb_eq); [exact He'|].
      intros E. apply Hne. symmetry. exact E.
  - intros v Hv. rewrite place_poses in Hv.
    apply (dict_get_set_inv Nat.eqb Nat.eqb_eq) in Hv.
    destruct Hv as [<- | Hv].
    + exists curr. split; [apply place_keys; right; reflexivity|].
      apply in_pair_iff. destruct inverse; simpl; auto.
    + destruct (Hviews v Hv) as (key & Hkey & Hin).
      exists key. split; [apply place_keys; left; exact Hkey | exact Hin].
Qed.

Lemma result_inv_initial (pair0 : Pair) (rest : list Pair)
  (rp0 : relative_pose S) :
  dict_get pair_eqb relative_poses pair0 = Some rp0 ->
  result_inv (pair0 :: rest) relative_poses (initial_state pair0 rp0).
Proof.
  intros Hrp0. unfold result_inv. split.
  - intros key Hkey. simpl in Hkey. destruct Hkey as [<- | []].
    split; [left; reflexivity|].
    unfold initial_state. cbn [poses triang_points]. split.
    { apply (dict_get_set_some Nat.eqb Nat.eqb_eq).
      rewrite (dict_get_set_same Nat.eqb Nat.eqb_eq). discriminate. }
    split.
    { rewrite (dict_get_set_same Nat.eqb Nat.eqb_eq). discriminate. }
    exists rp0, (mkTriang (rp_triang_points rp0) (rp_timestamps rp0)).
    split; [exact Hrp0|]. simpl. rewrite pair_eqb_refl. auto.
  - intros v Hv. exists pair0. split; [left; reflexivity|].
    unfold initial_state in Hv. cbn [poses] in Hv.
    apply (dict_get_set_inv Nat.eqb Nat.eqb_eq) in Hv.
    apply in_pair_iff. destruct Hv as [<- | Hv]; [right; reflexivity|].
    apply (dict_get_set_inv Nat.eqb Nat.eqb_eq) in Hv.
    destruct Hv as [<- | Hv]; [left; reflexivity|].
    simpl in Hv. contradiction.
Qed.

(** When [concatenate_relative_poses] returns, the two dictionaries cover
    the tree and nothing else: a view has a pose exactly when it belongs
    to a pair of the tree, and the triangulated points have an entry
    exactly for the pairs of the tree. The entry of a pair has the
    timestamps of the relative pose of that pair and as many points. *)
Theorem returned_dictionaries_cover_tree (minimal_tree : list Pair)
  (st : state S) (log : list notice) :
  concatenate_relative_poses S est proc minimal_tree relative_poses method
    = Returned (st, log) ->
  (forall v, dict_get Nat.eqb (poses st) v <> None <->
             endpoint minimal_tree v) /\
  (forall e, In e (dict_keys (triang_points st)) <-> In e minimal_tree) /\
  (forall e, In e minimal_tree ->
     exists rp entry,
       dict_get pair_eqb relative_poses e = Some rp /\
       dict_get pair_eqb (triang_points st) e = Some entry /\
       te_timestamps entry = rp_timestamps rp /\
       length (te_triang_points entry) = length (rp_triang_points rp)).
Proof.
  intros H. pose proof H as H0. unfold concatenate_relative_poses in H.
  destruct minimal_tree as [|pair0 rest]; [discriminate|].
  destruct (dict_get pair_eqb relative_poses pair0) as [rp0|] eqn:Hrp0;
    [|discriminate].
  assert (Hinv : result_inv (pair0 :: rest) relative_poses st).
  { eapply (concatenate_loop_invariant
              (result_inv (pair0 :: rest) relative_poses) (pair0 :: rest));
      [| |apply result_inv_initial; exact Hrp0 | exact H].
    - intros st1 curr adj inverse st2 w HI Hc Hadj Hres.
      eapply result_inv_step; eassumption.
    - intros x Hx. right. exact Hx. }
  assert (Hall : forall e, In e (pair0 :: rest) ->
                           In e (dict_keys (triang_points st))).
  { intros e He. eapply concatenate_loop_keys; [exact H|].
    destruct He as [<- | He]; [right; simpl; auto | left; exact He]. }
  destruct Hinv as [Hkeys Hviews]. split; [|split].
  - intros v. split.
    + intros Hv. destruct (Hviews v Hv) as (key & Hkey & Hin).
      exists key. split; [apply Hkeys, Hkey | apply in_pair_iff, Hin].
    + intros (e & He & Hv).
      destruct (Hkeys e (Hall e He)) as (_ & Hf & Hs & _).
      destruct Hv as [-> | ->]; assumption.
  - intros e. split; [intros He; apply Hkeys, He | apply Hall].
  - intros e He. destruct (Hkeys e (Hall e He)) as (_ & _ & _ & Hx).
    exact Hx.
Qed.

(** *** An unrecognised method *)

Lemma resolve_pair_unknown_method (st st' : state S) (curr adj : Pair)
  (inverse : bool) (w : list notice) :
  String.eqb method "cross-ratios" = false ->
  String.eqb method "procrustes" = false ->
  resolve_pair S est proc method relative_poses st curr adj inverse
    <> inr (st', w).
Proof.
  intros H1 H2 Hres. apply resolve_pair_inv in Hres.
  destruct Hres as (p1 & rp & a & c1 & c2 & s & sd & _ & _ & _ & He & _).
  unfold estimate_scale in He. rewrite H1, H2 in He. discriminate.
Qed.

Lemma run_pass_unknown_method (pairs : list Pair) :
  String.eqb method "cross-ratios" = false ->
  String.eqb method "procrustes" = false ->
  forall st um log st' um' log',
    run_pass S est proc method relative_poses pairs st um log
      = inr (st', um', log') ->
    st' = st /\ (pairs <> [] \/ um <> [] -> um' <> []).
Proof.
  intros H1 H2.
  induction pairs as [|curr pairs IH]; intros st um log st' um' log' H;
    simpl in H.
  - inversion H; subst. split; [reflexivity|]. intros [Hp | Hu]; congruence.
  - destruct (find_adjacent_pair (triang_points st) curr)
      as [[adj|] inverse].
    + destruct (resolve_pair S est proc method relative_poses st curr adj
                             inverse) as [e|[st1 w]] eqn:Hres;
        [discriminate|].
      exfalso. exact (resolve_pair_unknown_method _ _ _ _ _ _ H1 H2 Hres).
    + apply IH in H. destruct H as [-> Hne]. split; [reflexivity|].
      intros _. apply Hne. right.
      destruct (existsb (pair_eqb curr) um) eqn:E.
      * apply existsb_exists in E. destruct E as (k & Hk & _).
        intros ->. exact Hk.
      * destruct um; discriminate.
Qed.

Lemma concatenate_loop_unknown_method (fuel : nat) :
  String.eqb method "cross-ratios" = false ->
  String.eqb method "procrustes" = false ->
  forall pairs st log x,
    pairs <> [] ->
    concatenate_loop S est proc fuel method relative_poses pairs st log
      <> Returned x.
Proof.
  intros H1 H2.
  induction fuel as [|fuel IH]; intros pairs st log x Hne.
  - destruct pairs; [congruence | discriminate].
  - destruct pairs as [|p pairs]; [congruence|].
    cbn [concatenate_loop].
    destruct (run_pass S est proc method relative_poses (p :: pairs) st []
                       log) as [e|[[st1 um] log1]] eqn:Hpass;
      [discriminate|].
    destruct (length (p :: pairs) =? length um); [discriminate|].
    apply IH.
    apply (run_pass_unknown_method _ H1 H2) in Hpass.
    apply Hpass. left. discriminate.
Qed.

(** The method is looked at only when a pair is resolved. With a method
    other than 'cross-ratios' and 'procrustes', a tree of one pair still
    gives the seed, a tree of two or more pairs never gives a result, and
    a step whose look-ups succeed raises the [ValueError] that quotes the
    method. *)
Theorem unknown_method_is_found_late :
  String.eqb method "cross-ratios" = false ->
  String.eqb method "procrustes" = false ->
  (forall pair0 rp0,
      dict_get pair_eqb relative_poses pair0 = Some rp0 ->
      concatenate_relative_poses S est proc [pair0] relative_poses method
      = Returned (initial_state pair0 rp0, [])) /\
  (forall minimal_tree x,
      2 <= length minimal_tree ->
      concatenate_relative_poses S est proc minimal_tree relative_poses
        method <> Returned x) /\
  (forall st curr adj inverse anchor rp a p3d_adj_com p3d_com,
      dict_get Nat.eqb (poses st) (first_view curr inverse) = Some anchor ->
      dict_get pair_eqb relative_poses curr = Some rp ->
      dict_get pair_eqb (triang_points st) adj = Some a ->
      gather (te_triang_points a) (te_timestamps a)
             (intersection (te_timestamps a) (rp_timestamps rp))
        = inr p3d_adj_com ->
      gather (rp_triang_points rp) (rp_timestamps rp)
             (intersection (te_timestamps a) (rp_timestamps rp))
        = inr p3d_com ->
      resolve_pair S est proc method relative_poses st curr adj inverse
      = inl (ValueError ("Unrecognized method '" ++ method ++ "'"))).
Proof.
  intros H1 H2. split; [|split].
  - intros pair0 rp0 Hrp0. unfold concatenate_relative_poses.
    rewrite Hrp0. reflexivity.
  - intros tree x Hlen. unfold concatenate_relative_poses.
    destruct tree as [|pair0 [|p rest]]; simpl in Hlen; try lia.
    destruct (dict_get pair_eqb relative_poses pair0); [|discriminate].
    apply concatenate_loop_unknown_method; [exact H1 | exact H2|].
    discriminate.
  - intros st curr adj inverse anchor rp a c2 c1 Ha Hrp Hadj Hg2 Hg1.
    unfold resolve_pair. rewrite Ha. simpl. rewrite Hrp. simpl.
    rewrite Hadj. simpl. rewrite Hg2. simpl. rewrite Hg1. simpl.
    unfold estimate_scale. rewrite H1, H2. reflexivity.
Qed.

(** *** The error of line 303 *)

Lemma resolve_pair_not_runtime (st : state S) (curr adj : Pair)
  (inverse : bool) (e : exn) :
  (forall a b e, est a b = inl e -> not_runtime_error e) ->
  (forall a b e, proc a b = inl e -> not_runtime_error e) ->
  resolve_pair S est proc method relative_poses st curr adj inverse = inl e ->
  not_runtime_error e.
Proof.
  intros Hest Hproc H. unfold resolve_pair in H.
  destruct (dict_get Nat.eqb (poses st) (first_view curr inverse));
    simpl in H; [|inversion H; exact I].
  destruct (dict_get pair_eqb relative_poses curr) as [rp|];
    simpl in H; [|inversion H; exact I].
  destruct (dict_get pair_eqb (triang_points st) adj) as [a|];
    simpl in H; [|inversion H; exact I].
  assert (Hg : forall (p3d : list (vec3 S)) idx common e',
             gather p3d idx common = inl e' -> not_runtime_error e').
  { intros p3d idx common. induction common as [|i rest IH]; intros e' Hg;
      simpl in Hg; [discriminate|].
    destruct (index_of idx i); simpl in Hg; [|inversion Hg; exact I].
    destruct (nth_error p3d n); simpl in Hg; [|inversion Hg; exact I].
    destruct (gather p3d idx rest) as [e0|ps]; simpl in Hg;
      [|discriminate].
    inversion Hg; subst. apply IH. reflexivity. }
  destruct (gather (te_triang_points a) (te_timestamps a) _)
    as [e1|c2] eqn:Hg2; simpl in H.
  { inversion H; subst. eapply Hg. exact Hg2. }
  destruct (gather (rp_triang_points rp) (rp_timestamps rp) _)
    as [e1|c1] eqn:Hg1; simpl in H.
  { inversion H; subst. eapply Hg. exact Hg1. }
  destruct (estimate_scale S est proc method c1 c2) as [e1|[s sd]] eqn:He;
    simpl in H; [|discriminate].
  inversion H; subst. unfold estimate_scale in He.
  destruct (String.eqb method "cross-ratios").
  { eapply Hest. exact He. }
  destruct (String.eqb method "procrustes"); [|inversion He; exact I].
  destruct (proc c1 c2) as [e1|[[[s ?] ?] ?]] eqn:Hp; simpl in He.
  { inversion He; subst. eapply Hproc. exact Hp. }
  destruct (est c1 c2) as [e1|[? sd]] eqn:Hs; simpl in He; [|discriminate].
  inversion He; subst. eapply Hest. exact Hs.
Qed.

Lemma run_pass_not_runtime (pairs : list Pair) :
  (forall a b e, est a b = inl e -> not_runtime_error e) ->
  (forall a b e, proc a b = inl e -> not_runtime_error e) ->
  forall st um log e,
    run_pass S est proc method relative_poses pairs st um log = inl e ->
    not_runtime_error e.
Proof.
  intros Hest Hproc.
  induction pairs as [|curr pairs IH]; intros st um log e H; simpl in H;
    [discriminate|].
  destruct (find_adjacent_pair (triang_points st) curr) as [[adj|] inverse].
  - destruct (resolve_pair S est proc method relative_poses st curr adj
                           inverse) as [e1|[st1 w]] eqn:Hres; simpl in H.
    + inversion H; subst. eapply resolve_pair_not_runtime; eassumption.
    + eapply IH. exact H.
  - eapply IH. exact H.
Qed.

Lemma run_pass_nodup (pairs : list Pair) :
  forall st um log st' um' log',
    NoDup um ->
    run_pass S est proc method relative_poses pairs st um log
      = inr (st', um', log') ->
    NoDup um'.
Proof.
  induction pairs as [|curr pairs IH]; intros st um log st' um' log' Hnd H;
    simpl in H.
  - inversion H; subst. exact Hnd.
  - destruct (find_adjacent_pair (triang_points st) curr)
      as [[adj|] inverse].
    + destruct (resolve_pair S est proc method relative_poses st curr adj
                             inverse) as [e|[st1 w]]; [discriminate|].
      eapply IH; [exact Hnd | exact H].
    + eapply IH; [|exact H].
      destruct (existsb (pair_eqb curr) um) eqn:E; [exact Hnd|].
      apply NoDup_app; [exact Hnd | repeat constructor; simpl; tauto|].
      intros x Hx [Hcx | []]. subst x.
      assert (existsb (pair_eqb curr) um = true); [|congruence].
      apply existsb_exists. exists curr. split; [exact Hx|].
      apply pair_eqb_refl.
Qed.

(** A pass shortens the work-list when one of its pairs shares a view
    with a pair that is already resolved. *)
Lemma run_pass_shortens (pairs : list Pair) :
  forall st um log st' um' log',
    run_pass S est proc method relative_poses pairs st um log
      = inr (st', um', log') ->
    (exists e key, In e pairs /\ In key (dict_keys (triang_points st)) /\
                   shares_view e key = true) ->
    length um' < length um + length pairs.
Proof.
  induction pairs as [|curr pairs IH];
    intros st um log st' um' log' H (e & key & He & Hkey & Hsh);
    simpl in H.
  - destruct He.
  - destruct (find_adjacent_pair (triang_points st) curr)
      as [[adj|] inverse] eqn:Hadj.
    + destruct (resolve_pair S est proc method relative_poses st curr adj
                             inverse) as [x|[st1 w]]; [discriminate|].
      simpl in H. apply run_pass_length in H. simpl. lia.
    + assert (Hnone : fst (find_adjacent_pair (triang_points st) curr)
                      = None) by (rewrite Hadj; reflexivity).
      rewrite find_adjacent_pair_none_iff in Hnone.
      destruct He as [<- | He].
      { rewrite (Hnone key Hkey) in Hsh. discriminate. }
      apply IH in H; [|exists e, key; auto].
      destruct (existsb (pair_eqb curr) um); simpl;
        [|rewrite length_app in H; simpl in H]; lia.
Qed.

(** When every pair of the tree is resolved or pending and the root
    belongs to a resolved pair, a view that is connected to the root
    belongs to a resolved pair, or some pending pair shares a view with a
    resolved pair. *)
Lemma connected_view_is_reached (T keys pending : list Pair)
  (root v : View) :
  (exists key, In key keys /\ in_pair root key = true) ->
  (forall e, In e T -> In e keys \/ In e pending) ->
  connected T root v ->
  (exists key, In key keys /\ in_pair v key = true) \/
  (exists e key, In e pending /\ In key keys /\ shares_view e key = true).
Proof.
  intros Hroot Hcover Hconn. unfold connected in Hconn.
  apply clos_rst_rstn1_iff in Hconn.
  induction Hconn as [|y z Hstep _ IH]; [left; exact Hroot|].
  destruct IH as [(key & Hkey & Hin) | Hp]; [|right; exact Hp].
  assert (Hedge : exists e, In e T /\
                            ((y = fst e /\ z = snd e) \/
                             (y = snd e /\ z = fst e))).
  { destruct Hstep as [H | H]; [exists (y, z) | exists (z, y)];
      simpl; auto. }
  destruct Hedge as (e & He & Hyz).
  destruct (Hcover e He) as [Hk | Hp].
  - left. exists e. split; [exact Hk|]. apply in_pair_iff.
    destruct Hyz as [[_ ->] | [_ ->]]; auto.
  - right. exists e, key. split; [exact Hp|]. split; [exact Hkey|].
    unfold shares_view. apply orb_true_iff.
    destruct Hyz as [[-> _] | [-> _]]; auto.
Qed.

(** The state in which the loop raises the error of line 303. *)
Lemma concatenate_loop_stuck (fuel : nat) :
  (forall a b e, est a b = inl e -> not_runtime_error e) ->
  (forall a b e, proc a b = inl e -> not_runtime_error e) ->
  forall pairs st log ps,
    concatenate_loop S est proc fuel method relative_poses pairs st log
      = Raised (RuntimeError ps) ->
    exists st1 : state S,
      (forall k, In k (dict_keys (triang_points st)) ->
                 In k (dict_keys (triang_points st1))) /\
      (forall e, In e pairs ->
                 In e ps \/ In e (dict_keys (triang_points st1))) /\
      ps <> [] /\ incl ps pairs /\ NoDup ps /\
      (forall e key, In e ps -> In key (dict_keys (triang_points st1)) ->
                     shares_view e key = false).
Proof.
  intros Hest Hproc.
  induction fuel as [|fuel IH]; intros pairs st log ps H.
  - destruct pairs; discriminate.
  - destruct pairs as [|p pairs]; [discriminate|].
    cbn [concatenate_loop] in H.
    destruct (run_pass S est proc method relative_poses (p :: pairs) st []
                       log) as [x|[[st1 um] log1]] eqn:Hpass.
    { inversion H; subst.
      apply (run_pass_not_runtime _ Hest Hproc) in Hpass.
      simpl in Hpass. contradiction. }
    pose proof (run_pass_keeps _ _ _ _ _ _ _ _ _ _ _ _ Hpass)
      as [Hkeys Hkeep].
    pose proof (run_pass_nodup _ _ _ _ _ _ _ (NoDup_nil _) Hpass) as Hnd.
    destruct (run_pass_invariant (fun _ => True) (p :: pairs)
                (fun _ _ _ _ _ _ _ _ _ _ => I) _ _ _ _ _ _ _
                (incl_refl _) (fun x (Hx : In x []) => match Hx with end)
                I Hpass) as [_ Hincl].
    destruct (length (p :: pairs) =? length um) eqn:E.
    + inversion H; subst ps. apply Nat.eqb_eq in E.
      destruct (proj2 (run_pass_length _ _ _ _ _ _ _ _ _ _ _ _ Hpass))
        as (Hum & Hst & _); [simpl in *; lia|].
      simpl in Hum. subst um st1.
      exists st. split; [auto|]. split; [auto|].
      split; [discriminate|]. split; [apply incl_refl|].
      split; [exact Hnd|].
      intros e key He Hkey.
      destruct (shares_view e key) eqn:Hsh; [|reflexivity].
      exfalso.
      assert (Hlt : length (p :: pairs) < length (@nil Pair)
                                          + length (p :: pairs)).
      { eapply run_pass_shortens; [exact Hpass|].
        exists e, key. auto. }
      simpl in Hlt. lia.
    + apply IH in H.
      destruct H as (st2 & Hk2 & Hc2 & Hne & Hi2 & Hnd2 & Hsh2).
      exists st2. split; [auto|]. split.
      { intros e He. destruct (Hkeep e (or_introl He)) as [Hu | Hk]; auto. }
      split; [exact Hne|].
      split; [intros x Hx; apply Hincl, Hi2, Hx|].
      split; [exact Hnd2 | exact Hsh2].
Qed.

Lemma concatenate_stuck (minimal_tree ps : list Pair) :
  (forall a b e, est a b = inl e -> not_runtime_error e) ->
  (forall a b e, proc a b = inl e -> not_runtime_error e) ->
  concatenate_relative_poses S est proc minimal_tree relative_poses method
    = Raised (RuntimeError ps) ->
  exists pair0 rest,
    minimal_tree = pair0 :: rest /\
    ps <> [] /\ incl ps rest /\ NoDup ps /\
    forall p v, In p ps -> in_pair v p = true ->
                ~ connected minimal_tree (fst pair0) v.
Proof.
  intros Hest Hproc H. unfold concatenate_relative_poses in H.
  destruct minimal_tree as [|pair0 rest]; [discriminate|].
  destruct (dict_get pair_eqb relative_poses pair0) as [rp0|];
    [|discriminate].
  apply (concatenate_loop_stuck _ Hest Hproc) in H.
  destruct H as (st1 & Hk & Hc & Hne & Hincl & Hnd & Hsh).
  exists pair0, rest. split; [reflexivity|]. split; [exact Hne|].
  split; [exact Hincl|]. split; [exact Hnd|].
  intros p v Hp Hv Hconn.
  assert (Hkey0 : In pair0 (dict_keys (triang_points st1)))
    by (apply Hk; simpl; auto).
  destruct (connected_view_is_reached (pair0 :: rest)
              (dict_keys (triang_points st1)) ps (fst pair0) v)
    as [(key & Hkey & Hin) | (e & key & He & Hkey & Hs)].
  - exists pair0. split; [exact Hkey0|]. apply in_pair_iff. auto.
  - intros e [<- | He]; [left; exact Hkey0|].
    destruct (Hc e He); auto.
  - exact Hconn.
  - pose proof (Hsh p key Hp Hkey) as Hno. unfold shares_view in Hno.
    apply orb_false_iff in Hno. destruct Hno as [H0 H1].
    apply in_pair_iff in Hv. apply in_pair_iff in Hin.
    unfold in_pair in H0, H1.
    apply orb_false_iff in H0. apply orb_false_iff in H1.
    destruct H0 as [H00 H01], H1 as [H10 H11].
    apply Nat.eqb_neq in H00, H01, H10, H11.
    destruct Hv as [-> | ->], Hin as [E | E]; congruence.
  - rewrite (Hsh e key He Hkey) in Hs. discriminate.
Qed.

(** The error of line 303 names pairs of the tree that are cut off from
    the root: no view of a named pair is connected to the first view of
    the tree, in whatever direction the edges are followed. Every such
    pair is named once. The estimators are taken not to raise a
    [RuntimeError] of their own. *)
Theorem stuck_pairs_are_cut_off (minimal_tree ps : list Pair) :
  (forall a b e, est a b = inl e -> not_runtime_error e) ->
  (forall a b e, proc a b = inl e -> not_runtime_error e) ->
  concatenate_relative_poses S est proc minimal_tree relative_poses method
    = Raised (RuntimeError ps) ->
  ps <> [] /\ NoDup ps /\
  forall p, In p ps ->
    In p (tl minimal_tree) /\
    forall root, hd_error minimal_tree = Some root ->
      ~ connected minimal_tree (fst root) (fst p) /\
      ~ connected minimal_tree (fst root) (snd p).
Proof.
  intros Hest Hproc H.
  destruct (concatenate_stuck _ _ Hest Hproc H)
    as (pair0 & rest & -> & Hne & Hincl & Hnd & Hcut).
  split; [exact Hne|]. split; [exact Hnd|].
  intros p Hp. split; [apply Hincl, Hp|].
  intros root Hroot. simpl in Hroot. inversion Hroot; subst root.
  split; apply (Hcut p _ Hp); apply in_pair_iff; auto.
Qed.

(** A tree that [verify_view_tree] accepts never runs into the error of
    line 303, whatever the relative poses are. *)
Theorem validated_tree_is_never_stuck (minimal_tree ps : list Pair) :
  (forall a b e, est a b = inl e -> not_runtime_error e) ->
  (forall a b e, proc a b = inl e -> not_runtime_error e) ->
  verify_view_tree minimal_tree = true ->
  concatenate_relative_poses S est proc minimal_tree relative_poses method
    <> Raised (RuntimeError ps).
Proof.
  intros Hest Hproc Hv H.
  destruct (concatenate_stuck _ _ Hest Hproc H)
    as (pair0 & rest & -> & Hne & Hincl & _ & Hcut).
  apply verify_view_tree_spec in Hv. destruct Hv as (_ & _ & Hall).
  destruct ps as [|p ps]; [congruence|].
  apply (Hcut p (fst p)); [left; reflexivity | apply in_pair_iff; auto|].
  apply Hall.
  - exists pair0. split; [left; reflexivity | left; reflexivity].
  - exists p. split; [right; apply Hincl; left; reflexivity|].
    left; reflexivity.
Qed.

End ConcatenateMore.

(** ** The further properties on the sample rigs *)

Lemma reported_scale_not_runtime (s : Q) :
  forall a b e, reported_scale s a b = inl e -> not_runtime_error e.
Proof. intros a b e H. discriminate H. Qed.

Lemma reported_procrustes_not_runtime (s : Q) :
  forall a b e, reported_procrustes s a b = inl e -> not_runtime_error e.
Proof. intros a b e H. discriminate H. Qed.

Lemma returned_dictionaries_cover_tree_witness :
  let st := final_state (run_Q 1 rigC_tree rigC_poses) in
  run_Q 1 rigC_tree rigC_poses = Returned (st, []) /\
  (forall v, dict_get Nat.eqb (poses st) v <> None <->
             endpoint rigC_tree v) /\
  (forall e, In e (dict_keys (triang_points st)) <-> In e rigC_tree).
Proof.
  intros st.
  assert (Hrun : run_Q 1 rigC_tree rigC_poses = Returned (st, []))
    by reflexivity.
  split; [exact Hrun|].
  destruct (returned_dictionaries_cover_tree QScalar (reported_scale 1)
              (reported_procrustes 1) "cross-ratios" rigC_poses rigC_tree
              st [] Hrun) as (Hv & He & _).
  split; [exact Hv | exact He].
Defined.

Lemma unknown_method_is_found_late_witness :
  String.eqb "median" "cross-ratios" = false /\
  String.eqb "median" "procrustes" = false /\
  concatenate_relative_poses QScalar (reported_scale 1)
    (reported_procrustes 1) [(0, 1)] rigC_poses "median"
  = Returned (rig_seed rigC_tree rigC_poses, []) /\
  forall x,
    concatenate_relative_poses QScalar (reported_scale 1)
      (reported_procrustes 1) rigC_tree rigC_poses "median" <> Returned x.
Proof.
  split; [reflexivity|]. split; [reflexivity|].
  destruct (unknown_method_is_found_late QScalar (reported_scale 1)
              (reported_procrustes 1) "median" rigC_poses eq_refl eq_refl)
    as (H1 & H2 & _).
  split.
  - apply (H1 (0, 1)). reflexivity.
  - intros x. apply H2. simpl. lia.
Defined.

Lemma stuck_pairs_are_cut_off_witness :
  run_Q 1 rigD_tree rigD_poses = Raised (RuntimeError [(5, 6)]) /\
  ~ connected rigD_tree 0 5 /\ ~ connected rigD_tree 0 6.
Proof.
  assert (Hrun : run_Q 1 rigD_tree rigD_poses
                 = Raised (RuntimeError [(5, 6)])) by reflexivity.
  split; [exact Hrun|].
  destruct (stuck_pairs_are_cut_off QScalar (reported_scale 1)
              (reported_procrustes 1) "cross-ratios" rigD_poses rigD_tree
              [(5, 6)] (reported_scale_not_runtime 1)
              (reported_procrustes_not_runtime 1) Hrun) as (_ & _ & Hcut).
  destruct (Hcut (5, 6) (or_introl eq_refl)) as [_ H].
  exact (H (0, 1) eq_refl).
Defined.

Lemma validated_tree_is_never_stuck_witness :
  verify_view_tree rigB_tree = true /\
  forall ps, run_Q 1 rigB_tree rigB_poses <> Raised (RuntimeError ps).
Proof.
  assert (Hv : verify_view_tree rigB_tree = true) by reflexivity.
  split; [exact Hv|]. intros ps.
  exact (validated_tree_is_never_stuck QScalar (reported_scale 1)
           (reported_procrustes 1) "cross-ratios" rigB_poses rigB_tree ps
           (reported_scale_not_runtime 1)
           (reported_procrustes_not_runtime 1) Hv).
Defined.

(** ** _common_landmarks and compute_relative_poses *)


Lemma index_of_In (l : list Timestamp) (x : Timestamp) :
  In x l -> index_of l x <> None.
Proof.
  induction l as [|y l IH]; simpl; [tauto|].
  intros [-> | H].
  - rewrite Nat.eqb_refl. discriminate.
  - destruct (y =? x); [discriminate|].
    destruct (index_of l x); [discriminate | tauto].
Qed.

Lemma rows_at_spec {A} (xs : list A) (idx common : list Timestamp) :
  forall rows,
    rows_at xs idx common = inr rows ->
    length rows = length common /\
    forall n i, nth_error common n = Some i ->
      exists k p, index_of idx i = Some k /\ nth_error xs k = Some p /\
                  nth_error rows n = Some p.
Proof.
  induction common as [|i rest IH]; intros rows H; simpl in H.
  - inversion H; subst. split; [reflexivity|].
    intros [|n] j Hn; discriminate.
  - destruct (index_of idx i) as [k|] eqn:Ek; [|discriminate]. simpl in H.
    destruct (nth_error xs k) as [p|] eqn:Ep; [|discriminate]. simpl in H.
    destruct (rows_at xs idx rest) as [e|ps]; [discriminate|]. simpl in H.
    inversion H; subst. destruct (IH ps eq_refl) as [Hlen Hrows].
    split; [simpl; congruence|].
    intros [|n] j Hn; simpl in Hn.
    + inversion Hn; subst. exists k, p. auto.
    + apply Hrows. exact Hn.
Qed.

(** A returned result pairs the image points of the two views landmark by
    landmark. Its timestamps are the distinct timestamps that both views
    have, at least one; the two point lists have one row per timestamp,
    and row [n] of each is the landmark stored at the first position where
    the view lists timestamp [n]. When both views have landmarks and share
    no timestamp the function raises a [ValueError]; a view without entry
    raises its [KeyError]. *)
Theorem common_landmarks_are_aligned {P} (view1 view2 : View)
  (landmarks : landmark_store P) :
  (forall pts1 pts2 idxs_common,
      _common_landmarks view1 view2 landmarks
        = inr (pts1, pts2, idxs_common) ->
      exists l1 l2,
        dict_get Nat.eqb landmarks view1 = Some l1 /\
        dict_get Nat.eqb landmarks view2 = Some l2 /\
        idxs_common <> [] /\ NoDup idxs_common /\
        (forall i, In i idxs_common <->
                   In i (lm_timestamp l1) /\ In i (lm_timestamp l2)) /\
        length pts1 = length idxs_common /\
        length pts2 = length idxs_common /\
        forall n i, nth_error idxs_common n = Some i ->
          exists k1 k2 p1 p2,
            index_of (lm_timestamp l1) i = Some k1 /\
            index_of (lm_timestamp l2) i = Some k2 /\
            nth_error (lm_landmarks l1) k1 = Some p1 /\
            nth_error (lm_landmarks l2) k2 = Some p2 /\
            nth_error pts1 n = Some p1 /\ nth_error pts2 n = Some p2) /\
  (forall l1 l2,
      dict_get Nat.eqb landmarks view1 = Some l1 ->
      dict_get Nat.eqb landmarks view2 = Some l2 ->
      (forall i, In i (lm_timestamp l1) -> ~ In i (lm_timestamp l2)) ->
      _common_landmarks view1 view2 landmarks
      = inl (ValueError "need at least one array to concatenate")) /\
  (dict_get Nat.eqb landmarks view1 = None ->
   _common_landmarks view1 view2 landmarks = inl (KeyError_view view1)) /\
  (dict_get Nat.eqb landmarks view1 <> None ->
   dict_get Nat.eqb landmarks view2 = None ->
   _common_landmarks view1 view2 landmarks = inl (KeyError_view view2)).
Proof.
  unfold _common_landmarks, get_landmarks. split; [|split; [|split]].
  - intros pts1 pts2 idxs H.
    destruct (dict_get Nat.eqb landmarks view1) as [l1|]; [|discriminate].
    destruct (dict_get Nat.eqb landmarks view2) as [l2|]; [|discriminate].
    simpl in H.
    destruct (rows_at (lm_landmarks l1) (lm_timestamp l1) _)
      as [e|rows1] eqn:H1; [discriminate|]. simpl in H.
    destruct rows1 as [|r1 rows1]; [discriminate|]. simpl in H.
    destruct (rows_at (lm_landmarks l2) (lm_timestamp l2) _)
      as [e|rows2] eqn:H2; [discriminate|]. simpl in H.
    destruct rows2 as [|r2 rows2]; [discriminate|]. simpl in H.
    inversion H; subst. clear H.
    apply rows_at_spec in H1. apply rows_at_spec in H2.
    destruct H1 as [Hl1 Hr1], H2 as [Hl2 Hr2].
    exists l1, l2. split; [reflexivity|]. split; [reflexivity|].
    split.
    { intros E. rewrite E in Hl1. discriminate. }
    split.
    { unfold intersection. apply NoDup_filter, set_of_NoDup. }
    split; [intros i; rewrite intersection_In; tauto|].
    split; [exact Hl1|]. split; [exact Hl2|].
    intros n i Hn.
    destruct (Hr1 n i Hn) as (k1 & p1 & Hk1 & Hp1 & Hn1).
    destruct (Hr2 n i Hn) as (k2 & p2 & Hk2 & Hp2 & Hn2).
    exists k1, k2, p1, p2. auto 10.
  - intros l1 l2 -> -> Hdisj. simpl.
    assert (E : intersection (lm_timestamp l1) (lm_timestamp l2) = []).
    { destruct (intersection (lm_timestamp l1) (lm_timestamp l2))
        as [|i rest] eqn:E; [reflexivity|].
      assert (Hi : In i (intersection (lm_timestamp l1) (lm_timestamp l2)))
        by (rewrite E; left; reflexivity).
      apply intersection_In in Hi. destruct Hi as [Hi1 Hi2].
      destruct (Hdisj i Hi1 Hi2). }
    rewrite E. reflexivity.
  - intros ->. reflexivity.
  - intros Hv1 ->. destruct (dict_get Nat.eqb landmarks view1);
      [reflexivity | contradiction].
Qed.

Section RelativePosesFacts.
Variable S : Scalar.
Variable P : Type.
Variable geo : Geometry S P.
Variable intrinsics : dict View (intrinsics_entry S).
Variable landmarks : landmark_store P.
Variable method : string.
Variable th : S.
Variable verbose : Z.

Lemma compute_relative_poses_loop_spec (view_tree : list Pair) :
  forall rps0 rps,
    compute_relative_poses_loop S P geo view_tree intrinsics landmarks
      method th verbose rps0 = inr rps ->
    (forall key, In key (dict_keys rps) <->
                 In key (dict_keys rps0) \/ In key view_tree) /\
    (forall key, ~ In key view_tree ->
                 dict_get pair_eqb rps key = dict_get pair_eqb rps0 key) /\
    (forall view1 view2, In (view1, view2) view_tree ->
       exists rp, dict_get pair_eqb rps (view1, view2) = Some rp /\
                  pair_estimate geo intrinsics landmarks method th view1 view2 rp).
Proof.
  induction view_tree as [|[a b] vt IH]; intros rps0 rps H; simpl in H.
  - inversion H; subst. split; [intros key; simpl; tauto|].
    split; [reflexivity | intros ? ? []].
  - destruct (_common_landmarks a b landmarks) as [e|[[pts1 pts2] idxs]]
      eqn:Hc; [discriminate|]. simpl in H.
    unfold get_intrinsics in H.
    destruct (dict_get Nat.eqb intrinsics a) as [i1|] eqn:Hi1;
      [|discriminate]. simpl in H.
    destruct (dict_get Nat.eqb intrinsics b) as [i2|] eqn:Hi2;
      [|discriminate]. simpl in H.
    destruct (compute_relative_pose geo pts1 pts2 (intr_K i1) (intr_dist i1)
                (intr_K i2) (intr_dist i2) method th)
      as [e|[[[[[Rd td] F] u1] u2] tri]] eqn:Hp; [discriminate|].
    simpl in H.
    destruct (_print_relative_pose_info S P geo F Rd td u1 u2 verbose)
      as [e|[]]; [discriminate|]. simpl in H.
    apply IH in H. destruct H as (Hkeys & Hkeep & Hall).
    assert (Hhere : pair_estimate geo intrinsics landmarks method th a b
                      (mkRelativePose F Rd td tri idxs)).
    { exists pts1, pts2, i1, i2, u1, u2. simpl. auto. }
    split; [|split].
    + intros key. rewrite Hkeys, dict_keys_set.
      destruct (existsb (fun k' => pair_eqb k' (a, b)) (dict_keys rps0))
        eqn:E.
      * apply existsb_exists in E. destruct E as (k & Hk & E).
        apply pair_eqb_eq in E. subst k. simpl.
        split; [tauto|]. intros [H | [<- | H]]; auto.
      * rewrite in_app_iff. simpl. tauto.
    + intros key Hkey. rewrite Hkeep by (intros Hin; apply Hkey; right; auto).
      apply (dict_get_set_other pair_eqb pair_eqb_eq).
      intros E. apply Hkey. left. exact E.
    + intros v1 v2 Hin.
      destruct (in_dec pair_eq_dec (v1, v2) vt) as [Hvt | Hvt];
        [apply Hall; exact Hvt|].
      destruct Hin as [E | Hin]; [|contradiction]. inversion E; subst.
      exists (mkRelativePose F Rd td tri idxs). split; [|exact Hhere].
      rewrite (Hkeep _ Hvt). apply (dict_get_set_same pair_eqb pair_eqb_eq).
Qed.

(** A returned dictionary has an entry exactly for the pairs of the view
    tree. The entry of a pair holds what the relative-pose routine gave on
    the common landmarks of the two views with their intrinsics, and the
    timestamps of those landmarks in the order of the points. *)
Theorem compute_relative_poses_entries (view_tree : list Pair)
  (relative_poses : dict Pair (relative_pose S)) :
  compute_relative_poses geo view_tree intrinsics landmarks method th
    verbose = inr relative_poses ->
  (forall key, In key (dict_keys relative_poses) <-> In key view_tree) /\
  (forall view1 view2, In (view1, view2) view_tree ->
     exists rp,
       dict_get pair_eqb relative_poses (view1, view2) = Some rp /\
       pair_estimate geo intrinsics landmarks method th view1 view2 rp /\
       rp_timestamps rp <> [] /\
       exists l1 l2,
         dict_get Nat.eqb landmarks view1 = Some l1 /\
         dict_get Nat.eqb landmarks view2 = Some l2 /\
         forall i, In i (rp_timestamps rp) <->
                   In i (lm_timestamp l1) /\ In i (lm_timestamp l2)).
Proof.
  intros H. unfold compute_relative_poses in H.
  apply compute_relative_poses_loop_spec in H.
  destruct H as (Hkeys & _ & Hall). split.
  - intros key. rewrite Hkeys. simpl. tauto.
  - intros v1 v2 Hin. destruct (Hall v1 v2 Hin) as (rp & Hget & Hest).
    exists rp. split; [exact Hget|]. split; [exact Hest|].
    destruct Hest as (pts1 & pts2 & i1 & i2 & u1 & u2 & Hc & _).
    unfold _common_landmarks, get_landmarks in Hc.
    destruct (dict_get Nat.eqb landmarks v1) as [l1|]; [|discriminate].
    destruct (dict_get Nat.eqb landmarks v2) as [l2|]; [|discriminate].
    simpl in Hc.
    destruct (rows_at (lm_landmarks l1) (lm_timestamp l1) _)
      as [e|rows1] eqn:H1; [discriminate|]. simpl in Hc.
    destruct rows1 as [|r1 rows1]; [discriminate|]. simpl in Hc.
    destruct (rows_at (lm_landmarks l2) (lm_timestamp l2) _)
      as [e|rows2]; [discriminate|]. simpl in Hc.
    destruct rows2 as [|r2 rows2]; [discriminate|]. simpl in Hc.
    injection Hc as Hp1 Hp2 Hts. rewrite <- Hts.
    apply rows_at_spec in H1. destruct H1 as [Hl1 _]. split.
    { intros E. rewrite E in Hl1. discriminate. }
    exists l1, l2. split; [reflexivity|]. split; [reflexivity|].
    intros i. apply intersection_In.
Qed.
End RelativePosesFacts.

Lemma compute_relative_poses_entries_witness :
  compute_relative_poses sample_geometry [(0, 1); (1, 2)] sample_intrinsics
    triangle_store "8point" 1%Q 0%Z = inr sample_relative_poses /\
  (forall key, In key (dict_keys sample_relative_poses) <->
               In key [(0, 1); (1, 2)]) /\
  exists rp, dict_get pair_eqb sample_relative_poses (1, 2) = Some rp /\
             rp_timestamps rp <> [].
Proof.
  assert (Hrun : compute_relative_poses sample_geometry [(0, 1); (1, 2)]
                   sample_intrinsics triangle_store "8point" 1%Q 0%Z
                 = inr sample_relative_poses) by (vm_compute; reflexivity).
  split; [exact Hrun|].
  destruct (compute_relative_poses_entries QScalar nat sample_geometry
              sample_intrinsics triangle_store "8point" 1%Q 0%Z
              [(0, 1); (1, 2)] sample_relative_poses Hrun) as [Hk Hall].
  split; [exact Hk|].
  destruct (Hall 1 2 (or_intror (or_introl eq_refl)))
    as (rp & Hget & _ & Hne & _).
  exists rp. split; [exact Hget | exact Hne].
Defined.

(** ** utils.py: indexes *)

Lemma indexes_from_spec (l : list nat) (value : nat) :
  forall start i,
    In i (indexes_from start l value) <->
    start <= i /\ nth_error l (i - start) = Some value.
Proof.
  induction l as [|x l IH]; intros start i; simpl.
  - split; [tauto|]. intros [_ H]. destruct (i - start); discriminate.
  - assert (Hrest : In i (indexes_from (S start) l value) <->
                    start < i /\ nth_error l (i - S start) = Some value).
    { rewrite IH. split; intros [H1 H2]; (split; [lia | exact H2]). }
    assert (Hshift : start < i ->
                     nth_error (x :: l) (i - start)
                     = nth_error l (i - S start)).
    { intros Hlt. replace (i - start) with (S (i - S start)) by lia.
      reflexivity. }
    destruct (Nat.eqb_spec x value) as [-> | Hne]; simpl.
    + rewrite Hrest. split.
      * intros [<- | [Hlt H]]; [rewrite Nat.sub_diag; auto|].
        rewrite Hshift by exact Hlt. split; [lia | exact H].
      * intros [Hle H]. destruct (Nat.eq_dec start i) as [-> | Hn];
          [left; reflexivity|].
        right. split; [lia|]. rewrite <- Hshift by lia. exact H.
    + rewrite Hrest. split.
      * intros [Hlt H]. rewrite Hshift by exact Hlt. split; [lia | exact H].
      * intros [Hle H]. destruct (Nat.eq_dec start i) as [-> | Hn].
        { rewrite Nat.sub_diag in H. simpl in H. congruence. }
        split; [lia|]. rewrite <- Hshift by lia. exact H.
Qed.

Lemma indexes_from_sorted (l : list nat) (value : nat) :
  forall start, StronglySorted lt (indexes_from start l value).
Proof.
  induction l as [|x l IH]; intros start; simpl; [constructor|].
  destruct (x =? value); [|apply IH].
  constructor; [apply IH|].
  apply Forall_forall. intros i Hi. apply indexes_from_spec in Hi. lia.
Qed.

Lemma indexes_from_hd (l : list nat) (value : nat) :
  forall start,
    hd_error (indexes_from start l value)
    = option_map (Nat.add start) (index_of l value).
Proof.
  induction l as [|x l IH]; intros start; simpl; [reflexivity|].
  destruct (x =? value); simpl; [f_equal; lia|].
  rewrite IH. destruct (index_of l value); simpl; [f_equal; lia|].
  reflexivity.
Qed.

(** [indexes] returns, in increasing order and without repetition, exactly
    the positions of the list that hold the value. Its first element is
    the position that [list.index] gives, and it is empty exactly when
    [list.index] raises. *)
Theorem indexes_are_the_positions (_list : list nat) (value : nat) :
  (forall i, In i (indexes _list value) <->
             nth_error _list i = Some value) /\
  StronglySorted lt (indexes _list value) /\
  hd_error (indexes _list value) = index_of _list value /\
  length (indexes _list value) = count_occ Nat.eq_dec _list value.
Proof.
  unfold indexes. split; [|split; [|split]].
  - intros i. rewrite indexes_from_spec, Nat.sub_0_r.
    split; [tauto | intros H; split; [lia | exact H]].
  - apply indexes_from_sorted.
  - rewrite indexes_from_hd. destruct (index_of _list value); reflexivity.
  - generalize 0. induction _list as [|x l IH]; intros start; simpl;
      [reflexivity|].
    destruct (Nat.eqb_spec x value) as [-> | Hne].
    + destruct (Nat.eq_dec value value); [|congruence].
      simpl. rewrite IH. reflexivity.
    + destruct (Nat.eq_dec x value); [congruence|]. apply IH.
Qed.

(** ** Rigid motions in exact arithmetic *)

Section RigidMotions.
Local Open Scope R_scope.

Lemma rvec_eq (a b : rvec) :
  vx a = vx b -> vy a = vy b -> vz a = vz b -> a = b.
Proof. destruct a, b; simpl; intros; subst; reflexivity. Qed.

Ltac lincomb H0 H1 H2 c0 c1 c2 :=
  match type of H0 with
  | ?p0 = _ =>
      match type of H1 with
      | ?p1 = _ =>
          match type of H2 with
          | ?p2 = _ =>
              transitivity (p0 * c0 + p1 * c1 + p2 * c2);
              [ring | rewrite H0, H1, H2; ring]
          end
      end
  end.

Ltac unfold_linalg :=
  cbv beta iota zeta delta
    [invert_Rt transpose mat_vec mat_mul mat_neg mat_map vec_map vec_add
     vec_scale scale_vec dot3 col0 col1 col2 eye3 zeros3 fst snd
     row0 row1 row2 vx vy vz sadd smul sneg szero sone RScalar rv
     transform_row vec_sub].

Lemma orthogonal_transpose (M : rmat) :
  orthogonal M -> orthogonal (transpose M).
Proof.
  intros [H1 H2]. destruct M as [[? ? ?] [? ? ?] [? ? ?]].
  split; [exact H2 | exact H1].
Qed.

(** In exact arithmetic and for a rotation matrix [R], [invert_Rt] gives
    the inverse rigid motion: its rotation is again a rotation, moving a
    point by [(R, t)] and then by the inverted pair returns the point, and
    so does the other order; inverting twice gives [(R, t)] back. *)
Theorem invert_Rt_is_the_inverse (M : rmat) (t : rvec) :
  orthogonal M ->
  orthogonal (fst (invert_Rt M t)) /\
  invert_Rt (fst (invert_Rt M t)) (snd (invert_Rt M t)) = (M, t) /\
  (forall x : rvec,
      vec_add (mat_vec (fst (invert_Rt M t)) (vec_add (mat_vec M x) t))
              (snd (invert_Rt M t)) = x) /\
  (forall y : rvec,
      vec_add (mat_vec M
                 (vec_add (mat_vec (fst (invert_Rt M t)) y)
                          (snd (invert_Rt M t))))
              t = y).
Proof.
  intros Ho. split; [apply (orthogonal_transpose M Ho)|].
  destruct Ho as [H1 H2].
  destruct M as [[a00 a01 a02] [a10 a11 a12] [a20 a21 a22]].
  destruct t as [t0 t1 t2].
  cbn in H1, H2.
  injection H1 as A00 A01 A02 A10 A11 A12 A20 A21 A22.
  injection H2 as B00 B01 B02 B10 B11 B12 B20 B21 B22.
  split; [|split].
  - unfold_linalg. f_equal. apply rvec_eq; cbn.
    + lincomb B00 B01 B02 t0 t1 t2.
    + lincomb B10 B11 B12 t0 t1 t2.
    + lincomb B20 B21 B22 t0 t1 t2.
  - intros [x0 x1 x2]. unfold_linalg. apply rvec_eq; cbn.
    + lincomb A00 A01 A02 x0 x1 x2.
    + lincomb A10 A11 A12 x0 x1 x2.
    + lincomb A20 A21 A22 x0 x1 x2.
  - intros [y0 y1 y2]. unfold_linalg. apply rvec_eq; cbn.
    + transitivity ((a00 * a00 + a01 * a01 + a02 * a02) * (y0 - t0)
                    + (a00 * a10 + a01 * a11 + a02 * a12) * (y1 - t1)
                    + (a00 * a20 + a01 * a21 + a02 * a22) * (y2 - t2)
                    + t0); [ring | rewrite B00, B01, B02; ring].
    + transitivity ((a10 * a00 + a11 * a01 + a12 * a02) * (y0 - t0)
                    + (a10 * a10 + a11 * a11 + a12 * a12) * (y1 - t1)
                    + (a10 * a20 + a11 * a21 + a12 * a22) * (y2 - t2)
                    + t1); [ring | rewrite B10, B11, B12; ring].
    + transitivity ((a20 * a00 + a21 * a01 + a22 * a02) * (y0 - t0)
                    + (a20 * a10 + a21 * a11 + a22 * a12) * (y1 - t1)
                    + (a20 * a20 + a21 * a21 + a22 * a22) * (y2 - t2)
                    + t2); [ring | rewrite B20, B21, B22; ring].
Qed.

Lemma quarter_turn_orthogonal : orthogonal quarter_turn.
Proof.
  unfold orthogonal, quarter_turn. unfold_linalg.
  split; repeat f_equal; ring.
Qed.

Lemma invert_Rt_is_the_inverse_witness :
  orthogonal quarter_turn /\
  invert_Rt (fst (invert_Rt quarter_turn sample_shift))
            (snd (invert_Rt quarter_turn sample_shift))
  = (quarter_turn, sample_shift).
Proof.
  split; [exact quarter_turn_orthogonal|].
  exact (proj1 (proj2 (invert_Rt_is_the_inverse quarter_turn sample_shift
                         quarter_turn_orthogonal))).
Defined.

(** ** apply_rigid_transform and average_distance *)

Lemma transform_row_as_motion (M : rmat) (t x : rvec) (scale : R) :
  transform_row M t scale x
  = vec_add (mat_vec M (@vec_scale RScalar x scale)) t.
Proof.
  destruct M as [[a00 a01 a02] [a10 a11 a12] [a20 a21 a22]].
  destruct t as [t0 t1 t2], x as [x0 x1 x2].
  unfold_linalg. apply rvec_eq; cbn; ring.
Qed.

Lemma norm3_zero (v : rvec) : norm3 v = 0 <-> v = origin.
Proof.
  destruct v as [x y z]. unfold norm3, origin, rv. cbn. split.
  - intros H. apply sqrt_eq_0 in H; [|nra].
    assert (x = 0) by nra. assert (y = 0) by nra. assert (z = 0) by nra.
    subst. reflexivity.
  - intros H. injection H as -> -> ->.
    replace (0 * 0 + 0 * 0 + 0 * 0) with 0 by ring. apply sqrt_0.
Qed.

Lemma norm3_nonneg (v : rvec) : 0 <= norm3 v.
Proof. apply sqrt_pos. Qed.

Lemma norm3_sub_sym (a b : rvec) : norm3 (vec_sub a b) = norm3 (vec_sub b a).
Proof.
  destruct a, b. unfold norm3, vec_sub, rv. cbn. f_equal. ring.
Qed.

Lemma sum_nonneg (l : list R) :
  Forall (fun x => 0 <= x) l -> 0 <= fold_right Rplus 0 l.
Proof.
  induction 1 as [|x l Hx _ IH]; simpl; lra.
Qed.

Lemma sum_zero (l : list R) :
  Forall (fun x => x = 0) l -> fold_right Rplus 0 l = 0.
Proof.
  induction 1 as [|x l Hx _ IH]; simpl; lra.
Qed.

Lemma INR_length_pos {A} (x : A) (l : list A) : 0 < INR (length (x :: l)).
Proof. apply lt_0_INR. simpl. lia. Qed.

Lemma average_distance_self (X : list rvec) :
  X <> [] -> average_distance X X = inr (Some 0).
Proof.
  intros Hne. unfold average_distance, broadcast_sub.
  rewrite Nat.eqb_refl. simpl.
  destruct X as [|x X]; [congruence|].
  unfold mean, ret. cbn [map combine fst snd].
  set (D := map norm3 _).
  assert (HD : Forall (fun d => d = 0) (norm3 (vec_sub x x) :: D)).
  { constructor.
    - apply norm3_zero. destruct x. unfold vec_sub, origin, rv. cbn.
      f_equal; ring.
    - unfold D. apply Forall_forall. intros d Hd.
      apply in_map_iff in Hd. destruct Hd as (v & <- & Hv).
      apply in_map_iff in Hv. destruct Hv as ([p q] & <- & Hpq).
      assert (p = q).
      { clear -Hpq. induction X as [|y X IH]; simpl in Hpq; [tauto|].
        destruct Hpq as [E | Hpq]; [inversion E; reflexivity | auto]. }
      subst q. apply norm3_zero. destruct p. unfold vec_sub, origin, rv.
      cbn. f_equal; ring. }
  rewrite (sum_zero _ HD). do 2 f_equal. unfold Rdiv. ring.
Qed.

Lemma average_distance_equal_length (X Y : list rvec) :
  length X = length Y ->
  exists d, average_distance X Y = inr d /\
            average_distance Y X = inr d /\
            forall r, d = Some r -> 0 <= r.
Proof.
  intros Hlen. unfold average_distance, broadcast_sub.
  rewrite Hlen, Nat.eqb_refl. simpl.
  assert (Hsym : map norm3 (map (fun xy : rvec * rvec =>
                                   vec_sub (fst xy) (snd xy))
                                (combine Y X))
                 = map norm3 (map (fun xy : rvec * rvec =>
                                     vec_sub (fst xy) (snd xy))
                                  (combine X Y))).
  { clear. revert Y. induction X as [|x X IH]; intros [|y Y]; simpl;
      try reflexivity.
    rewrite IH. f_equal. apply norm3_sub_sym. }
  rewrite Hsym.
  set (L := map norm3 (map (fun xy : rvec * rvec =>
                              vec_sub (fst xy) (snd xy)) (combine X Y))).
  assert (HL : Forall (fun z => 0 <= z) L).
  { unfold L. apply Forall_forall. intros z Hz.
    apply in_map_iff in Hz. destruct Hz as (v & <- & _).
    apply norm3_nonneg. }
  exists (mean L). split; [reflexivity|]. split; [reflexivity|].
  intros r Hr. destruct L as [|d D]; [discriminate|].
  unfold mean in Hr. injection Hr as <-.
  apply Rmult_le_pos.
  - apply (sum_nonneg (d :: D)). exact HL.
  - left. apply Rinv_0_lt_compat. apply (INR_length_pos d D).
Qed.

(** The two functions of lines 12-16 in exact arithmetic.
    [apply_rigid_transform] moves each point [x] to [R (scale x) + t]; for a
    rotation [R] and a scale other than 0 the motion is undone by the
    rotation and translation of [invert_Rt], the translation and the scale
    divided by the scale. [average_distance] is [nan] on empty arrays, 0
    between an array and itself, never negative, and the same in both
    directions. *)
Theorem rigid_transform_round_trip (X : list rvec) (M : rmat) (t : rvec)
  (scale : R) :
  orthogonal M -> scale <> 0 ->
  apply_rigid_transform (apply_rigid_transform X M t scale)
    (fst (invert_Rt M t))
    (@vec_scale RScalar (snd (invert_Rt M t)) (/ scale)) (/ scale) = X /\
  average_distance [] [] = inr None /\
  (X <> [] -> average_distance X X = inr (Some 0)) /\
  (forall Y, length X = length Y ->
     exists d, average_distance X Y = inr d /\
               average_distance Y X = inr d /\
               forall r, d = Some r -> 0 <= r).
Proof.
  intros Ho Hs. split; [|split; [reflexivity|split]].
  - unfold apply_rigid_transform. rewrite map_map.
    rewrite <- (map_id X) at 2. apply map_ext. intros x.
    destruct Ho as [H1 _].
    destruct M as [[a00 a01 a02] [a10 a11 a12] [a20 a21 a22]].
    destruct t as [t0 t1 t2], x as [x0 x1 x2].
    cbn in H1. injection H1 as A00 A01 A02 A10 A11 A12 A20 A21 A22.
    unfold_linalg. apply rvec_eq; cbn.
    + transitivity ((a00 * a00 + a10 * a10 + a20 * a20) * x0 * (scale * / scale)
                    + (a00 * a01 + a10 * a11 + a20 * a21) * x1
                      * (scale * / scale)
                    + (a00 * a02 + a10 * a12 + a20 * a22) * x2
                      * (scale * / scale)); [ring|].
      rewrite A00, A01, A02, Rinv_r by exact Hs. ring.
    + transitivity ((a01 * a00 + a11 * a10 + a21 * a20) * x0 * (scale * / scale)
                    + (a01 * a01 + a11 * a11 + a21 * a21) * x1
                      * (scale * / scale)
                    + (a01 * a02 + a11 * a12 + a21 * a22) * x2
                      * (scale * / scale)); [ring|].
      rewrite A10, A11, A12, Rinv_r by exact Hs. ring.
    + transitivity ((a02 * a00 + a12 * a10 + a22 * a20) * x0 * (scale * / scale)
                    + (a02 * a01 + a12 * a11 + a22 * a21) * x1
                      * (scale * / scale)
                    + (a02 * a02 + a12 * a12 + a22 * a22) * x2
                      * (scale * / scale)); [ring|].
      rewrite A20, A21, A22, Rinv_r by exact Hs. ring.
  - apply average_distance_self.
  - intros Y Hlen. apply average_distance_equal_length. exact Hlen.
Qed.

Lemma rigid_transform_round_trip_witness :
  orthogonal quarter_turn /\ 2 <> 0 /\
  apply_rigid_transform
    (apply_rigid_transform sample_cloud quarter_turn sample_shift 2)
    (fst (invert_Rt quarter_turn sample_shift))
    (@vec_scale RScalar (snd (invert_Rt quarter_turn sample_shift)) (/ 2))
    (/ 2) = sample_cloud.
Proof.
  assert (H2 : 2 <> 0) by lra.
  split; [exact quarter_turn_orthogonal|]. split; [exact H2|].
  exact (proj1 (rigid_transform_round_trip sample_cloud quarter_turn
                  sample_shift 2 quarter_turn_orthogonal H2)).
Defined.

End RigidMotions.

(** ** estimate_scale_point_sets in exact arithmetic *)

Section ScaleEstimator.
Local Open Scope R_scope.

Lemma combinations2_nil {A} (l : list A) :
  combinations2 l = [] <-> (length l < 2)%nat.
Proof.
  destruct l as [|a [|b l]]; simpl; split; intros H; try reflexivity;
    try lia; discriminate.
Qed.

(** With rows for all the indices, the distances are those of [dist_at]. *)
Lemma pair_distances_eq (a : list rvec) (idx_pairs : list (nat * nat)) :
  (forall i j, In (i, j) idx_pairs ->
               (i < length a)%nat /\ (j < length a)%nat) ->
  pair_distances a idx_pairs = inr (map (dist_at a) idx_pairs).
Proof.
  induction idx_pairs as [|[i j] rest IH]; intros Hin; simpl;
    [reflexivity|].
  destruct (Hin i j (or_introl eq_refl)) as [Hi Hj].
  unfold row_at.
  rewrite (nth_error_nth' a origin Hi), (nth_error_nth' a origin Hj).
  simpl. rewrite IH by (intros x y Hxy; apply Hin; right; exact Hxy).
  reflexivity.
Qed.

(** A row that is missing makes the distances fail. *)
Lemma pair_distances_missing (a : list rvec) (idx_pairs : list (nat * nat)) :
  (exists i j, In (i, j) idx_pairs /\
               ((length a <= i)%nat \/ (length a <= j)%nat)) ->
  pair_distances a idx_pairs = inl IndexError.
Proof.
  induction idx_pairs as [|[i j] rest IH]; intros (x & y & Hin & Hout).
  - destruct Hin.
  - simpl. unfold row_at.
    destruct (nth_error a i) as [p|] eqn:Ei; [|reflexivity]. simpl.
    destruct (nth_error a j) as [q|] eqn:Ej; [|reflexivity]. simpl.
    rewrite IH; [reflexivity|].
    destruct Hin as [E | Hin]; [|exists x, y; auto].
    inversion E; subst x y. exfalso.
    assert (i < length a)%nat by (apply nth_error_Some; congruence).
    assert (j < length a)%nat by (apply nth_error_Some; congruence).
    lia.
Qed.

Lemma map_combine_map {A B C D} (f : A -> B) (g : A -> C) (h : B * C -> D)
  (l : list A) :
  map h (combine (map f l) (map g l)) = map (fun x => h (f x, g x)) l.
Proof. induction l as [|x l IH]; simpl; [reflexivity | rewrite IH; reflexivity]. Qed.

(** The value of the estimator when there are at least two indices and
    both arrays have a row for each of them. *)
Lemma estimate_scale_point_sets_eq (idxs : list nat) (src dst : list rvec)
  (max_est : R) :
  (2 <= length idxs)%nat ->
  (forall i, In i idxs -> (i < length src)%nat /\ (i < length dst)%nat) ->
  estimate_scale_point_sets idxs src dst max_est =
  inr (median (flat_map (clean max_est)
                        (map (ratio_at src dst) (combinations2 idxs))),
       std (flat_map (clean max_est)
                     (map (ratio_at src dst) (combinations2 idxs)))).
Proof.
  intros Hlen Hin. unfold estimate_scale_point_sets.
  destruct (combinations2 idxs) as [|c cs] eqn:Ec.
  { apply combinations2_nil in Ec. lia. }
  rewrite <- Ec.
  assert (Hp : forall i j, In (i, j) (combinations2 idxs) ->
                           In i idxs /\ In j idxs)
    by (intros i j; apply combinations2_In).
  rewrite (pair_distances_eq src), (pair_distances_eq dst).
  - simpl.
    rewrite (map_combine_map (dist_at dst) (dist_at src)
               (fun dd => divide (fst dd) (snd dd))).
    reflexivity.
  - intros i j Hij. destruct (Hp i j Hij) as [Hi Hj].
    split; [apply (Hin i Hi) | apply (Hin j Hj)].
  - intros i j Hij. destruct (Hp i j Hij) as [Hi Hj].
    split; [apply (Hin i Hi) | apply (Hin j Hj)].
Qed.

(** *** The shuffle *)

Lemma dist_at_sym (a : list rvec) (i j : nat) :
  dist_at a (i, j) = dist_at a (j, i).
Proof. unfold dist_at. simpl. apply norm3_sub_sym. Qed.

Lemma ratio_at_sym (src dst : list rvec) (i j : nat) :
  ratio_at src dst (i, j) = ratio_at src dst (j, i).
Proof.
  unfold ratio_at. rewrite (dist_at_sym dst i j), (dist_at_sym src i j).
  reflexivity.
Qed.

Lemma combinations2_map_perm {A B} (f : A * A -> B) (l l' : list A) :
  (forall a b, f (a, b) = f (b, a)) ->
  Permutation l l' ->
  Permutation (map f (combinations2 l)) (map f (combinations2 l')).
Proof.
  intros Hsym Hp. induction Hp as [|x l l' Hp IH|x y l|l l' l'' _ IH1 _ IH2].
  - constructor.
  - simpl. rewrite !map_app, !map_map. apply Permutation_app; [|exact IH].
    apply Permutation_map. exact Hp.
  - simpl. rewrite !map_app, !map_map. simpl. rewrite (Hsym y x).
    constructor. rewrite !app_assoc. apply Permutation_app_tail.
    apply Permutation_app_comm.
  - eapply Permutation_trans; eassumption.
Qed.

Lemma insert_sorted_comm (x y : R) (l : list R) :
  insert_sorted x (insert_sorted y l) = insert_sorted y (insert_sorted x l).
Proof.
  induction l as [|z l IH]; simpl.
  - destruct (Rle_dec x y), (Rle_dec y x); try reflexivity.
    + assert (x = y) by lra. subst. reflexivity.
    + exfalso. lra.
  - destruct (Rle_dec y z) as [Hyz | Hyz], (Rle_dec x z) as [Hxz | Hxz];
      simpl.
    + destruct (Rle_dec x y), (Rle_dec y x); simpl;
        try (destruct (Rle_dec x z); [|exfalso; lra]);
        try (destruct (Rle_dec y z); [|exfalso; lra]);
        try reflexivity.
      * assert (x = y) by lra. subst. reflexivity.
      * exfalso. lra.
    + destruct (Rle_dec x y); [exfalso; lra|].
      destruct (Rle_dec y z); [|exfalso; lra].
      destruct (Rle_dec x z); [exfalso; lra|]. reflexivity.
    + destruct (Rle_dec y x); [exfalso; lra|].
      destruct (Rle_dec x z); [|exfalso; lra].
      destruct (Rle_dec y z); [exfalso; lra|]. reflexivity.
    + destruct (Rle_dec x z); [exfalso; lra|].
      destruct (Rle_dec y z); [exfalso; lra|].
      rewrite IH. reflexivity.
Qed.

Lemma sort_perm (l l' : list R) : Permutation l l' -> sort l = sort l'.
Proof.
  induction 1 as [|x l l' _ IH|x y l|l l' l'' _ IH1 _ IH2]; simpl.
  - reflexivity.
  - rewrite IH. reflexivity.
  - apply insert_sorted_comm.
  - congruence.
Qed.

Lemma sum_perm (l l' : list R) :
  Permutation l l' -> fold_right Rplus 0 l = fold_right Rplus 0 l'.
Proof.
  induction 1 as [|x l l' _ IH|x y l|l l' l'' _ IH1 _ IH2]; simpl;
    [reflexivity | rewrite IH; reflexivity | ring | congruence].
Qed.

Lemma mean_perm (l l' : list R) : Permutation l l' -> mean l = mean l'.
Proof.
  intros Hp. unfold mean.
  pose proof (Permutation_length Hp) as Hlen.
  pose proof (sum_perm _ _ Hp) as Hsum.
  destruct l as [|x l], l' as [|y l']; try discriminate; [reflexivity|].
  rewrite Hsum, Hlen. reflexivity.
Qed.

Lemma median_perm (l l' : list R) : Permutation l l' -> median l = median l'.
Proof. intros Hp. unfold median. rewrite (sort_perm _ _ Hp). reflexivity. Qed.

Lemma std_perm (l l' : list R) : Permutation l l' -> std l = std l'.
Proof.
  intros Hp. unfold std. rewrite (mean_perm _ _ Hp).
  destruct (mean l') as [m|]; [|reflexivity].
  rewrite (mean_perm _ _ (Permutation_map _ Hp)). reflexivity.
Qed.

Lemma seq_bound (n i : nat) (idxs : list nat) :
  Permutation idxs (seq 0 n) -> (In i idxs <-> (i < n)%nat).
Proof.
  intros Hp. split.
  - intros Hi. apply (Permutation_in _ Hp) in Hi. apply in_seq in Hi. lia.
  - intros Hi. apply (Permutation_in _ (Permutation_sym Hp)).
    apply in_seq. lia.
Qed.

(** In exact arithmetic the result does not depend on the shuffle: two
    runs on the same arrays, whatever order [np.random.shuffle] leaves the
    indices in, return the same median and the same standard deviation, or
    raise the same [IndexError]. *)
Theorem estimate_scale_ignores_shuffle (idxs idxs' : list nat)
  (src dst : list rvec) (max_est : R) :
  Permutation idxs (seq 0 (length src)) ->
  Permutation idxs' (seq 0 (length src)) ->
  estimate_scale_point_sets idxs src dst max_est
  = estimate_scale_point_sets idxs' src dst max_est.
Proof.
  intros Hp Hp'.
  pose proof (Permutation_length Hp) as Hl.
  pose proof (Permutation_length Hp') as Hl'.
  rewrite length_seq in Hl, Hl'.
  assert (Hpp : Permutation idxs idxs')
    by (eapply Permutation_trans; [exact Hp | apply Permutation_sym, Hp']).
  destruct (Nat.lt_ge_cases (length src) 2) as [Hsmall | Hbig].
  { unfold estimate_scale_point_sets.
    rewrite (proj2 (combinations2_nil idxs)) by lia.
    rewrite (proj2 (combinations2_nil idxs')) by lia. reflexivity. }
  destruct (Nat.le_gt_cases (length src) (length dst)) as [Hdst | Hdst].
  - rewrite !estimate_scale_point_sets_eq; try lia.
    + assert (Hc : Permutation
                     (flat_map (clean max_est)
                        (map (ratio_at src dst) (combinations2 idxs)))
                     (flat_map (clean max_est)
                        (map (ratio_at src dst) (combinations2 idxs')))).
      { apply Permutation_flat_map.
        apply combinations2_map_perm; [|exact Hpp].
        intros a b. apply ratio_at_sym. }
      rewrite (median_perm _ _ Hc), (std_perm _ _ Hc). reflexivity.
    + intros i Hi. apply (seq_bound _ _ _ Hp') in Hi. lia.
    + intros i Hi. apply (seq_bound _ _ _ Hp) in Hi. lia.
  - assert (Hfail : forall l, Permutation l (seq 0 (length src)) ->
                estimate_scale_point_sets l src dst max_est
                = inl IndexError).
    { intros l Hpl. unfold estimate_scale_point_sets.
      pose proof (Permutation_length Hpl) as Hll. rewrite length_seq in Hll.
      destruct (combinations2 l) as [|c cs] eqn:Ec; [reflexivity|].
      rewrite <- Ec.
      rewrite (pair_distances_eq src).
      - simpl. rewrite pair_distances_missing; [reflexivity|].
        destruct (combinations2_covers l (length dst)) as ([i j] & Hc & Hij).
        + lia.
        + apply (seq_bound _ _ _ Hpl). exact Hdst.
        + exists i, j. split; [exact Hc|]. simpl in Hij.
          destruct Hij as [<- | <-]; [left | right]; lia.
      - intros i j Hij. apply combinations2_In in Hij.
        destruct Hij as [Hi Hj].
        apply (seq_bound _ _ _ Hpl) in Hi, Hj. lia. }
    rewrite (Hfail idxs Hp), (Hfail idxs' Hp'). reflexivity.
Qed.

Lemma permutation_201 : Permutation [2; 0; 1]%nat (seq 0 3).
Proof.
  simpl. apply perm_trans with (l' := [0; 2; 1]%nat).
  - apply perm_swap.
  - apply perm_skip. apply perm_swap.
Qed.

Lemma estimate_scale_ignores_shuffle_witness :
  Permutation [0; 1; 2]%nat (seq 0 (length sample_cloud)) /\
  Permutation [2; 0; 1]%nat (seq 0 (length sample_cloud)) /\
  estimate_scale_point_sets [0; 1; 2]%nat sample_cloud
    (scale_points 2 sample_cloud) max_est_default
  = estimate_scale_point_sets [2; 0; 1]%nat sample_cloud
      (scale_points 2 sample_cloud) max_est_default.
Proof.
  assert (H1 : Permutation [0; 1; 2]%nat (seq 0 (length sample_cloud)))
    by apply Permutation_refl.
  assert (H2 : Permutation [2; 0; 1]%nat (seq 0 (length sample_cloud)))
    by exact permutation_201.
  split; [exact H1|]. split; [exact H2|].
  exact (estimate_scale_ignores_shuffle _ _ sample_cloud
           (scale_points 2 sample_cloud) max_est_default H1 H2).
Defined.

(** *** A scaled copy *)

Lemma norm3_scale (k : R) (v : rvec) :
  0 <= k -> norm3 (rv (k * vx v) (k * vy v) (k * vz v)) = k * norm3 v.
Proof.
  intros Hk. destruct v as [x y z]. unfold norm3, rv. cbn.
  replace (k * x * (k * x) + k * y * (k * y) + k * z * (k * z))
    with (k * k * (x * x + y * y + z * z)) by ring.
  rewrite sqrt_mult by nra. rewrite sqrt_square by exact Hk. reflexivity.
Qed.

Lemma dist_at_scale (k : R) (src : list rvec) (i j : nat) :
  0 <= k -> (i < length src)%nat -> (j < length src)%nat ->
  dist_at (scale_points k src) (i, j) = k * dist_at src (i, j).
Proof.
  intros Hk Hi Hj. unfold dist_at, scale_points. simpl.
  set (f := fun v : rvec => rv (k * vx v) (k * vy v) (k * vz v)).
  rewrite (nth_indep (map f src) origin (f origin))
    by (rewrite length_map; exact Hi).
  rewrite (nth_indep (map f src) origin (f origin))
    by (rewrite length_map; exact Hj).
  rewrite !map_nth. rewrite <- norm3_scale by exact Hk.
  f_equal. unfold f, vec_sub, rv.
  destruct (nth i src origin), (nth j src origin). cbn.
  f_equal; ring.
Qed.

Lemma clean_ratio_scale (k max_est : R) (src : list rvec) (i j : nat) :
  0 < k -> (i < length src)%nat -> (j < length src)%nat ->
  clean max_est (ratio_at src (scale_points k src) (i, j)) =
  if Req_dec_T (dist_at src (i, j)) 0 then []
  else if Rlt_dec k max_est then [k] else [].
Proof.
  intros Hk Hi Hj. unfold ratio_at, divide.
  rewrite dist_at_scale by (try lra; assumption).
  destruct (Req_dec_T (dist_at src (i, j)) 0) as [E | E].
  - rewrite E, Rmult_0_r.
    destruct (Req_dec_T 0 0); [reflexivity | congruence].
  - simpl. replace (k * dist_at src (i, j) / dist_at src (i, j)) with k
      by (field; exact E).
    reflexivity.
Qed.

Lemma sort_repeat (k : R) (m : nat) : sort (repeat k m) = repeat k m.
Proof.
  induction m as [|m IH]; simpl; [reflexivity|]. rewrite IH.
  destruct m as [|m]; simpl; [reflexivity|].
  destruct (Rle_dec k k); [reflexivity | exfalso; lra].
Qed.

Lemma nth_repeat_lt (k d : R) (m i : nat) :
  (i < m)%nat -> nth i (repeat k m) d = k.
Proof.
  revert i. induction m as [|m IH]; intros i Hi; [lia|].
  destruct i as [|i]; simpl; [reflexivity | apply IH; lia].
Qed.

Lemma median_repeat (k : R) (m : nat) :
  (0 < m)%nat -> median (repeat k m) = Some k.
Proof.
  intros Hm. unfold median. rewrite sort_repeat, repeat_length.
  destruct (Nat.eqb_spec m 0) as [-> | _]; [lia|].
  destruct (Nat.even m) eqn:Ev.
  - assert (Hm2 : (2 <= m)%nat).
    { destruct m as [|[|m]]; [lia | discriminate | lia]. }
    assert (Hhalf : (m / 2 < m)%nat) by (apply Nat.div_lt; lia).
    rewrite !nth_repeat_lt by lia. f_equal. lra.
  - rewrite nth_repeat_lt by (apply Nat.div_lt; lia). reflexivity.
Qed.

Lemma sum_repeat (k : R) (m : nat) :
  fold_right Rplus 0 (repeat k m) = INR m * k.
Proof.
  induction m as [|m IH]; [simpl; ring|].
  rewrite S_INR. simpl. rewrite IH. ring.
Qed.

Lemma mean_repeat (k : R) (m : nat) :
  (0 < m)%nat -> mean (repeat k m) = Some k.
Proof.
  intros Hm. unfold mean. destruct m as [|m]; [lia|]. cbn [repeat].
  change (k :: repeat k m) with (repeat k (S m)).
  rewrite sum_repeat, repeat_length. f_equal. field.
  apply not_0_INR. lia.
Qed.

Lemma std_repeat (k : R) (m : nat) :
  (0 < m)%nat -> std (repeat k m) = Some 0.
Proof.
  intros Hm. unfold std. rewrite (mean_repeat k m Hm), map_repeat.
  rewrite (mean_repeat _ m Hm). f_equal.
  replace ((k - k) * (k - k)) with 0 by ring. apply sqrt_0.
Qed.

Lemma clean_scaled_pairs (k max_est : R) (src : list rvec)
  (pairs : list (nat * nat)) :
  0 < k ->
  (forall i j, In (i, j) pairs ->
               (i < length src)%nat /\ (j < length src)%nat) ->
  exists m,
    flat_map (clean max_est)
             (map (ratio_at src (scale_points k src)) pairs)
    = repeat k m /\
    (max_est <= k -> m = 0%nat) /\
    (k < max_est ->
     (exists i j, In (i, j) pairs /\ dist_at src (i, j) <> 0) ->
     (0 < m)%nat) /\
    ((forall i j, In (i, j) pairs -> dist_at src (i, j) = 0) -> m = 0%nat).
Proof.
  intros Hk. induction pairs as [|[i j] rest IH]; intros Hin.
  - exists 0%nat. simpl. split; [reflexivity|]. split; [reflexivity|].
    split; [|reflexivity]. intros _ (i & j & [] & _).
  - destruct IH as (m & Hm & Hbig & Hpos & Hzero).
    { intros x y Hxy. apply Hin. right. exact Hxy. }
    destruct (Hin i j (or_introl eq_refl)) as [Hi Hj].
    cbn [map flat_map]. rewrite clean_ratio_scale by assumption.
    rewrite Hm.
    destruct (Req_dec_T (dist_at src (i, j)) 0) as [E | E].
    + exists m. split; [reflexivity|]. split; [exact Hbig|]. split.
      * intros Hlt (x & y & [Exy | Hxy] & Hd).
        -- inversion Exy; subst. contradiction.
        -- apply Hpos; [exact Hlt | exists x, y; auto].
      * intros Hall. apply Hzero. intros x y Hxy. apply Hall. right.
        exact Hxy.
    + destruct (Rlt_dec k max_est) as [Hlt | Hge].
      * exists (S m). split; [reflexivity|]. split; [intros; lra|].
        split; [intros; lia|].
        intros Hall. exfalso. apply E. apply Hall. left. reflexivity.
      * exists m. split; [reflexivity|]. split; [exact Hbig|]. split.
        -- intros Hlt. contradiction.
        -- intros Hall. exfalso. apply E. apply Hall. left. reflexivity.
Qed.

(** In exact arithmetic, for an array with two distinct points and its
    copy scaled by [k > 0], the estimator returns the scale [k] with
    standard deviation 0 when [k] is below [max_est], whatever the shuffle;
    the pairs of equal points divide 0 by 0 and are dropped. A scale of
    [max_est] or more is filtered out with every ratio, and the result is
    the pair of [nan] that NumPy gives for an empty array. *)
Theorem estimate_scale_recovers_scale (idxs : list nat) (src : list rvec)
  (k max_est : R) :
  Permutation idxs (seq 0 (length src)) ->
  0 < k ->
  (exists a b, (a < length src)%nat /\ (b < length src)%nat /\
               nth a src origin <> nth b src origin) ->
  estimate_scale_point_sets idxs src (scale_points k src) max_est =
  if Rlt_dec k max_est then inr (Some k, Some 0) else inr (None, None).
Proof.
  intros Hp Hk (a & b & Ha & Hb & Hab).
  pose proof (Permutation_length Hp) as Hl. rewrite length_seq in Hl.
  assert (Hne : a <> b) by (intros ->; apply Hab; reflexivity).
  assert (Hin : forall i, In i idxs ->
                  (i < length src)%nat /\
                  (i < length (scale_points k src))%nat).
  { intros i Hi. apply (seq_bound _ _ _ Hp) in Hi.
    unfold scale_points. rewrite length_map. lia. }
  rewrite estimate_scale_point_sets_eq; [|lia | exact Hin].
  destruct (clean_scaled_pairs k max_est src (combinations2 idxs) Hk)
    as (m & Hm & Hbig & Hpos & _).
  { intros i j Hij. apply combinations2_In in Hij. destruct Hij as [Hi Hj].
    split; [apply (Hin i Hi) | apply (Hin j Hj)]. }
  rewrite Hm. destruct (Rlt_dec k max_est) as [Hlt | Hge].
  - assert (Hm0 : (0 < m)%nat).
    { apply Hpos; [exact Hlt|].
      assert (Hd : forall i j, nth i src origin <> nth j src origin ->
                               dist_at src (i, j) <> 0).
      { intros i j Hij Hd. apply Hij. unfold dist_at in Hd. simpl in Hd.
        apply norm3_zero in Hd.
        destruct (nth i src origin), (nth j src origin).
        unfold vec_sub, origin, rv in Hd. cbn in Hd.
        injection Hd as H0 H1 H2. f_equal; lra. }
      destruct (combinations2_complete idxs a b) as [Hc | Hc];
        [apply (seq_bound _ _ _ Hp); exact Ha
        |apply (seq_bound _ _ _ Hp); exact Hb | exact Hne | |].
      - exists a, b. split; [exact Hc | apply Hd, Hab].
      - exists b, a. split; [exact Hc|]. apply Hd. congruence. }
    rewrite (median_repeat k m Hm0), (std_repeat k m Hm0). reflexivity.
  - rewrite (Hbig ltac:(lra)). reflexivity.
Qed.

Lemma sample_cloud_distinct :
  exists a b, (a < length sample_cloud)%nat /\ (b < length sample_cloud)%nat /\
              nth a sample_cloud origin <> nth b sample_cloud origin.
Proof.
  exists 0%nat, 1%nat. simpl. split; [lia|]. split; [lia|].
  unfold rv. intros H. injection H as H0 H1. lra.
Qed.

(** The scale 2 is recovered; the scale 50000 is filtered out by the
    default [max_est] and comes back as [nan]. *)
Lemma estimate_scale_recovers_scale_witness :
  Permutation [2; 0; 1]%nat (seq 0 (length sample_cloud)) /\
  estimate_scale_point_sets [2; 0; 1]%nat sample_cloud
    (scale_points 2 sample_cloud) max_est_default = inr (Some 2, Some 0) /\
  estimate_scale_point_sets [2; 0; 1]%nat sample_cloud
    (scale_points 50000 sample_cloud) max_est_default = inr (None, None).
Proof.
  split; [exact permutation_201|]. split.
  - rewrite (estimate_scale_recovers_scale [2; 0; 1]%nat sample_cloud 2
               max_est_default permutation_201 ltac:(lra)
               sample_cloud_distinct).
    unfold max_est_default.
    destruct (Rlt_dec 2 50000); [reflexivity | exfalso; lra].
  - rewrite (estimate_scale_recovers_scale [2; 0; 1]%nat sample_cloud 50000
               max_est_default permutation_201 ltac:(lra)
               sample_cloud_distinct).
    unfold max_est_default.
    destruct (Rlt_dec 50000 50000); [exfalso; lra | reflexivity].
Defined.

(** Degenerate inputs, in exact arithmetic. With fewer than two points the
    array of index pairs is empty and the function raises [IndexError].
    With two or more points that all coincide every ratio divides by 0,
    nothing passes the filter, and the function returns the pair of [nan]
    without raising. *)
Theorem estimate_scale_degenerate (idxs : list nat) (src dst : list rvec)
  (max_est : R) :
  Permutation idxs (seq 0 (length src)) ->
  ((length src < 2)%nat ->
   estimate_scale_point_sets idxs src dst max_est = inl IndexError) /\
  ((2 <= length src)%nat -> (length src <= length dst)%nat ->
   (forall a b, (a < length src)%nat -> (b < length src)%nat ->
                nth a src origin = nth b src origin) ->
   estimate_scale_point_sets idxs src dst max_est = inr (None, None)).
Proof.
  intros Hp.
  pose proof (Permutation_length Hp) as Hl. rewrite length_seq in Hl.
  split.
  - intros Hsmall. unfold estimate_scale_point_sets.
    rewrite (proj2 (combinations2_nil idxs)) by lia. reflexivity.
  - intros Hbig Hdst Hsame.
    rewrite estimate_scale_point_sets_eq; [|lia|].
    + assert (Hc : flat_map (clean max_est)
                     (map (ratio_at src dst) (combinations2 idxs)) = []).
      { assert (Hall : forall i j, In (i, j) (combinations2 idxs) ->
                         dist_at src (i, j) = 0).
        { intros i j Hij. apply combinations2_In in Hij.
          destruct Hij as [Hi Hj]. apply (seq_bound _ _ _ Hp) in Hi, Hj.
          unfold dist_at. simpl. rewrite (Hsame i j Hi Hj).
          apply norm3_zero. destruct (nth j src origin).
          unfold vec_sub, origin, rv. cbn. f_equal; ring. }
        induction (combinations2 idxs) as [|[i j] rest IH];
          [reflexivity|].
        cbn [map flat_map]. rewrite IH
          by (intros x y Hxy; apply Hall; right; exact Hxy).
        unfold ratio_at, divide.
        rewrite (Hall i j (or_introl eq_refl)).
        destruct (Req_dec_T 0 0); [|congruence].
        destruct (Req_dec_T (dist_at dst (i, j)) 0); reflexivity. }
      rewrite Hc. reflexivity.
    + intros i Hi. apply (seq_bound _ _ _ Hp) in Hi. lia.
Qed.

Lemma estimate_scale_degenerate_witness :
  Permutation [0]%nat (seq 0 (length [rv 1 2 3])) /\
  estimate_scale_point_sets [0]%nat [rv 1 2 3] [rv 2 4 6] max_est_default
  = inl IndexError.
Proof.
  assert (Hp : Permutation [0]%nat (seq 0 (length [rv 1 2 3])))
    by apply Permutation_refl.
  split; [exact Hp|].
  apply (proj1 (estimate_scale_degenerate [0]%nat [rv 1 2 3] [rv 2 4 6]
                  max_est_default Hp)).
  simpl. lia.
Defined.

End ScaleEstimator.

(** ** procrustes_registration in exact arithmetic *)

Section Procrustes.
Local Open Scope R_scope.
Variable orthogonal_procrustes : list rvec -> list rvec -> result (rmat * R).

Ltac unfold_linalg :=
  cbv beta iota zeta delta
    [invert_Rt transpose mat_vec mat_mul mat_neg mat_map vec_map vec_add
     vec_scale scale_vec dot3 col0 col1 col2 eye3 zeros3 fst snd
     row0 row1 row2 vx vy vz sadd smul sneg szero sone RScalar rv
     transform_row vec_sub].

Lemma fold_left_Rplus (l : list R) (x : R) :
  fold_left Rplus l x = x + fold_right Rplus 0 l.
Proof.
  revert x. induction l as [|y l IH]; intros x; simpl; [ring|].
  rewrite IH. ring.
Qed.

Lemma mean_scalars_eq (x : R) (xs : list R) :
  @eq R (@mean_scalars RScalar (x :: xs))
        (fold_right Rplus 0 (x :: xs) / INR (length (x :: xs))).
Proof. unfold mean_scalars. cbn [sdiv sadd sofnat RScalar]. rewrite fold_left_Rplus. reflexivity. Qed.

Lemma mean_scalars_repeat (c : R) (n : nat) :
  @eq R (@mean_scalars RScalar (repeat c (S n))) c.
Proof.
  cbn [repeat]. rewrite mean_scalars_eq.
  change (c :: repeat c n) with (repeat c (S n)).
  rewrite sum_repeat, repeat_length. field. apply not_0_INR. lia.
Qed.

Lemma centroid_repeat (p : rvec) (n : nat) : centroid (repeat p (S n)) = p.
Proof.
  unfold centroid, mean_vec3. rewrite !map_repeat, !mean_scalars_repeat.
  destruct p; reflexivity.
Qed.

Lemma frobenius_zero (X : list rvec) :
  frobenius X = 0 <-> forall x, In x X -> x = origin.
Proof.
  unfold frobenius. split.
  - intros H x Hx. apply sqrt_eq_0 in H.
    + induction X as [|y X IH]; [destruct Hx|].
      simpl in H.
      assert (Hy : 0 <= vx y * vx y + vy y * vy y + vz y * vz y) by nra.
      assert (Hrest : 0 <= fold_right Rplus 0
                (map (fun v : rvec => vx v * vx v + vy v * vy v + vz v * vz v)
                     X)).
      { apply sum_nonneg, Forall_forall. intros z Hz.
        apply in_map_iff in Hz. destruct Hz as (v & <- & _). nra. }
      destruct Hx as [<- | Hx].
      * apply norm3_zero. unfold norm3.
        replace (vx y * vx y + vy y * vy y + vz y * vz y) with 0 by lra.
        apply sqrt_0.
      * apply IH; [lra | exact Hx].
    + apply sum_nonneg, Forall_forall. intros z Hz.
      apply in_map_iff in Hz. destruct Hz as (v & <- & _). nra.
  - intros H. rewrite sum_zero; [apply sqrt_0|].
    apply Forall_forall. intros z Hz. apply in_map_iff in Hz.
    destruct Hz as (v & <- & Hv). rewrite (H v Hv).
    unfold origin, rv. cbn. ring.
Qed.

Lemma centre_coinciding (X : list rvec) (p : rvec) :
  (forall x, In x X -> x = p) -> frobenius (centre (centroid X) X) = 0.
Proof.
  intros Hall. apply frobenius_zero. intros x Hx. unfold centre in Hx.
  apply in_map_iff in Hx. destruct Hx as (y & <- & Hy).
  assert (HX : X = repeat p (length X)).
  { apply Forall_eq_repeat. apply Forall_forall. intros z Hz.
    symmetry. apply Hall, Hz. }
  destruct X as [|x0 X]; [destruct Hy|].
  rewrite HX. simpl length. rewrite centroid_repeat.
  rewrite (Hall y Hy). destruct p. unfold vec_sub, origin, rv. cbn.
  f_equal; ring.
Qed.

(** The guards of lines 52-54 and 71-72. Arrays of different lengths fail
    the assertion of line 52. Two arrays without rows pass it, and line 53
    raises [IndexError] on their shape. In exact arithmetic, when the
    arrays have rows and all the points of [src] coincide, or all the
    points of [dst], the function raises the [ValueError] of line 72
    before the solver is called. *)
Theorem procrustes_rejects_degenerate (src dst : list rvec) (p : rvec) :
  (length src <> length dst ->
   procrustes_registration orthogonal_procrustes src dst
   = inl AssertionError) /\
  (src = [] -> dst = [] ->
   procrustes_registration orthogonal_procrustes src dst
   = inl IndexError) /\
  (length src = length dst -> src <> [] ->
   (forall x, In x src -> x = p) \/ (forall x, In x dst -> x = p) ->
   procrustes_registration orthogonal_procrustes src dst
   = inl (ValueError "Input matrices must contain >1 unique points")).
Proof.
  unfold procrustes_registration. split; [|split].
  - intros Hne. destruct (Nat.eqb_spec (length src) (length dst));
      [contradiction | reflexivity].
  - intros -> ->. reflexivity.
  - intros Hlen Hne Hall.
    destruct (Nat.eqb_spec (length src) (length dst)) as [_ | E];
      [|contradiction].
    cbn [negb].
    destruct (Nat.eqb_spec (length src) 0) as [E0 | _].
    { destruct src; [congruence | discriminate]. }
    fold (centroid src). fold (centroid dst).
    destruct (Req_dec_T (frobenius (centre (centroid src) src)) 0) as [E1|E1];
      [reflexivity|].
    destruct (Req_dec_T (frobenius (centre (centroid dst) dst)) 0) as [E2|E2];
      [reflexivity|].
    exfalso. destruct Hall as [Hall | Hall].
    + apply E1. eapply centre_coinciding. exact Hall.
    + apply E2. eapply centre_coinciding. exact Hall.
Qed.

(** Whatever rotation and scale the solver returns, a result of the
    registration maps the centroid of [src] onto the centroid of [dst].
    A result is only returned for arrays of the same length whose points
    do not all coincide, and its mean distance is a number that is not
    negative. *)
Theorem procrustes_maps_centroid (src dst : list rvec) (scale : R)
  (M : rmat) (t : rvec) (mean_dist : option R) :
  procrustes_registration orthogonal_procrustes src dst
    = inr (scale, M, t, mean_dist) ->
  length src = length dst /\
  ~ (exists p, forall x, In x src -> x = p) /\
  ~ (exists p, forall x, In x dst -> x = p) /\
  transform_row M t scale (centroid src) = centroid dst /\
  exists r, mean_dist = Some r /\ 0 <= r.
Proof.
  unfold procrustes_registration. intros H.
  destruct (Nat.eqb_spec (length src) (length dst)) as [Hlen | Hlen];
    [|discriminate]. cbn [negb] in H.
  destruct (Nat.eqb_spec (length src) 0) as [E0 | E0]; [discriminate|].
  fold (centroid src) in H. fold (centroid dst) in H.
  assert (Hall1 : ~ (exists p, forall x, In x src -> x = p)).
  { intros (p & Hp).
    destruct (Req_dec_T (frobenius (centre (centroid src) src)) 0)
      as [E1|E1]; [discriminate|].
    apply E1. eapply centre_coinciding. exact Hp. }
  assert (Hall2 : ~ (exists p, forall x, In x dst -> x = p)).
  { intros (p & Hp).
    destruct (Req_dec_T (frobenius (centre (centroid src) src)) 0)
      as [E1|E1]; [discriminate|].
    destruct (Req_dec_T (frobenius (centre (centroid dst) dst)) 0)
      as [E2|E2]; [discriminate|].
    apply E2. eapply centre_coinciding. exact Hp. }
  remember (centroid src) as m1 eqn:Hm1.
  remember (centroid dst) as m2 eqn:Hm2.
  destruct (Req_dec_T (frobenius (centre m1 src)) 0) as [E1|E1];
    [discriminate|].
  destruct (Req_dec_T (frobenius (centre m2 dst)) 0) as [E2|E2];
    [discriminate|].
  destruct (orthogonal_procrustes _ _) as [e|[M' s]]; [discriminate|].
  cbn [bind] in H.
  match type of H with
  | context [average_distance ?X ?Y] =>
      destruct (average_distance_equal_length X Y) as (d & Hd & _ & Hpos);
      [unfold apply_rigid_transform; rewrite length_map; exact Hlen|];
      rewrite Hd in H
  end.
  cbn [bind ret] in H. injection H as Hscale HM Ht Hmd.
  subst M' mean_dist.
  split; [exact Hlen|]. split; [exact Hall1|]. split; [exact Hall2|].
  split.
  - rewrite <- Ht, Hscale. clear.
    destruct M as [[a00 a01 a02] [a10 a11 a12] [a20 a21 a22]].
    destruct m1 as [x0 x1 x2], m2 as [y0 y1 y2].
    unfold_linalg. apply rvec_eq; cbn; ring.
  - assert (Hne : src <> []).
    { intros ->. apply Hall1. exists origin. intros x []. }
    destruct d as [r|].
    + exists r. split; [reflexivity | apply Hpos; reflexivity].
    + exfalso. unfold average_distance, broadcast_sub in Hd.
      unfold apply_rigid_transform in Hd. rewrite length_map in Hd.
      rewrite Hlen, Nat.eqb_refl in Hd. cbn [bind ret] in Hd.
      injection Hd as Hd. unfold mean in Hd.
      destruct src as [|x src]; [congruence|].
      destruct dst as [|y dst]; [discriminate|]. discriminate.
Qed.

(** *** A scaled copy *)

Lemma sum_scale (k : R) (l : list R) :
  fold_right Rplus 0 (map (Rmult k) l) = k * fold_right Rplus 0 l.
Proof. induction l as [|x l IH]; simpl; [ring | rewrite IH; ring]. Qed.

Lemma mean_scalars_scale (k : R) (l : list R) :
  l <> [] ->
  @eq R (@mean_scalars RScalar (map (Rmult k) l))
        (k * @mean_scalars RScalar l).
Proof.
  intros Hne. destruct l as [|x l]; [congruence|].
  cbn [map]. rewrite !mean_scalars_eq.
  change (k * x :: map (Rmult k) l) with (map (Rmult k) (x :: l)).
  rewrite sum_scale, length_map. field.
  apply not_0_INR. simpl. lia.
Qed.

Lemma centroid_scale (k : R) (X : list rvec) :
  X <> [] ->
  centroid (scale_points k X)
  = rv (k * vx (centroid X)) (k * vy (centroid X)) (k * vz (centroid X)).
Proof.
  intros Hne. unfold centroid, mean_vec3, scale_points, rv.
  rewrite !map_map. cbn [vx vy vz].
  rewrite <- (map_map (@vx RScalar) (Rmult k)),
          <- (map_map (@vy RScalar) (Rmult k)),
          <- (map_map (@vz RScalar) (Rmult k)).
  rewrite !mean_scalars_scale
    by (destruct X; [congruence | discriminate]).
  reflexivity.
Qed.

Lemma centre_scale (k : R) (m : rvec) (X : list rvec) :
  centre (rv (k * vx m) (k * vy m) (k * vz m)) (scale_points k X)
  = scale_points k (centre m X).
Proof.
  unfold centre, scale_points. rewrite !map_map. apply map_ext.
  intros x. destruct x, m. unfold vec_sub, rv. cbn. f_equal; ring.
Qed.

Lemma frobenius_scale (k : R) (X : list rvec) :
  0 <= k -> frobenius (scale_points k X) = k * frobenius X.
Proof.
  intros Hk. unfold frobenius, scale_points. rewrite map_map.
  cbn [vx vy vz rv].
  rewrite (map_ext _ (fun v : rvec =>
             (k * k) * (vx v * vx v + vy v * vy v + vz v * vz v)))
    by (intros v; ring).
  rewrite <- (map_map (fun v : rvec => vx v * vx v + vy v * vy v + vz v * vz v)
                      (Rmult (k * k))).
  rewrite sum_scale, sqrt_mult.
  - rewrite sqrt_square by exact Hk. reflexivity.
  - nra.
  - apply sum_nonneg, Forall_forall. intros z Hz.
    apply in_map_iff in Hz. destruct Hz as (v & <- & _). nra.
Qed.

Lemma normalise_scale (k n : R) (X : list rvec) :
  k <> 0 -> n <> 0 ->
  normalise (k * n) (scale_points k X) = normalise n X.
Proof.
  intros Hk Hn. unfold normalise, scale_points. rewrite map_map.
  apply map_ext. intros v. destruct v. unfold rv. cbn.
  f_equal; field; auto.
Qed.

Lemma spread_points (X : list rvec) :
  ~ (exists p, forall x, In x X -> x = p) ->
  X <> [] /\ frobenius (centre (centroid X) X) <> 0.
Proof.
  intros Hn. split.
  - intros ->. apply Hn. exists origin. intros x [].
  - intros E. apply Hn. exists (centroid X). intros x Hx.
    rewrite frobenius_zero in E.
    assert (Hz : vec_sub x (centroid X) = origin).
    { apply E. unfold centre.
      exact (in_map (fun y : rvec => vec_sub y (centroid X)) X x Hx). }
    destruct x, (centroid X). unfold vec_sub, origin, rv in Hz. cbn in Hz.
    injection Hz as H0 H1 H2. f_equal; lra.
Qed.

(** The registration of an array onto its copy scaled by [k], for a
    solver that answers identity and 1 on the normalised array. *)
Lemma procrustes_scaled_copy (src : list rvec) (k : R) :
  0 < k ->
  ~ (exists p, forall x, In x src -> x = p) ->
  orthogonal_procrustes
    (normalise (frobenius (centre (centroid src) src))
               (centre (centroid src) src))
    (normalise (frobenius (centre (centroid src) src))
               (centre (centroid src) src))
  = inr (eye3, 1) ->
  procrustes_registration orthogonal_procrustes src (scale_points k src)
  = inr (k, eye3, origin, Some 0).
Proof.
  intros Hk Hspread Hsolver.
  destruct (spread_points src Hspread) as [Hne Hn1].
  unfold procrustes_registration.
  assert (Hlen : length src = length (scale_points k src))
    by (unfold scale_points; rewrite length_map; reflexivity).
  rewrite <- Hlen, Nat.eqb_refl. cbn [negb].
  destruct (Nat.eqb_spec (length src) 0) as [E0 | _].
  { destruct src; [congruence | discriminate]. }
  fold (centroid src). fold (centroid (scale_points k src)).
  rewrite (centroid_scale k src Hne), centre_scale.
  rewrite frobenius_scale by lra.
  remember (centroid src) as m1 eqn:Hm1.
  remember (frobenius (centre m1 src)) as n1 eqn:Hn.
  destruct (Req_dec_T n1 0) as [E | _]; [contradiction|].
  destruct (Req_dec_T (k * n1) 0) as [E | _]; [exfalso; nra|].
  rewrite normalise_scale by (try lra; assumption).
  rewrite Hsolver. cbn [bind].
  replace (1 * (k * n1) / n1) with k by (field; exact Hn1).
  assert (Ht : vec_sub (rv (k * vx m1) (k * vy m1) (k * vz m1))
                 (rv (@dot3 RScalar (@vec_scale RScalar m1 k) (row0 eye3))
                     (@dot3 RScalar (@vec_scale RScalar m1 k) (row1 eye3))
                     (@dot3 RScalar (@vec_scale RScalar m1 k) (row2 eye3)))
               = origin).
  { clear. destruct m1 as [x0 x1 x2]. unfold origin. unfold_linalg.
    apply rvec_eq; cbn; ring. }
  rewrite Ht.
  assert (Hmove : apply_rigid_transform src eye3 origin k
                  = scale_points k src).
  { unfold apply_rigid_transform, scale_points. apply map_ext.
    intros [x0 x1 x2]. unfold origin. unfold_linalg.
    apply rvec_eq; cbn; ring. }
  rewrite Hmove, average_distance_self; [reflexivity|].
  unfold scale_points. destruct src; [congruence | discriminate].
Qed.

(** In exact arithmetic, for an array whose points do not all coincide
    and its copy scaled by [k > 0], the two normalised arrays that the
    solver receives are equal; if the solver answers them with the identity
    rotation and [s = 1], the registration returns the scale [k], the
    identity rotation, the zero translation and mean distance 0. *)
Theorem procrustes_recovers_scale (src : list rvec) (k : R) :
  0 < k ->
  ~ (exists p, forall x, In x src -> x = p) ->
  let P := centre (centroid src) src in
  let Q := centre (centroid (scale_points k src)) (scale_points k src) in
  normalise (frobenius Q) Q = normalise (frobenius P) P /\
  (orthogonal_procrustes (normalise (frobenius P) P)
     (normalise (frobenius P) P) = inr (eye3, 1) ->
   procrustes_registration orthogonal_procrustes src (scale_points k src)
   = inr (k, eye3, origin, Some 0)).
Proof.
  intros Hk Hspread P Q. split.
  - destruct (spread_points src Hspread) as [Hne Hn1].
    unfold Q, P. rewrite (centroid_scale k src Hne), centre_scale.
    rewrite frobenius_scale by lra. apply normalise_scale; [lra | exact Hn1].
  - intros Hsolver. apply procrustes_scaled_copy; assumption.
Qed.

End Procrustes.

Lemma sample_cloud_spread :
  ~ (exists p, forall x, In x sample_cloud -> x = p).
Proof.
  intros (p & Hp).
  assert (H1 : rv 1 0 0 = p) by (apply Hp; simpl; auto).
  assert (H2 : rv 0 1 0 = p) by (apply Hp; simpl; auto).
  rewrite <- H2 in H1. unfold rv in H1. injection H1 as H _. lra.
Qed.

Lemma procrustes_maps_centroid_witness :
  procrustes_registration identity_solver sample_cloud
    (scale_points 2 sample_cloud)
  = inr (2%R, @eye3 RScalar, origin, Some 0%R) /\
  transform_row eye3 origin 2 (centroid sample_cloud)
  = centroid (scale_points 2 sample_cloud).
Proof.
  assert (Hrun : procrustes_registration identity_solver sample_cloud
                   (scale_points 2 sample_cloud)
                 = inr (2%R, @eye3 RScalar, origin, Some 0%R)).
  { apply procrustes_scaled_copy;
      [lra | exact sample_cloud_spread | reflexivity]. }
  split; [exact Hrun|].
  destruct (procrustes_maps_centroid identity_solver sample_cloud
              (scale_points 2 sample_cloud) 2%R eye3 origin (Some 0%R) Hrun)
    as (_ & _ & _ & Hc & _).
  exact Hc.
Defined.

Lemma procrustes_recovers_scale_witness :
  (0 < 2)%R /\
  ~ (exists p, forall x, In x sample_cloud -> x = p) /\
  procrustes_registration identity_solver sample_cloud
    (scale_points 2 sample_cloud)
  = inr (2%R, @eye3 RScalar, origin, Some 0%R).
Proof.
  assert (H2 : (0 < 2)%R) by lra.
  split; [exact H2|]. split; [exact sample_cloud_spread|].
  apply (proj2 (procrustes_recovers_scale identity_solver sample_cloud 2%R
                  H2 sample_cloud_spread)).
  reflexivity.
Defined.

(** ** compute_relative_poses_robust: the entry and the path estimates *)

Lemma build_view_graph_loop_nodes_sub {P} (landmarks : landmark_store P)
  (combos : list Pair) :
  forall G G',
    build_view_graph_loop landmarks combos G = inr G' ->
    forall x, In x (g_nodes G') -> In x (g_nodes G) \/ endpoint combos x.
Proof.
  induction combos as [|[a b] combos IH]; intros G G' H x Hx; simpl in H.
  - inversion H; subst. left. exact Hx.
  - destruct (get_landmarks landmarks a) as [e|la]; [discriminate|].
    destruct (get_landmarks landmarks b) as [e|lb]; [discriminate|].
    simpl in H.
    assert (Hmono : forall e, endpoint combos e ->
                              endpoint ((a, b) :: combos) e).
    { intros e (c & Hc & He). exists c. split; [right; exact Hc | exact He]. }
    destruct (8 <? length (intersection (lm_timestamp la) (lm_timestamp lb))).
    + destruct (IH _ _ H x Hx) as [Hg | He]; [|right; apply Hmono, He].
      simpl in Hg. rewrite !add_node_In in Hg.
      destruct Hg as [[Hg | ->] | ->]; [left; exact Hg | |];
        right; exists (a, b); simpl; auto.
    + destruct (IH _ _ H x Hx) as [Hg | He];
        [left; exact Hg | right; apply Hmono, He].
Qed.

Section RobustMore.
Variable S : Scalar.
Variable P : Type.
Variable geo : Geometry S P.
Variable est : list (vec3 S) -> list (vec3 S) -> result (S * S).
Variable proc :
  list (vec3 S) -> list (vec3 S) -> result (S * mat3 S * vec3 S * S).
Variable intrinsics : dict View (intrinsics_entry S).
Variable landmarks : landmark_store P.
Variable method : string.
Variable th : S.
Variable max_paths : Z.
Variable method_scale : string.
Variable verbose : Z.

Lemma robust_pair_entry (G : Graph nat) (view1 view2 : View)
  (rp : relative_pose S) (notices : list notice) :
  robust_pair geo est proc G intrinsics landmarks method th max_paths
    method_scale verbose view1 view2 = Returned (rp, notices) ->
  In view1 (g_nodes G) /\
  exists pts1 pts2 i1 i2 pts1_undist pts2_undist,
    _common_landmarks view1 view2 landmarks
      = inr (pts1, pts2, rp_timestamps rp) /\
    dict_get Nat.eqb intrinsics view1 = Some i1 /\
    dict_get Nat.eqb intrinsics view2 = Some i2 /\
    undistort_points geo pts1 (intr_K i1) (intr_dist i1) = inr pts1_undist /\
    undistort_points geo pts2 (intr_K i2) (intr_dist i2) = inr pts2_undist /\
    fundamental_from_relative_pose geo (rp_Rd rp) (rp_td rp) (intr_K i1)
      (intr_K i2) = inr (rp_F rp) /\
    triangulate geo pts1_undist pts2_undist (intr_K i1) eye3 zeros3
      (intr_K i2) (rp_Rd rp) (rp_td rp) = inr (rp_triang_points rp).
Proof.
  intros H. unfold robust_pair in H.
  step_returned H direct_poses Hd.
  step_returned H paths Hp.
  step_returned H direct Hdir.
  step_returned H x Hx. destruct x as [ests logs].
  step_returned H y Hy. destruct y as [[pts1 pts2] idxs].
  step_returned H i1 Hi1. step_returned H i2 Hi2.
  step_returned H u1 Hu1. step_returned H u2 Hu2.
  step_returned H F HF. step_returned H tri Htri.
  step_returned H z Hz. inversion H; subst. clear H. simpl.
  unfold all_simple_paths_3 in Hp.
  destruct (mem view1 (g_nodes G)) eqn:M1; [|discriminate].
  destruct (mem view2 (g_nodes G)) eqn:M2; [|discriminate].
  apply mem_In in M1.
  split; [exact M1|].
  unfold get_intrinsics in Hi1, Hi2.
  exists pts1, pts2, i1, i2, u1, u2.
  split; [exact Hy|].
  split.
  { destruct (dict_get Nat.eqb intrinsics view1); inversion Hi1;
      reflexivity. }
  split.
  { destruct (dict_get Nat.eqb intrinsics view2); inversion Hi2;
      reflexivity. }
  auto.
Qed.

(** The entry that the robust estimator stores for a pair is computed
    anew from the averaged pose: its fundamental matrix is the one of the
    averaged rotation and translation, its points are triangulated from the
    undistorted common landmarks of the two views with the first camera at
    the origin and the second at the averaged pose, and its timestamps are
    those of the common landmarks. The result has an entry exactly for the
    pairs of the view tree, and the first view of each pair, the source of
    the path query, is one of [views]. *)
Theorem robust_entry_is_recomputed (views : list View)
  (view_tree : list Pair) (relative_poses : dict Pair (relative_pose S))
  (log : list notice) :
  compute_relative_poses_robust geo est proc views view_tree intrinsics
    landmarks method th max_paths method_scale verbose
  = Returned (relative_poses, log) ->
  (forall key, In key (dict_keys relative_poses) <-> In key view_tree) /\
  forall view1 view2, In (view1, view2) view_tree ->
    In view1 views /\
    exists rp pts1 pts2 i1 i2 pts1_undist pts2_undist,
      dict_get pair_eqb relative_poses (view1, view2) = Some rp /\
      _common_landmarks view1 view2 landmarks
        = inr (pts1, pts2, rp_timestamps rp) /\
      dict_get Nat.eqb intrinsics view1 = Some i1 /\
      dict_get Nat.eqb intrinsics view2 = Some i2 /\
      undistort_points geo pts1 (intr_K i1) (intr_dist i1)
        = inr pts1_undist /\
      undistort_points geo pts2 (intr_K i2) (intr_dist i2)
        = inr pts2_undist /\
      fundamental_from_relative_pose geo (rp_Rd rp) (rp_td rp) (intr_K i1)
        (intr_K i2) = inr (rp_F rp) /\
      triangulate geo pts1_undist pts2_undist (intr_K i1) eye3 zeros3
        (intr_K i2) (rp_Rd rp) (rp_td rp) = inr (rp_triang_points rp).
Proof.
  intros H. unfold compute_relative_poses_robust in H.
  step_returned H G HG.
  assert (Hnodes : forall x, In x (g_nodes G) -> In x views).
  { intros x Hx. unfold build_view_graph in HG.
    destruct (build_view_graph_loop_nodes_sub _ _ _ _ HG x Hx)
      as [Hx' | (e & He & Hx')].
    - simpl in Hx'. apply fold_add_node_In in Hx'.
      destruct Hx' as [[] | Hx']. exact Hx'.
    - destruct e as [a b]. apply combinations2_In in He. simpl in Hx'.
      destruct Hx' as [-> | ->]; tauto. }
  pose proof H as Hloop.
  apply compute_relative_poses_robust_loop_spec in H.
  destruct H as (Hall & Hkeep & _). split.
  - intros key. split.
    + intros Hkey. destruct (in_dec pair_eq_dec key view_tree) as [Hin | Hn];
        [exact Hin|].
      exfalso. apply (Hkeep key) in Hn. simpl in Hn.
      unfold dict_keys in Hkey. apply in_map_iff in Hkey.
      destruct Hkey as ([k v] & <- & Hkv). simpl in Hn.
      clear -Hkv Hn. induction relative_poses as [|[k' v'] d IH];
        [destruct Hkv|].
      simpl in Hn. destruct (pair_eqb k' k) eqn:E; [discriminate|].
      destruct Hkv as [Ekv | Hkv]; [|apply IH; assumption].
      inversion Ekv; subst. rewrite pair_eqb_refl in E. discriminate.
    + intros Hin. destruct key as [v1 v2].
      destruct (Hall v1 v2 Hin) as (rp & n & _ & Hget & _).
      clear -Hget. unfold dict_keys.
      induction relative_poses as [|[k' v'] d IH]; [discriminate|].
      simpl in Hget. destruct (pair_eqb k' (v1, v2)) eqn:E.
      * apply pair_eqb_eq in E. subst. left. reflexivity.
      * right. apply IH. exact Hget.
  - intros v1 v2 Hin.
    destruct (Hall v1 v2 Hin) as (rp & n & Hpair & Hget & _).
    destruct (robust_pair_entry G v1 v2 rp n Hpair)
      as (Hv1 & pts1 & pts2 & i1 & i2 & u1 & u2 & Hrest).
    split; [apply Hnodes, Hv1|].
    exists rp, pts1, pts2, i1, i2, u1, u2. split; [exact Hget | exact Hrest].
Qed.

(** The estimate along the path [view1, w, view2] composes the relative
    poses of the two pairs of the path: with [(R1, t1)] the relative pose of
    [(view1, w)] read through [np.float32], [(R2, t2)] the relative pose of
    [(w, view2)] and [s] the scale estimated between the two pairs, the
    estimate is [R2 . R1] and [R2 . t1 + s * t2]. The concatenation prints
    the low-scale warning when [s] is below 0.1 and nothing else. *)
Theorem path_estimate_composes (view1 view2 w : View) (R : mat3 S)
  (t : vec3 S) (log : list notice) :
  path_estimate geo est proc intrinsics landmarks method th method_scale
    verbose view1 view2 w = Returned (R, t, log) ->
  exists relative_poses rp1 rp2 p3d_com p3d_adj_com s sd,
    compute_relative_poses geo [(view1, w); (w, view2)] intrinsics
      landmarks method th verbose = inr relative_poses /\
    dict_get pair_eqb relative_poses (view1, w) = Some rp1 /\
    dict_get pair_eqb relative_poses (w, view2) = Some rp2 /\
    estimate_scale S est proc method_scale p3d_com p3d_adj_com
      = inr (s, sd) /\
    R = mat_mul (rp_Rd rp2) (mat_map (to_float32 S) (rp_Rd rp1)) /\
    t = vec_add (mat_vec (rp_Rd rp2) (vec_map (to_float32 S) (rp_td rp1)))
                (scale_vec s (rp_td rp2)) /\
    log = if slt_tenth S s then [LowScaleWarning (w, view2)] else [].
Proof.
  intros H. unfold path_estimate in H.
  step_returned H rps Hrps.
  step_returned H x Hx. destruct x as [st log0].
  step_returned H p Hp. inversion H; subst R t log0. clear H.
  unfold concatenate_relative_poses in Hx.
  destruct (dict_get pair_eqb rps (view1, w)) as [rp1|] eqn:Hrp1;
    [|discriminate].
  cbn [length concatenate_loop run_pass] in Hx.
  assert (Hadj : find_adjacent_pair
                   (triang_points (initial_state (view1, w) rp1)) (w, view2)
                 = (Some (view1, w), false)).
  { unfold find_adjacent_pair, initial_state. simpl.
    unfold in_pair. simpl. rewrite Nat.eqb_refl, orb_true_r. reflexivity. }
  rewrite Hadj in Hx.
  destruct (resolve_pair S est proc method_scale rps
              (initial_state (view1, w) rp1) (w, view2) (view1, w) false)
    as [e|[st1 w0]] eqn:Hres; [discriminate|].
  cbn [bind ret] in Hx. cbn in Hx. inversion Hx; subst st log. clear Hx.
  apply resolve_pair_inv in Hres.
  destruct Hres as (p1 & rp2 & a & c1 & c2 & s & sd &
                    Hp1 & Hrp2 & _ & Hs & -> & ->).
  simpl first_view in Hp1. unfold initial_state in Hp1. cbn [poses] in Hp1.
  rewrite (dict_get_set_same Nat.eqb Nat.eqb_eq) in Hp1.
  inversion Hp1; subst p1. clear Hp1.
  rewrite place_poses in Hp. simpl second_view in Hp.
  rewrite (dict_get_set_same Nat.eqb Nat.eqb_eq) in Hp.
  exists rps, rp1, rp2, c1, c2, s, sd.
  split; [exact Hrps|]. split; [exact Hrp1|]. split; [exact Hrp2|].
  split; [exact Hs|].
  simpl in Hp. inversion Hp; subst p. simpl. auto.
Qed.
End RobustMore.

Lemma robust_entry_is_recomputed_witness :
  robust_Q [0; 1; 2] [(0, 2)] = Returned robust_triangle /\
  (forall key, In key (dict_keys (fst robust_triangle)) <->
               In key [(0, 2)]) /\
  In 0 [0; 1; 2] /\
  dict_get pair_eqb (fst robust_triangle) (0, 2) <> None.
Proof.
  split; [exact robust_Q_triangle|].
  destruct (robust_entry_is_recomputed QScalar nat sample_geometry
              (reported_scale 1) (reported_procrustes 1) sample_intrinsics
              triangle_store "8point" 1%Q 5%Z "cross-ratios" 0%Z
              [0; 1; 2] [(0, 2)] (fst robust_triangle)
              (snd robust_triangle) robust_Q_triangle) as [Hk Hall].
  split; [exact Hk|].
  destruct (Hall 0 2 (or_introl eq_refl)) as (H0 & rp & _ & _ & _ & _ & _ & _
                                              & Hget & _).
  split; [exact H0|].
  intros E. discriminate (eq_trans (eq_sym Hget) E).
Defined.

Lemma path_estimate_composes_witness :
  path_estimate sample_geometry (reported_scale 1) (reported_procrustes 1)
    sample_intrinsics triangle_store "8point" 1%Q "cross-ratios" 0%Z 0 2 1
  = Returned sample_path_estimate /\
  exists rp1 rp2 s,
    fst (fst sample_path_estimate)
    = mat_mul (rp_Rd rp2) (mat_map (to_float32 QScalar) (rp_Rd rp1)) /\
    snd (fst sample_path_estimate)
    = vec_add (mat_vec (rp_Rd rp2)
                 (vec_map (to_float32 QScalar) (rp_td rp1)))
              (@scale_vec QScalar s (rp_td rp2)).
Proof.
  assert (Hrun : path_estimate sample_geometry (reported_scale 1)
                   (reported_procrustes 1) sample_intrinsics triangle_store
                   "8point" 1%Q "cross-ratios" 0%Z 0 2 1
                 = Returned sample_path_estimate)
    by (vm_compute; reflexivity).
  split; [exact Hrun|].
  destruct (path_estimate_composes QScalar nat sample_geometry
              (reported_scale 1) (reported_procrustes 1) sample_intrinsics
              triangle_store "8point" 1%Q "cross-ratios" 0%Z 0 2 1
              (fst (fst sample_path_estimate))
              (snd (fst sample_path_estimate)) (snd sample_path_estimate)
              Hrun)
    as (rps & rp1 & rp2 & c1 & c2 & s & sd & _ & _ & _ & _ & HR & Ht & _).
  exists rp1, rp2, s. split; [exact HR | exact Ht].
Defined.

(** ** concatenate_relative_poses: what it can raise *)

Section ConcatenateErrors.
Variable S : Scalar.
Variable est : list (vec3 S) -> list (vec3 S) -> result (S * S).
Variable proc :
  list (vec3 S) -> list (vec3 S) -> result (S * mat3 S * vec3 S * S).
Variable method : string.
Variable relative_poses : dict Pair (relative_pose S).

Lemma gather_error (p3d : list (vec3 S)) (idx common : list Timestamp)
  (e : exn) :
  (forall i, In i common -> In i idx) ->
  gather p3d idx common = inl e -> e = IndexError.
Proof.
  induction common as [|i rest IH]; intros Hin H; simpl in H;
    [discriminate|].
  destruct (index_of idx i) as [n|] eqn:En.
  - simpl in H. destruct (nth_error p3d n); simpl in H;
      [|inversion H; reflexivity].
    destruct (gather p3d idx rest) as [e0|ps] eqn:Eg; simpl in H;
      [|discriminate].
    inversion H; subst. apply IH; [|reflexivity].
    intros j Hj. apply Hin. right. exact Hj.
  - exfalso. apply (index_of_In idx i); [|exact En].
    apply Hin. left. reflexivity.
Qed.

Lemma resolve_pair_error (tree : list Pair) (st : state S)
  (curr adj : Pair) (inverse : bool) (e : exn) :
  result_inv tree relative_poses st -> In curr tree ->
  find_adjacent_pair (triang_points st) curr = (Some adj, inverse) ->
  resolve_pair S est proc method relative_poses st curr adj inverse
    = inl e ->
  step_error est proc method tree relative_poses e.
Proof.
  intros [Hkeys _] Hcurr Hadj H.
  apply find_adjacent_pair_spec in Hadj. destruct Hadj as [Hk Hdir].
  destruct (Hkeys adj Hk) as (_ & Hf & Hs & rpa & a & _ & Ha & _).
  assert (Hfirst : dict_get Nat.eqb (poses st) (first_view curr inverse)
                   <> None).
  { destruct inverse; simpl.
    - destruct Hdir as [Hdir _]. apply in_pair_iff in Hdir.
      destruct Hdir as [-> | ->]; assumption.
    - apply in_pair_iff in Hdir. destruct Hdir as [-> | ->]; assumption. }
  unfold resolve_pair in H.
  destruct (dict_get Nat.eqb (poses st) (first_view curr inverse)) as [p1|];
    [|congruence]. simpl in H.
  destruct (dict_get pair_eqb relative_poses curr) as [rp|] eqn:Hrp;
    simpl in H.
  2: { inversion H; subst. right. left. exists curr. auto. }
  rewrite Ha in H. simpl in H.
  destruct (gather (te_triang_points a) (te_timestamps a) _)
    as [e1|c2] eqn:Hg2; simpl in H.
  { inversion H; subst. left. eapply gather_error; [|exact Hg2].
    intros i Hi. apply intersection_In in Hi. tauto. }
  destruct (gather (rp_triang_points rp) (rp_timestamps rp) _)
    as [e1|c1] eqn:Hg1; simpl in H.
  { inversion H; subst. left. eapply gather_error; [|exact Hg1].
    intros i Hi. apply intersection_In in Hi. tauto. }
  destruct (estimate_scale S est proc method c1 c2) as [e1|[s sd]] eqn:He;
    simpl in H; [|discriminate].
  inversion H; subst. unfold estimate_scale in He.
  destruct (String.eqb method "cross-ratios").
  { right. right. right. exists c1, c2. left. exact He. }
  destruct (String.eqb method "procrustes");
    [|inversion He; right; right; left; reflexivity].
  destruct (proc c1 c2) as [e1|[[[s ?] ?] ?]] eqn:Hp; simpl in He.
  { inversion He; subst. right. right. right. exists c1, c2. right.
    exact Hp. }
  destruct (est c1 c2) as [e1|[? sd]] eqn:Hs'; simpl in He; [|discriminate].
  inversion He; subst. right. right. right. exists c1, c2. left. exact Hs'.
Qed.

Lemma run_pass_error (tree : list Pair) (pairs : list Pair) :
  forall st um log e,
    incl pairs tree -> result_inv tree relative_poses st ->
    run_pass S est proc method relative_poses pairs st um log = inl e ->
    step_error est proc method tree relative_poses e.
Proof.
  induction pairs as [|curr pairs IH]; intros st um log e Hp HI H;
    simpl in H; [discriminate|].
  assert (Hc : In curr tree) by (apply Hp; left; reflexivity).
  assert (Hp' : incl pairs tree) by (intros x Hx; apply Hp; right; exact Hx).
  destruct (find_adjacent_pair (triang_points st) curr)
    as [[adj|] inverse] eqn:Hadj.
  - destruct (resolve_pair S est proc method relative_poses st curr adj
                           inverse) as [e1|[st1 w]] eqn:Hres; simpl in H.
    + inversion H; subst. eapply resolve_pair_error; eassumption.
    + eapply IH; [exact Hp' | | exact H].
      eapply result_inv_step; eassumption.
  - eapply IH; [exact Hp' | exact HI | exact H].
Qed.

Lemma concatenate_loop_error (tree : list Pair) (fuel : nat) :
  forall pairs st log e,
    incl pairs tree -> result_inv tree relative_poses st ->
    concatenate_loop S est proc fuel method relative_poses pairs st log
      = Raised e ->
    step_error est proc method tree relative_poses e \/
    exists ps, e = RuntimeError ps.
Proof.
  induction fuel as [|fuel IH]; intros pairs st log e Hp HI H.
  - destruct pairs; discriminate.
  - destruct pairs as [|p pairs]; [discriminate|].
    cbn [concatenate_loop] in H.
    destruct (run_pass S est proc method relative_poses (p :: pairs) st []
                       log) as [x|[[st1 um] log1]] eqn:Hpass.
    + inversion H; subst. left. eapply run_pass_error; eassumption.
    + destruct (length (p :: pairs) =? length um).
      * inversion H. right. eexists. reflexivity.
      * destruct (run_pass_invariant S est proc method relative_poses
                    (result_inv tree relative_poses) tree
                    (fun st0 curr adj inverse st' w HI0 Hc Hadj Hres =>
                       result_inv_step S est proc method relative_poses
                         tree st0 st' curr adj inverse w HI0 Hc Hadj Hres)
                    _ _ _ _ _ _ _ Hp
                    (fun x (Hx : In x []) => match Hx with end) HI Hpass)
          as [HI1 Hu1].
        eapply IH; eassumption.
Qed.

(** Every exception that [concatenate_relative_poses] raises is of one of
    five kinds: an [IndexError] (an empty tree, or a list of triangulated
    points shorter than its timestamps), the [KeyError] of a pair of the
    tree that has no relative pose, the [ValueError] for an unrecognised
    method, the [RuntimeError] of line 303, or an exception raised by one
    of the two estimators. No view is ever looked up without a pose, no
    adjacent pair without an entry, and no timestamp outside its list. *)
Theorem concatenate_raises_only (minimal_tree : list Pair) (e : exn) :
  concatenate_relative_poses S est proc minimal_tree relative_poses method
    = Raised e ->
  step_error est proc method minimal_tree relative_poses e \/
  exists ps, e = RuntimeError ps.
Proof.
  intros H. unfold concatenate_relative_poses in H.
  destruct minimal_tree as [|pair0 rest].
  { inversion H. left. left. reflexivity. }
  destruct (dict_get pair_eqb relative_poses pair0) as [rp0|] eqn:Hrp0.
  - eapply concatenate_loop_error; [| |exact H].
    + intros x Hx. right. exact Hx.
    + apply result_inv_initial. exact Hrp0.
  - inversion H. left. right. left. exists pair0.
    split; [reflexivity|]. split; [left; reflexivity | exact Hrp0].
Qed.
End ConcatenateErrors.

Lemma concatenate_raises_only_witness :
  run_Q 1 [(0, 1); (1, 2)] [((0, 1), translation_pose (qvec 0 0 0) [] [])]
  = Raised (KeyError_pair (1, 2)) /\
  In (1, 2) [(0, 1); (1, 2)].
Proof.
  assert (Hrun : run_Q 1 [(0, 1); (1, 2)]
                   [((0, 1), translation_pose (qvec 0 0 0) [] [])]
                 = Raised (KeyError_pair (1, 2))) by reflexivity.
  split; [exact Hrun|].
  destruct (concatenate_raises_only QScalar (reported_scale 1)
              (reported_procrustes 1) "cross-ratios"
              [((0, 1), translation_pose (qvec 0 0 0) [] [])]
              [(0, 1); (1, 2)] (KeyError_pair (1, 2)) Hrun)
    as [[H | [(p & Hp & Hin & _) | [H | (a & b & [H | H])]]] | (ps & H)];
    try discriminate H.
  inversion Hp; subst p. exact Hin.
Defined.

(** ** The run of the concatenation, step by step *)

Section ConcatenateRun.
Variable S : Scalar.
Variable est : list (vec3 S) -> list (vec3 S) -> result (S * S).
Variable proc :
  list (vec3 S) -> list (vec3 S) -> result (S * mat3 S * vec3 S * S).
Variable method : string.
Variable relative_poses : dict Pair (relative_pose S).

Lemma run_of_app (P : state S -> step S -> Prop) (s1 s2 : list (step S)) :
  forall a b c,
    run_of P a s1 b -> run_of P b s2 c -> run_of P a (s1 ++ s2) c.
Proof.
  induction s1 as [|k s1 IH]; intros a b c H1 H2; simpl in *.
  - subst b. exact H2.
  - destruct H1 as [Hk H1]. split; [exact Hk|]. eapply IH; eassumption.
Qed.

Lemma run_of_impl (P Q : state S -> step S -> Prop) :
  (forall st k, P st k -> Q st k) ->
  forall steps a b, run_of P a steps b -> run_of Q a steps b.
Proof.
  intros HPQ. induction steps as [|k steps IH]; intros a b H; simpl in *.
  - exact H.
  - destruct H as [Hk H]. split; [apply HPQ, Hk | apply IH, H].
Qed.

(** A pass is the list of the steps it takes: one for each pair of the
    work-list that has an adjacent pair when its turn comes, in the order
    of the work-list. The other pairs are kept, and the log grows by what
    the steps print. *)
Lemma run_pass_run (pairs : list Pair) :
  forall st um log st' um' log',
    run_pass S est proc method relative_poses pairs st um log
      = inr (st', um', log') ->
    exists steps,
      run_of (takes_step est proc method relative_poses) st steps st' /\
      incl (map step_pair steps) pairs /\
      (forall p, In p pairs \/ In p um ->
                 In p (map step_pair steps) \/ In p um') /\
      log' = log ++ flat_map step_warning steps.
Proof.
  induction pairs as [|curr pairs IH]; intros st um log st' um' log' H;
    simpl in H.
  - inversion H; subst. exists []. simpl.
    split; [reflexivity|]. split; [intros x []|].
    split; [intros p [[] | Hp]; auto|].
    rewrite app_nil_r. reflexivity.
  - destruct (find_adjacent_pair (triang_points st) curr)
      as [[adj|] inverse] eqn:Hadj.
    + destruct (resolve_pair S est proc method relative_poses st curr adj
                             inverse) as [e|[st1 w]] eqn:Hres;
        [discriminate|].
      simpl in H. apply IH in H.
      destruct H as (steps & Hrun & Hincl & Hcov & Hlog).
      exists (mkStep curr adj inverse st1 w :: steps). simpl.
      split; [split; [split; [exact Hadj | exact Hres] | exact Hrun]|].
      split.
      { intros x [<- | Hx]; [left; reflexivity | right; apply Hincl, Hx]. }
      split.
      * intros p [[<- | Hp] | Hp]; [left; left; reflexivity | |].
        -- destruct (Hcov p (or_introl Hp)); auto.
        -- destruct (Hcov p (or_intror Hp)); auto.
      * rewrite Hlog, <- app_assoc. reflexivity.
    + apply IH in H. destruct H as (steps & Hrun & Hincl & Hcov & Hlog).
      exists steps. split; [exact Hrun|].
      split; [intros x Hx; right; apply Hincl, Hx|].
      split; [|exact Hlog].
      intros p Hp. apply Hcov.
      destruct Hp as [[<- | Hp] | Hp].
      * right. destruct (existsb (pair_eqb curr) um) eqn:E.
        -- apply existsb_exists in E. destruct E as (k & Hk & E).
           apply pair_eqb_eq in E. subst k. exact Hk.
        -- apply in_or_app. right. left. reflexivity.
      * left. exact Hp.
      * right. destruct (existsb (pair_eqb curr) um);
          [exact Hp | apply in_or_app; left; exact Hp].
Qed.

Lemma concatenate_loop_run (fuel : nat) :
  forall pairs st log st' log',
    concatenate_loop S est proc fuel method relative_poses pairs st log
      = Returned (st', log') ->
    exists steps,
      run_of (takes_step est proc method relative_poses) st steps st' /\
      (forall p, In p (map step_pair steps) <-> In p pairs) /\
      log' = log ++ flat_map step_warning steps.
Proof.
  assert (Hdone : forall st log st' log',
            @Returned (state S * list notice) (st, log)
              = Returned (st', log') ->
            exists steps,
              run_of (takes_step est proc method relative_poses) st steps
                     st' /\
              (forall p, In p (map step_pair steps) <-> In p []) /\
              log' = log ++ flat_map step_warning steps).
  { intros st log st' log' H. inversion H; subst. exists []. simpl.
    split; [reflexivity|]. split; [tauto|].
    rewrite app_nil_r. reflexivity. }
  induction fuel as [|fuel IH]; intros pairs st log st' log' H.
  - destruct pairs; [|discriminate]. apply Hdone, H.
  - destruct pairs as [|p pairs]; [apply Hdone, H|].
    cbn [concatenate_loop] in H.
    destruct (run_pass S est proc method relative_poses (p :: pairs) st []
                       log) as [x|[[st1 um] log1]] eqn:Hpass;
      [discriminate|].
    destruct (length (p :: pairs) =? length um); [discriminate|].
    destruct (run_pass_invariant S est proc method relative_poses
                (fun _ => True) (p :: pairs)
                (fun _ _ _ _ _ _ _ _ _ _ => I) _ _ _ _ _ _ _
                (incl_refl _) (fun x (Hx : In x []) => match Hx with end)
                I Hpass) as [_ Hum].
    apply run_pass_run in Hpass.
    destruct Hpass as (s1 & Hrun1 & Hincl1 & Hcov1 & Hlog1).
    apply IH in H. destruct H as (s2 & Hrun2 & Hcov2 & Hlog2).
    exists (s1 ++ s2). split; [eapply run_of_app; eassumption|]. split.
    + intros q. rewrite map_app, in_app_iff. split.
      * intros [Hq | Hq]; [apply Hincl1, Hq | apply Hum, Hcov2, Hq].
      * intros Hq. destruct (Hcov1 q (or_introl Hq)) as [Hs | Hu];
          [left; exact Hs | right; apply Hcov2, Hu].
    + rewrite Hlog2, Hlog1, flat_map_app, app_assoc. reflexivity.
Qed.

(** A returned run of [concatenate_relative_poses] is the seed followed by
    a list of steps. Every pair after the first is resolved by at least
    one of them, no other pair is, and the log is what the steps printed,
    in order. *)
Lemma concatenate_run (minimal_tree : list Pair) (st : state S)
  (log : list notice) :
  concatenate_relative_poses S est proc minimal_tree relative_poses method
    = Returned (st, log) ->
  exists pair0 rest rp0 steps,
    minimal_tree = pair0 :: rest /\
    dict_get pair_eqb relative_poses pair0 = Some rp0 /\
    run_of (takes_step est proc method relative_poses)
           (initial_state pair0 rp0) steps st /\
    (forall p, In p rest <-> In p (map step_pair steps)) /\
    log = flat_map step_warning steps.
Proof.
  intros H. unfold concatenate_relative_poses in H.
  destruct minimal_tree as [|pair0 rest]; [discriminate|].
  destruct (dict_get pair_eqb relative_poses pair0) as [rp0|] eqn:Hrp0;
    [|discriminate].
  apply concatenate_loop_run in H. destruct H as (steps & Hrun & Hcov & Hlog).
  exists pair0, rest, rp0, steps.
  split; [reflexivity|]. split; [exact Hrp0|]. split; [exact Hrun|].
  split; [intros p; symmetry; apply Hcov | exact Hlog].
Qed.

(** C2, as the code has it. A returned run of
    [concatenate_relative_poses] is the seed followed by steps, at least one
    for every pair after the first and none for any other pair. Each step
    writes one pose, that of the newly placed view:
    [R2 = Rd . R1], [t2 = Rd . t1 + s * td], where [(Rd, td)] is the
    relative pose of the pair, inverted when the adjacent pair was found
    through the second view of the pair, [s] is the estimated scale, and
    [(R1, t1)] is the pose that [poses] holds for the anchor after the
    [np.float32] read of lines 245-246, so rounded to single precision and
    not the stored pose itself. *)
Theorem new_view_pose_is_composed (minimal_tree : list Pair)
  (st : state S) (log : list notice) :
  concatenate_relative_poses S est proc minimal_tree relative_poses method
    = Returned (st, log) ->
  exists pair0 rest rp0 steps,
    minimal_tree = pair0 :: rest /\
    dict_get pair_eqb relative_poses pair0 = Some rp0 /\
    (forall p, In p rest <-> In p (map step_pair steps)) /\
    run_of
      (fun before k =>
         let curr_pair := step_pair k in
         let inverse := step_inverse k in
         takes_step est proc method relative_poses before k /\
         (if inverse
          then in_pair (snd curr_pair) (step_adj k) = true /\
               in_pair (fst curr_pair) (step_adj k) = false
          else in_pair (fst curr_pair) (step_adj k) = true) /\
         exists anchor rp p3d_com p3d_adj_com s sd,
           dict_get Nat.eqb (poses before) (first_view curr_pair inverse)
             = Some anchor /\
           dict_get pair_eqb relative_poses curr_pair = Some rp /\
           estimate_scale S est proc method p3d_com p3d_adj_com
             = inr (s, sd) /\
           let R1 := mat_map (to_float32 S) (pose_R anchor) in
           let t1 := vec_map (to_float32 S) (pose_t anchor) in
           let Rd := fst (edge_pose rp inverse) in
           let td := snd (edge_pose rp inverse) in
           poses (step_state k) =
           dict_set Nat.eqb (poses before) (second_view curr_pair inverse)
             (mkPose (mat_mul Rd R1)
                     (vec_add (mat_vec Rd t1) (scale_vec s td))
                     s (Some sd)))
      (initial_state pair0 rp0) steps st.
Proof.
  intros H. apply concatenate_run in H.
  destruct H as (pair0 & rest & rp0 & steps & Htree & Hrp0 & Hrun & Hcov & _).
  exists pair0, rest, rp0, steps.
  split; [exact Htree|]. split; [exact Hrp0|]. split; [exact Hcov|].
  revert Hrun. apply run_of_impl. clear.
  intros before k Hk. cbv zeta. split; [exact Hk|].
  destruct Hk as [Hadj Hres].
  apply find_adjacent_pair_spec in Hadj. destruct Hadj as [_ Hdir].
  split; [exact Hdir|].
  apply resolve_pair_inv in Hres.
  destruct Hres as (p1 & rp & adj & c1 & c2 & s & sd &
                    H1 & H2 & _ & H4 & Hst & _).
  exists p1, rp, c1, c2, s, sd.
  split; [exact H1|]. split; [exact H2|]. split; [exact H4|].
  rewrite Hst. apply place_poses.
Qed.

(** *** A run that cannot fail *)


Section Returns.
Variable tree : list Pair.
Hypothesis known_method :
  method = "cross-ratios"%string \/ method = "procrustes"%string.
Hypothesis est_returns : forall a b, exists r, est a b = inr r.
Hypothesis proc_returns : forall a b, exists r, proc a b = inr r.
Hypothesis poses_given :
  forall p, In p tree ->
    exists rp, dict_get pair_eqb relative_poses p = Some rp /\
               length (rp_timestamps rp) <= length (rp_triang_points rp).




End Returns.


End ConcatenateRun.

(** *** The two properties on sample rigs *)

(** Rig F: the run resolves the pair (1, 2) in a step that composes with
    the rounded pose of view 1. *)
Lemma new_view_pose_is_composed_witness :
  let st := final_state32 (run_F rigF_tree rigF_poses) in
  run_F rigF_tree rigF_poses = Returned (st, []) /\
  exists steps : list (step Float32Scalar),
    In (1, 2) (map step_pair steps) /\
    forall p, In p (map step_pair steps) -> p = (1, 2).
Proof.
  intros st.
  assert (Hrun : run_F rigF_tree rigF_poses = Returned (st, []))
    by reflexivity.
  split; [exact Hrun|].
  destruct (new_view_pose_is_composed Float32Scalar (reported_scale32 1)
              (reported_procrustes32 1) "cross-ratios" rigF_poses rigF_tree
              st [] Hrun)
    as (pair0 & rest & rp0 & steps & Htree & _ & Hcov & _).
  inversion Htree; subst pair0 rest.
  exists steps. split.
  - apply Hcov. left. reflexivity.
  - intros p Hp. apply Hcov in Hp. destruct Hp as [<- | []]. reflexivity.
Defined.

(** C2 as stated fails on rig F. The seed stores translation 1 + 2^-30
    for view 1, the anchor of the pair (1, 2). Line 246 reads it as the
    single-precision number 1, so the step places view 2 at 1 + 1 = 2; the
    composition with the pose of the anchor as stored would give
    2 + 2^-30. *)
Lemma pose_not_composed_with_stored_anchor :
  let st := final_state32 (run_F rigF_tree rigF_poses) in
  exists anchor rp new_pose,
    run_F rigF_tree rigF_poses = Returned (st, []) /\
    find_adjacent_pair
      (triang_points (initial_state (0, 1) (rigF_pose (fvec above_one 0 0))))
      (1, 2) = (Some (0, 1), false) /\
    dict_get Nat.eqb (poses st) 1 = Some anchor /\
    dict_get pair_eqb rigF_poses (1, 2) = Some rp /\
    dict_get Nat.eqb (poses st) 2 = Some new_pose /\
    (relative_scale new_pose == 1)%Q /\
    (vx (pose_t anchor) == above_one)%Q /\
    (vx (pose_t new_pose) == 2)%Q /\
    (vx (snd (composed_with_stored_anchor anchor rp false 1%Q))
       == 2 + (1 # 1073741824))%Q /\
    ~ (vx (pose_t new_pose)
         == vx (snd (composed_with_stored_anchor anchor rp false 1%Q)))%Q.
Proof.
  intros st. eexists _, _, _.
  split; [reflexivity|]. split; [reflexivity|]. split; [reflexivity|].
  split; [reflexivity|]. split; [reflexivity|].
  split; [vm_compute; reflexivity|]. split; [vm_compute; reflexivity|].
  split; [vm_compute; reflexivity|]. split; [vm_compute; reflexivity|].
  vm_compute. discriminate.
Qed.

